(** * Integer factorisation core of [src/math/prime.cc]

    A shallow embedding of [modmul], [modpow], [miller_rabin], [pollard]
    and [factor].  Values of the C++ type [ull] are integers of [Z] in
    the range [0, 2^64); every operation that can wrap in the source has
    its wrap-around written out.  Division by zero and loops without a
    static bound are made explicit by the [result] type. *)

From Stdlib Require Import ZArith Zdivisibility List Lia Bool Permutation Sorted.
From Stdlib Require Import Zmod.ZmodInv.
Import ListNotations.

Local Open Scope Z_scope.

(** ** Outcomes of a run *)

Inductive result (A : Type) : Type :=
| Ok (a : A)
| DivByZero
| OutOfFuel.

Arguments Ok {A} a.
Arguments DivByZero {A}.
Arguments OutOfFuel {A}.

Definition bind {A B : Type} (r : result A) (k : A -> result B) : result B :=
  match r with
  | Ok a => k a
  | DivByZero => DivByZero
  | OutOfFuel => OutOfFuel
  end.

Notation "x <- e1 ;; e2" := (bind e1 (fun x => e2))
  (at level 61, e1 at next level, right associativity).

Definition is_ok {A : Type} (r : result A) : bool :=
  match r with
  | Ok _ => true
  | _ => false
  end.

(** ** 64-bit unsigned arithmetic *)

Definition two64 : Z := 2 ^ 64.
Definition two128 : Z := 2 ^ 128.

Definition u64 (x : Z) : Prop := 0 <= x < two64.

Definition add64 (a b : Z) : Z := (a + b) mod two64.
Definition sub64 (a b : Z) : Z := (a - b) mod two64.

(** [a / b] on [ull]; the quotient of two 64-bit values needs no wrap. *)
Definition div64 (a b : Z) : result Z :=
  if b =? 0 then DivByZero else Ok (a / b).

(** [a % b] on [ull]. *)
Definition rem64 (a b : Z) : result Z :=
  if b =? 0 then DivByZero else Ok (a mod b).

(** [(__uint128_t)a * b]: the product in 128 bits. *)
Definition mul128 (a b : Z) : Z := (a * b) mod two128.

(** ** [modmul] and [modpow] *)

(** [return (__uint128_t)a * b % M;] *)
Definition modmul (a b M : Z) : result Z :=
  if M =? 0 then DivByZero else Ok (mul128 a b mod M).

(** The [for] loop of [modpow]: the test [e], the body
    [if (e & 1) ans = modmul(ans, b, mod)], then the step
    [b = modmul(b, b, mod), e /= 2]. *)
Fixpoint modpow_loop (fuel : nat) (b e mod_ ans : Z) : result Z :=
  if e =? 0 then Ok ans
  else
    match fuel with
    | O => OutOfFuel
    | S fuel' =>
        ans' <- (if negb (Z.land e 1 =? 0) then modmul ans b mod_ else Ok ans) ;;
        b' <- modmul b b mod_ ;;
        modpow_loop fuel' b' (e / 2) mod_ ans'
    end.

(** A 64-bit exponent is exhausted after at most 64 halvings. *)
Definition modpow (b e mod_ : Z) : result Z :=
  modpow_loop 64 b e mod_ 1.

(** ** [miller_rabin] *)

Fixpoint ctz_pos (p : positive) : Z :=
  match p with
  | xO q => 1 + ctz_pos q
  | _ => 0
  end.

(** [__builtin_ctzll]: the number of trailing zero bits.  Its value at 0
    is unspecified by the compiler and is fixed to 64 here.  [miller_rabin] only calls it on [n - 1 >= 1]. *)
Definition __builtin_ctzll (x : Z) : Z :=
  match x with
  | Zpos p => ctz_pos p
  | _ => 64
  end.

Definition A : list Z :=
  [2; 325; 9375; 28178; 450775; 9780504; 1795265022].

(** [while (p != 1 && p != n - 1 && a % n && i--) p = modmul(p, p, n);]
    The post-decrement runs whenever the three tests before it hold, also
    when [i] is 0, in which case [i] wraps to [2^64 - 1] and the loop
    ends.  The final [p] and [i] are returned. *)
Fixpoint mr_while (fuel : nat) (n a p i : Z) : result (Z * Z) :=
  match fuel with
  | O => OutOfFuel
  | S fuel' =>
      if negb (p =? 1) && negb (p =? sub64 n 1) then
        r <- rem64 a n ;;
        if negb (r =? 0) then
          if negb (i =? 0) then
            p' <- modmul p p n ;;
            mr_while fuel' n a p' (sub64 i 1)
          else Ok (p, sub64 i 1)
        else Ok (p, i)
      else Ok (p, i)
  end.

(** The body of the [for (ull a : A)] loop.  [Ok false] stands for the
    [return 0] inside it, [Ok true] for falling through to the next
    witness. *)
Definition mr_witness (n s d a : Z) : result bool :=
  r <- rem64 a n ;;
  p0 <- modpow r d n ;;
  pi <- mr_while 65 n a p0 s ;;
  let '(p, i) := pi in
  if negb (p =? sub64 n 1) && negb (i =? s) then Ok false else Ok true.

Fixpoint mr_for (n s d : Z) (ws : list Z) : result bool :=
  match ws with
  | [] => Ok true
  | a :: ws' =>
      pass <- mr_witness n s d a ;;
      if pass then mr_for n s d ws' else Ok false
  end.

(** The guard of the first line of [miller_rabin]. *)
Definition mr_small (n : Z) : bool :=
  (n <? 2) || negb ((n mod 6) mod 4 =? 1).

Definition miller_rabin (n : Z) : result bool :=
  if mr_small n then Ok (Z.lor n 1 =? 3)
  else
    let s := __builtin_ctzll (sub64 n 1) in
    let d := Z.shiftr n s in
    mr_for n s d A.

(** ** [pollard] and [factor] *)

(** [auto f = [n](ull x) { return modmul(x, x, n) + 1; };] *)
Definition f (n x : Z) : result Z :=
  m <- modmul x x n ;;
  Ok (add64 m 1).

(** [std::__gcd] on unsigned arguments. *)
Definition __gcd (a b : Z) : Z := Z.gcd a b.

(** The [while] loop of [pollard] on the state [x, y, t, prd, i].  The
    test reads [t] and then increments it; the gcd is only taken when
    [t % 40] is 0. *)
Fixpoint pollard_loop (fuel : nat) (n x y t prd i : Z) : result Z :=
  match fuel with
  | O => OutOfFuel
  | S fuel' =>
      let t' := add64 t 1 in
      if negb (t mod 40 =? 0) || (__gcd prd n =? 1) then
        xyi <- (if x =? y
                then let i' := add64 i 1 in
                     y' <- f n i' ;; Ok (i', y', i')
                else Ok (x, y, i)) ;;
        let '(x1, y1, i1) := xyi in
        q <- modmul prd (sub64 (Z.max x1 y1) (Z.min x1 y1)) n ;;
        let prd1 := if negb (q =? 0) then q else prd in
        x2 <- f n x1 ;;
        fy <- f n y1 ;;
        y2 <- f n fy ;;
        pollard_loop fuel' n x2 y2 t' prd1 i1
      else Ok (__gcd prd n)
  end.

Definition pollard (fuel : nat) (n : Z) : result Z :=
  pollard_loop fuel n 0 0 30 2 1.

(** [factor]; [fuel] bounds both the nesting of the recursion and the
    number of iterations granted to each call of [pollard]. *)
Fixpoint factor (fuel : nat) (n : Z) : result (list Z) :=
  match fuel with
  | O => OutOfFuel
  | S fuel' =>
      if n =? 1 then Ok []
      else
        b <- miller_rabin n ;;
        if b then Ok [n]
        else
          x <- pollard fuel' n ;;
          l <- factor fuel' x ;;
          nx <- div64 n x ;;
          r <- factor fuel' nx ;;
          Ok (l ++ r)
  end.

(** The tree of calls made by a run of [factor]: a call that returns at
    once, or a call that splits its argument and recurses twice. *)
Inductive calltree : Type :=
| Base (n : Z)
| Split (n : Z) (l r : calltree).

Definition arg (t : calltree) : Z :=
  match t with
  | Base n => n
  | Split n _ _ => n
  end.

Fixpoint depth (t : calltree) : nat :=
  match t with
  | Base _ => 0%nat
  | Split _ l r => S (Nat.max (depth l) (depth r))
  end.

(** The factors are the leaves of the call tree, read from left to
    right; a call on 1 contributes nothing. *)
Fixpoint leaves (t : calltree) : list Z :=
  match t with
  | Base n => if n =? 1 then [] else [n]
  | Split _ l r => leaves l ++ leaves r
  end.

(** [factor] again, recording the calls instead of the factors. *)
Fixpoint factor_calls (fuel : nat) (n : Z) : result calltree :=
  match fuel with
  | O => OutOfFuel
  | S fuel' =>
      if n =? 1 then Ok (Base n)
      else
        b <- miller_rabin n ;;
        if b then Ok (Base n)
        else
          x <- pollard fuel' n ;;
          l <- factor_calls fuel' x ;;
          nx <- div64 n x ;;
          r <- factor_calls fuel' nx ;;
          Ok (Split n l r)
  end.

(** Every recursive call of the tree is on a proper divisor, at least 2,
    of the argument of its caller. *)
Definition proper_child (n : Z) (c : calltree) : Prop :=
  (arg c | n) /\ 2 <= arg c < n.

Fixpoint proper_calls (t : calltree) : Prop :=
  match t with
  | Base _ => True
  | Split n l r =>
      proper_child n l /\ proper_child n r /\ proper_calls l /\ proper_calls r
  end.

(** The two recursive calls in the body of [factor], as a relation
    between the argument [n] of a call and the argument of a call it
    makes.  Past the two early returns, [factor(x)] is called once
    [pollard(n)] has returned [x], and [factor(n / x)] once [factor(x)]
    has returned in its turn.  Neither asks that the call [factor(n)]
    itself returns. *)
Inductive factor_call (n : Z) : Z -> Prop :=
| call_first (fuel : nat) (x : Z) :
    (n =? 1) = false -> miller_rabin n = Ok false ->
    pollard fuel n = Ok x ->
    factor_call n x
| call_second (fuel fuel' : nat) (x nx : Z) (l : list Z) :
    (n =? 1) = false -> miller_rabin n = Ok false ->
    pollard fuel n = Ok x -> factor fuel' x = Ok l ->
    div64 n x = Ok nx ->
    factor_call n nx.

(** [nested k n c]: a call [factor(c)] that is [k] calls below a call
    [factor(n)] on the stack. *)
Inductive nested : nat -> Z -> Z -> Prop :=
| nested_here (n : Z) : nested 0 n n
| nested_call (k : nat) (n m c : Z) :
    factor_call n m -> nested k m c -> nested (S k) n c.

(** [at_depth k t s]: [s] is a call of the tree [t], [k] calls below its
    root. *)
Inductive at_depth : nat -> calltree -> calltree -> Prop :=
| at_root (t : calltree) : at_depth 0 t t
| at_left (k : nat) (n : Z) (l r s : calltree) :
    at_depth k l s -> at_depth (S k) (Split n l r) s
| at_right (k : nat) (n : Z) (l r s : calltree) :
    at_depth k r s -> at_depth (S k) (Split n l r) s.

Definition product (l : list Z) : Z := fold_right Z.mul 1 l.

Definition is_probable_prime (x : Z) : Prop := miller_rabin x = Ok true.

(** What the loop of [modpow] returns: the accumulator itself when no
    iteration runs, a reduced product otherwise. *)
Definition modpow_loop_spec (b e m ans : Z) : Z :=
  if e =? 0 then ans else (ans * b ^ e) mod m.

(** [factor] returns on each of 1, 2, ..., [upto] within [fuel]. *)
Definition factor_returns_upto (fuel upto : nat) : bool :=
  forallb (fun k => is_ok (factor fuel (Z.of_nat k))) (seq 1 upto).

(** ** Ground truth for primality: trial division *)

(** [n] has no divisor among the [k] values [d, d + 1, ...]. *)
Fixpoint no_divisor_from (k : nat) (d n : Z) : bool :=
  match k with
  | O => true
  | S k' => if n mod d =? 0 then false else no_divisor_from k' (d + 1) n
  end.

Definition trial_division (n : Z) : bool :=
  (2 <=? n) && no_divisor_from (Z.to_nat (n - 2)) 2 n.

(** [miller_rabin] and trial division agree on the [k] values
    [n, n + 1, ...]. *)
Fixpoint mr_agrees_from (k : nat) (n : Z) : bool :=
  match k with
  | O => true
  | S k' =>
      match miller_rabin n with
      | Ok b => if Bool.eqb b (trial_division n)
                then mr_agrees_from k' (n + 1) else false
      | _ => false
      end
  end.

(** ** The sieves of [src/math/prime.cc]

    The sieves work on [ll] (signed 64-bit) values and on the global
    vectors [primes], [spf] and [is_prime].  A run that indexes a vector
    out of range, overflows a signed operation or asks for a vector of
    negative size has no defined result: it ends in [Fault]. *)

Inductive outcome (T : Type) : Type :=
| Done (x : T)
| Fault
| Unfinished.

Arguments Done {T} x.
Arguments Fault {T}.
Arguments Unfinished {T}.

Definition and_then {T U : Type} (r : outcome T) (k : T -> outcome U) : outcome U :=
  match r with
  | Done x => k x
  | Fault => Fault
  | Unfinished => Unfinished
  end.

Notation "'do' x <~ e1 ; e2" := (and_then e1 (fun x => e2))
  (at level 10, x name, e1 at level 100, e2 at level 200).

Definition ll_min : Z := - 2 ^ 63.
Definition ll_max : Z := 2 ^ 63 - 1.

(** The value of a signed 64-bit operation whose exact result is [x]. *)
Definition ll (x : Z) : outcome Z :=
  if (ll_min <=? x) && (x <=? ll_max) then Done x else Fault.

(** [vector<T>(n, x)] *)
Definition vnew {T : Type} (n : Z) (x : T) : outcome (list T) :=
  if n <? 0 then Fault else Done (repeat x (Z.to_nat n)).

(** [v[j]] as a value *)
Definition vget {T : Type} (v : list T) (j : Z) : outcome T :=
  if (0 <=? j) && (j <? Z.of_nat (length v)) then
    match nth_error v (Z.to_nat j) with
    | Some x => Done x
    | None => Fault
    end
  else Fault.

Fixpoint set_nth {T : Type} (n : nat) (x : T) (v : list T) : list T :=
  match v, n with
  | [], _ => []
  | _ :: v', O => x :: v'
  | y :: v', S n' => y :: set_nth n' x v'
  end.

(** [v[j] = x] *)
Definition vset {T : Type} (v : list T) (j : Z) (x : T) : outcome (list T) :=
  if (0 <=? j) && (j <? Z.of_nat (length v)) then Done (set_nth (Z.to_nat j) x v)
  else Fault.

Record globals : Type := {
  primes : list Z;
  spf : list Z;
  is_prime : list bool
}.

(** [for (ll j = i * i; j <= N; j += i) is_prime[j] = false;] from the
    current [j] on. *)
Fixpoint sieve_cross (fuel : nat) (N i j : Z) (v : list bool) : outcome (list bool) :=
  if j <=? N then
    match fuel with
    | O => Unfinished
    | S fuel' =>
        do v' <~ vset v j false;
        do j' <~ ll (j + i);
        sieve_cross fuel' N i j' v'
    end
  else Done v.

(** The outer loop of [sieve] from the current [i] on, on the pair of
    [primes] and [is_prime]. *)
Fixpoint sieve_loop (fuel : nat) (N i : Z) (ps : list Z) (v : list bool)
  : outcome (list Z * list bool) :=
  if i <=? N then
    match fuel with
    | O => Unfinished
    | S fuel' =>
        do b <~ vget v i;
        do pv <~ (if b : bool
                  then do ii <~ ll (i * i);
                       do v' <~ sieve_cross (Z.to_nat N) N i ii v;
                       Done (ps ++ [i], v')
                  else Done (ps, v));
        do i' <~ ll (i + 1);
        sieve_loop fuel' N i' (fst pv) (snd pv)
    end
  else Done (ps, v).

(** [sieve]: both loops run at most [N] times. *)
Definition sieve (N : Z) (g : globals) : outcome globals :=
  do n1 <~ ll (N + 1);
  do v0 <~ vnew n1 true;
  do v1 <~ vset v0 1 false;
  do v2 <~ vset v1 0 false;
  do r <~ sieve_loop (Z.to_nat N) N 2 [] v2;
  Done {| primes := fst r; spf := spf g; is_prime := snd r |}.

(** The integers [lo, lo + 1, ..., lo + n - 1]. *)
Fixpoint zseq (lo : Z) (n : nat) : list Z :=
  match n with
  | O => []
  | S n' => lo :: zseq (lo + 1) n'
  end.

(** The primes among [2, ..., N], in increasing order. *)
Definition primes_upto (N : Z) : list Z :=
  filter trial_division (zseq 2 (Z.to_nat (N - 1))).

(** The entry of a [vector<bool>] at [k], [false] outside it. *)
Definition bit (v : list bool) (k : Z) : bool := nth (Z.to_nat k) v false.

(** What the sieve has not crossed out when its outer loop reaches [i]:
    the [k >= 2] without a divisor [d] in [2, i) with [d * d <= k]. *)
Definition unmarked (i k : Z) : Prop :=
  2 <= k /\ forall d, 2 <= d < i -> (d | k) -> k < d * d.

(** [a / b] on [ll]: the quotient truncates towards zero. *)
Definition ll_div (a b : Z) : outcome Z :=
  if b =? 0 then Fault else ll (Z.quot a b).

(** The value of an [int] operation whose exact result is [x]. *)
Definition int_ (x : Z) : outcome Z :=
  if (- 2 ^ 31 <=? x) && (x <=? 2 ^ 31 - 1) then Done x else Fault.

(** The conversion of [x] to [int]: it wraps. *)
Definition to_int (x : Z) : Z := (x + 2 ^ 31) mod 2 ^ 32 - 2 ^ 31.

(** The inner loop of [spf_sieve] from the current [j] on:
    [for (...; j < (ll) primes.size() && primes[j] <= spf[i]
            && i * primes[j] <= N; j++) spf[i * primes[j]] = primes[j];] *)
Fixpoint spf_inner (fuel : nat) (N i j : Z) (ps t : list Z) : outcome (list Z) :=
  if j <? Z.of_nat (length ps) then
    do pj <~ vget ps j;
    do si <~ vget t i;
    if pj <=? si then
      do ip <~ ll (i * pj);
      if ip <=? N then
        match fuel with
        | O => Unfinished
        | S fuel' =>
            do t' <~ vset t ip pj;
            do j' <~ ll (j + 1);
            spf_inner fuel' N i j' ps t'
        end
      else Done t
    else Done t
  else Done t.

(** The outer loop of [spf_sieve] from the current [i] on, on the pair
    of [primes] and [spf]. *)
Fixpoint spf_loop (fuel : nat) (N i : Z) (ps t : list Z)
  : outcome (list Z * list Z) :=
  if i <=? N then
    match fuel with
    | O => Unfinished
    | S fuel' =>
        do si <~ vget t i;
        do pt <~ (if si =? 0
                  then do t1 <~ vset t i i; Done (ps ++ [i], t1)
                  else Done (ps, t));
        do t2 <~ spf_inner (length (fst pt)) N i 0 (fst pt) (snd pt);
        do i' <~ ll (i + 1);
        spf_loop fuel' N i' (fst pt) t2
    end
  else Done (ps, t).

(** [spf_sieve]: the outer loop runs at most [N] times, the inner one at
    most once per prime found so far. *)
Definition spf_sieve (N : Z) (g : globals) : outcome globals :=
  do n1 <~ ll (N + 1);
  do t0 <~ vnew n1 0;
  do r <~ spf_loop (Z.to_nat N) N 2 [] t0;
  Done {| primes := fst r; spf := snd r; is_prime := is_prime g |}.

(** The [while (x > 1)] loop on [x], [cur], [ct] and the vector of
    pairs, followed by the final [if (ct)].  [pf_precomp] here and
    [get_pfs] of [src/math/sieve.cc] have the same loop, on [ll] and on
    [int]: it is written once, over the division [dv] of the type. *)
Fixpoint pf_loop (dv : Z -> Z -> outcome Z) (fuel : nat) (t : list Z)
         (x cur ct : Z) (pfs : list (Z * Z)) : outcome (list (Z * Z)) :=
  if 1 <? x then
    match fuel with
    | O => Unfinished
    | S fuel' =>
        do s <~ vget t x;
        let '(pfs1, cur1, ct1) :=
          if negb (cur =? s) then (pfs ++ [(cur, ct)], s, 0) else (pfs, cur, ct) in
        do ct2 <~ int_ (ct1 + 1);
        do x' <~ dv x s;
        pf_loop dv fuel' t x' cur1 ct2 pfs1
    end
  else Done (if negb (ct =? 0) then pfs ++ [(cur, ct)] else pfs).

(** [pf_precomp].  A positive entry other than 1 at least halves [x], so
    64 rounds serve every 64-bit [x]; a run that needs more is stuck on
    an entry equal to 1. *)
Definition pf_precomp (x : Z) (g : globals) : outcome (list (Z * Z)) :=
  do cur <~ vget (spf g) x;
  pf_loop ll_div 64 (spf g) x cur 0 [].

(** ** Reference notions for the sieves *)

(** The least divisor of [n] that is at least 2, searched from [d]. *)
Fixpoint lpf_from (k : nat) (d n : Z) : Z :=
  match k with
  | O => n
  | S k' => if n mod d =? 0 then d else lpf_from k' (d + 1) n
  end.

Definition lpf (n : Z) : Z := lpf_from (Z.to_nat (n - 2)) 2 n.

(** The entry of a [vector<ll>] at [k], 0 outside it. *)
Definition entry (t : list Z) (k : Z) : Z := nth (Z.to_nat k) t 0.

(** [t] is the table of least prime factors of [2, ..., N]. *)
Definition spf_table (N : Z) (t : list Z) : Prop :=
  Z.of_nat (length t) = N + 1 /\ forall k, 2 <= k <= N -> entry t k = lpf k.

(** The round of the outer loop of [spf_sieve] that writes [spf[k]]:
    [k] itself for a prime, its cofactor by its least prime factor
    otherwise. *)
Definition writer (k : Z) : Z := if lpf k =? k then k else k / lpf k.

(** The value of a factorisation into prime powers. *)
Definition pf_product (l : list (Z * Z)) : Z :=
  fold_right (fun pc acc => fst pc ^ snd pc * acc) 1 l.

(** Increasing primes with positive exponents. *)
Definition pf_canonical (l : list (Z * Z)) : Prop :=
  StronglySorted Z.lt (map fst l) /\
  Forall (fun pc => Z.prime (fst pc) /\ 1 <= snd pc) l.

(** ** The Fenwick tree of [src/range/Fenwick.cc]

    The template parameter [T] is a type with a zero, [+=] and [-];
    indices and [len] are [int]. *)

Module Fenwick.
Section WithT.

Context {T : Type}.
Variable zero : T.
Variables add sub : T -> T -> T.

Record t : Type := { data : list T; len : Z }.

(** [i & -i] *)
Definition lowbit (i : Z) : Z := Z.land i (- i).

(** [Fenwick(int _len) : data(_len+1), len(_len + 1) {}] *)
Definition make (_len : Z) : outcome t :=
  do n <~ int_ (_len + 1);
  do d <~ vnew n zero;
  Done {| data := d; len := n |}.

(** [for (int i = idx; i < len; i += i & -i) data[i] += val;] from the
    current [i] on. *)
Fixpoint upd_loop (fuel : nat) (d : list T) (len_ i : Z) (val : T)
  : outcome (list T) :=
  if i <? len_ then
    match fuel with
    | O => Unfinished
    | S fuel' =>
        do x <~ vget d i;
        do d' <~ vset d i (add x val);
        do m <~ int_ (- i);
        do i' <~ int_ (i + Z.land i m);
        upd_loop fuel' d' len_ i' val
    end
  else Done d.

(** [upd].  From an index of at least 1 the step [i & -i] at least
    doubles each round, so 32 rounds serve every [int]; a run that
    needs more started at index 0 and never ends. *)
Definition upd (f : t) (idx : Z) (val : T) : outcome t :=
  do d <~ upd_loop 32 (data f) (len f) idx val;
  Done {| data := d; len := len f |}.

(** [for (int i = idx; i > 0; i -= i & -i) res += data[i];] from the
    current [i] and [res] on. *)
Fixpoint get_loop (fuel : nat) (d : list T) (i : Z) (res : T) : outcome T :=
  if 0 <? i then
    match fuel with
    | O => Unfinished
    | S fuel' =>
        do x <~ vget d i;
        do m <~ int_ (- i);
        do i' <~ int_ (i - Z.land i m);
        get_loop fuel' d i' (add res x)
    end
  else Done res.

(** [T get(int idx)]: each round clears one bit of [i]. *)
Definition get (f : t) (idx : Z) : outcome T :=
  get_loop 32 (data f) idx zero.

(** [T get(int left, int right)] *)
Definition get_range (f : t) (left right : Z) : outcome T :=
  do r <~ get f right;
  do l1 <~ int_ (left - 1);
  do l <~ get f l1;
  Done (sub r l).

(** The loop of the constructor from a vector:
    [for (int i = 1; i < len; i++) upd(i, input[i - 1]);] *)
Fixpoint build_loop (fuel : nat) (f : t) (input : list T) (i : Z) : outcome t :=
  if i <? len f then
    match fuel with
    | O => Unfinished
    | S fuel' =>
        do i1 <~ int_ (i - 1);
        do x <~ vget input i1;
        do f' <~ upd f i x;
        do i' <~ int_ (i + 1);
        build_loop fuel' f' input i'
    end
  else Done f.

(** [Fenwick(vector<T>& input)] *)
Definition of_vector (input : list T) : outcome t :=
  do d <~ vnew (Z.of_nat (length input) + 1) zero;
  do n <~ int_ (to_int (Z.of_nat (length input)) + 1);
  build_loop (length input) {| data := d; len := n |} input 1.

(** A sequence of calls of [upd], in order. *)
Fixpoint upd_all (f : t) (us : list (Z * T)) : outcome t :=
  match us with
  | [] => Done f
  | (idx, val) :: us' => do f' <~ upd f idx val; upd_all f' us'
  end.

(** The total of the values of the calls with an index in [l..r], taken
    in the order of the calls. *)
Definition total_between (l r : Z) (us : list (Z * T)) : T :=
  fold_left (fun acc u => if (l <=? fst u) && (fst u <=? r)
                          then add acc (snd u) else acc) us zero.

(** The sum of the elements of [input] at the positions [l..r], counted
    from 1. *)
Definition segment_sum (input : list T) (l r : Z) : T :=
  fold_right add zero (firstn (Z.to_nat (r - l + 1)) (skipn (Z.to_nat (l - 1)) input)).

(** [a] with [val] added at [idx]. *)
Definition bump (a : Z -> T) (idx : Z) (val : T) : Z -> T :=
  fun j => if j =? idx then add (a j) val else a j.

(** [a (lo + 1) + ... + a (lo + c)] *)
Definition sumf (a : Z -> T) (lo c : Z) : T :=
  fold_right add zero (map a (zseq (lo + 1) (Z.to_nat c))).

(** [a] after the calls [us] of [upd]. *)
Definition bump_all (a : Z -> T) (us : list (Z * T)) : Z -> T :=
  fold_left (fun b u => bump b (fst u) (snd u)) us a.

(** [f] stores, at each index [i] of [1..n], the sum of the [lowbit i]
    values of [a] that end at [i]. *)
Definition represents (f : t) (a : Z -> T) (n : Z) : Prop :=
  len f = n + 1 /\ Z.of_nat (length (data f)) = n + 1 /\
  forall i, 1 <= i <= n ->
            nth (Z.to_nat i) (data f) zero = sumf a (i - lowbit i) (lowbit i).

End WithT.
End Fenwick.

(** ** [range] of [src/math/prime.cc]

    [range] starts with [ll root = sqrt(R)], a floating-point square
    root truncated to [ll].  Its value is not computed here: [range]
    takes it from the function [sqrt_ll], and the properties below say
    what they need of it. *)

(** [for (ll j = ...; j <= R; j += i) is_prime[j - L] = false;] from the
    current [j] on. *)
Fixpoint range_cross (fuel : nat) (L R i j : Z) (v : list bool) : outcome (list bool) :=
  if j <=? R then
    match fuel with
    | O => Unfinished
    | S fuel' =>
        do k <~ ll (j - L);
        do v' <~ vset v k false;
        do j' <~ ll (j + i);
        range_cross fuel' L R i j' v'
    end
  else Done v.

(** [max(i * i, (L + i - 1) / i * i)] *)
Definition range_start (L i : Z) : outcome Z :=
  do ii <~ ll (i * i);
  do a <~ ll (L + i);
  do b <~ ll (a - 1);
  do q <~ ll_div b i;
  do m <~ ll (q * i);
  Done (Z.max ii m).

(** [for (ll i : primes) ...]: each inner loop writes at most once per
    slot of [is_prime]. *)
Fixpoint range_marks (L R : Z) (ps : list Z) (v : list bool) : outcome (list bool) :=
  match ps with
  | [] => Done v
  | i :: ps' =>
      do j <~ range_start L i;
      do v' <~ range_cross (length v) L R i j v;
      range_marks L R ps' v'
  end.

(** [for (ll i = 0; i < R - L + 1; i++) if (is_prime[i])
    primes.push_back(i + L);] from the current [i] on. *)
Fixpoint range_collect (fuel : nat) (L R i : Z) (v : list bool) (ps : list Z)
  : outcome (list Z) :=
  do n <~ ll (R - L);
  do n1 <~ ll (n + 1);
  if i <? n1 then
    match fuel with
    | O => Unfinished
    | S fuel' =>
        do b <~ vget v i;
        do ps' <~ (if b : bool then do x <~ ll (i + L); Done (ps ++ [x]) else Done ps);
        do i' <~ ll (i + 1);
        range_collect fuel' L R i' v ps'
    end
  else Done ps.

Definition range (sqrt_ll : Z -> Z) (L R : Z) (g : globals) : outcome globals :=
  let root := sqrt_ll R in
  do g1 <~ sieve root g;
  do n <~ ll (R - L);
  do n1 <~ ll (n + 1);
  do v0 <~ vnew n1 true;
  do v1 <~ range_marks L R (primes g1) v0;
  do v2 <~ (if L =? 1 then vset v1 0 false else Done v1);
  do ps <~ range_collect (length v2) L R 0 v2 [];
  Done {| primes := ps; spf := spf g1; is_prime := v2 |}.

(** ** The sieve of [src/math/sieve.cc]

    Its vectors [primes] and [spf] hold [int]s; the loop variables are
    [long long], converted when they are stored. *)

(** [a / b] on [int] *)
Definition int_div (a b : Z) : outcome Z :=
  if b =? 0 then Fault else int_ (Z.quot a b).

Module SieveCc.

Record globals : Type := {
  primes : list Z;
  spf : list Z
}.

(** [for (long long j = i*i; j <= N; j += i)
      if (spf[j] == -1) spf[j] = i;] from the current [j] on. *)
Fixpoint sieve_cross (fuel : nat) (N i j : Z) (t : list Z) : outcome (list Z) :=
  if j <=? N then
    match fuel with
    | O => Unfinished
    | S fuel' =>
        do s <~ vget t j;
        do t' <~ (if s =? -1 then vset t j (to_int i) else Done t);
        do j' <~ ll (j + i);
        sieve_cross fuel' N i j' t'
    end
  else Done t.

(** The outer loop of [sieve] from the current [i] on, on the pair of
    [primes] and [spf]. *)
Fixpoint sieve_loop (fuel : nat) (N i : Z) (ps t : list Z)
  : outcome (list Z * list Z) :=
  if i <=? N then
    match fuel with
    | O => Unfinished
    | S fuel' =>
        do s <~ vget t i;
        do pt <~ (if s =? -1
                  then do t1 <~ vset t i (to_int i);
                       do ii <~ ll (i * i);
                       do t2 <~ sieve_cross (Z.to_nat N) N i ii t1;
                       Done (ps ++ [to_int i], t2)
                  else Done (ps, t));
        do i' <~ ll (i + 1);
        sieve_loop fuel' N i' (fst pt) (snd pt)
    end
  else Done (ps, t).

Definition sieve (N : Z) (g : globals) : outcome globals :=
  do n1 <~ ll (N + 1);
  do t0 <~ vnew n1 (-1);
  do r <~ sieve_loop (Z.to_nat N) N 2 [] t0;
  Done {| primes := fst r; spf := snd r |}.

(** [get_pfs]: an [int] above 1 is exhausted after at most 32
    halvings. *)
Definition get_pfs (x : Z) (g : globals) : outcome (list (Z * Z)) :=
  do cur <~ vget (spf g) x;
  pf_loop int_div 32 (spf g) x cur 0 [].

End SieveCc.

(** ** The linear sieve of [src/math/isieve.cc]

    It works on [int] throughout and on three global vectors, which it
    resizes: what they held before the call stays in them. *)

(** [v.resize(n, x)] *)
Definition vresize {T : Type} (v : list T) (n : Z) (x : T) : outcome (list T) :=
  if n <? 0 then Fault
  else Done (firstn (Z.to_nat n) v ++ repeat x (Z.to_nat n - length v)).

Module ISieveCc.

(** [for (int j = 0; j < (int) primes.size() && primes[j] <= spf[i]
         && (long long) i * primes[j] <= N; j++) {
      is_prime[i * primes[j]] = false;
      spf[i * primes[j]] = primes[j]; }] from the current [j] on, on the
    pair of [spf] and [is_prime]. *)
Fixpoint sieve_inner (fuel : nat) (N i j : Z) (ps t : list Z) (v : list bool)
  : outcome (list Z * list bool) :=
  if j <? to_int (Z.of_nat (length ps)) then
    do pj <~ vget ps j;
    do si <~ vget t i;
    if pj <=? si then
      do ip <~ ll (i * pj);
      if ip <=? N then
        match fuel with
        | O => Unfinished
        | S fuel' =>
            do m <~ int_ (i * pj);
            do v' <~ vset v m false;
            do t' <~ vset t m pj;
            do j' <~ int_ (j + 1);
            sieve_inner fuel' N i j' ps t' v'
        end
      else Done (t, v)
    else Done (t, v)
  else Done (t, v).

(** The outer loop of [sieve] from the current [i] on, on [primes],
    [spf] and [is_prime]. *)
Fixpoint sieve_loop (fuel : nat) (N i : Z) (ps t : list Z) (v : list bool)
  : outcome (list Z * list Z * list bool) :=
  if i <=? N then
    match fuel with
    | O => Unfinished
    | S fuel' =>
        do b <~ vget v i;
        do pt <~ (if b : bool
                  then do t1 <~ vset t i i; Done (ps ++ [i], t1)
                  else Done (ps, t));
        do tv <~ sieve_inner (length (fst pt)) N i 0 (fst pt) (snd pt) v;
        do i' <~ int_ (i + 1);
        sieve_loop fuel' N i' (fst pt) (fst tv) (snd tv)
    end
  else Done (ps, t, v).

(** [sieve]: the outer loop runs at most [N] times, the inner one at
    most once per element of [primes]. *)
Definition sieve (N : Z) (g : globals) : outcome globals :=
  do n1 <~ int_ (N + 1);
  do v0 <~ vresize (is_prime g) n1 true;
  do t0 <~ vresize (spf g) n1 0;
  do v1 <~ vset v0 1 false;
  do v2 <~ vset v1 0 false;
  do r <~ sieve_loop (Z.to_nat N) N 2 (primes g) t0 v2;
  Done {| primes := fst (fst r); spf := snd (fst r); is_prime := snd r |}.

(** The state of a program that has not called [sieve] yet. *)
Definition fresh : globals := {| primes := []; spf := []; is_prime := [] |}.

End ISieveCc.

(** * Properties *)

(** ** The [result] monad *)

Lemma bind_Ok {X Y : Type} (r : result X) (k : X -> result Y) (y : Y) :
  bind r k = Ok y -> exists x, r = Ok x /\ k x = Ok y.
Proof.
  destruct r as [x | | ]; simpl; intros H; try discriminate.
  exists x. split; [reflexivity | exact H].
Qed.

Lemma is_ok_Ok {X : Type} (r : result X) : is_ok r = true -> exists x, r = Ok x.
Proof.
  destruct r as [x | |]; simpl; intros H; [exists x; reflexivity | | ]; discriminate.
Qed.

Tactic Notation "inv_bind" hyp(H) "as" ident(x) ident(Hx) :=
  apply bind_Ok in H; destruct H as [x [Hx H]].

Lemma two64_eq : two64 = 18446744073709551616.
Proof. reflexivity. Qed.

Lemma two128_eq : two128 = two64 * two64.
Proof. reflexivity. Qed.

Lemma two64_pos : 0 < two64.
Proof. rewrite two64_eq. lia. Qed.


(** ** [modmul] *)

Section Modmul.

Variables a b M : Z.
Hypothesis Ha : u64 a.
Hypothesis Hb : u64 b.

(** The 128-bit product of two 64-bit values does not wrap. *)
Lemma mul128_exact : mul128 a b = a * b.
Proof.
  unfold mul128. apply Z.mod_small.
  unfold u64 in *. rewrite two128_eq. nia.
Qed.

Lemma modmul_exact : M <> 0 -> modmul a b M = Ok ((a * b) mod M).
Proof.
  intros HM. unfold modmul.
  apply Z.eqb_neq in HM. rewrite HM, mul128_exact. reflexivity.
Qed.

Lemma modmul_zero : modmul a b 0 = DivByZero.
Proof. reflexivity. Qed.

End Modmul.

Lemma mod_u64 (x m : Z) : 0 < m < two64 -> u64 (x mod m).
Proof.
  intros Hm. unfold u64. pose proof (Z.mod_pos_bound x m). lia.
Qed.

(** ** [modpow] *)

Lemma land_1_mod2 (e : Z) : Z.land e 1 = e mod 2.
Proof. change 1 with (Z.ones 1). rewrite Z.land_ones by lia. reflexivity. Qed.

Lemma modpow_loop_correct (fuel : nat) :
  forall b e m ans,
    0 < m < two64 -> u64 b -> u64 ans -> 0 <= e < 2 ^ Z.of_nat fuel ->
    modpow_loop fuel b e m ans = Ok (modpow_loop_spec b e m ans).
Proof.
  induction fuel as [| fuel IH]; intros b e m ans Hm Hb Hans He.
  - assert (e = 0) as -> by (simpl in He; lia). reflexivity.
  - unfold modpow_loop_spec. simpl modpow_loop.
    destruct (e =? 0) eqn:E0; [reflexivity |].
    apply Z.eqb_neq in E0.
    assert (Hm0 : m <> 0) by lia.
    assert (Hhalf : 0 <= e / 2 < 2 ^ Z.of_nat fuel).
    { rewrite Nat2Z.inj_succ, Z.pow_succ_r in He by lia.
      split; [apply Z.div_pos; lia | apply Z.div_lt_upper_bound; lia]. }
    assert (Hsplit : e = 2 * (e / 2) + e mod 2) by (apply Z.div_mod; lia).
    pose proof (Z.mod_pos_bound e 2 ltac:(lia)) as Hbit.
    rewrite land_1_mod2.
    rewrite (modmul_exact b b m Hb Hb Hm0). cbn [bind].
    assert (Hsq : forall k, 0 <= k ->
              ((b * b) mod m) ^ k mod m = b ^ (2 * k) mod m).
    { intros k Hk. rewrite Z.mod_pow_l.
      rewrite Z.pow_mul_r by lia. f_equal. f_equal. lia. }
    destruct (e mod 2 =? 0) eqn:Ebit; simpl negb; cbv iota.
    + apply Z.eqb_eq in Ebit. cbn [bind].
      rewrite IH; auto using mod_u64.
      unfold modpow_loop_spec.
      assert (e / 2 <> 0) by lia.
      destruct (e / 2 =? 0) eqn:E2; [apply Z.eqb_eq in E2; lia |].
      f_equal.
      rewrite <- Z.mul_mod_idemp_r by lia.
      rewrite Hsq by lia.
      rewrite Z.mul_mod_idemp_r by lia.
      f_equal. f_equal. f_equal. lia.
    + apply Z.eqb_neq in Ebit.
      rewrite (modmul_exact ans b m Hans Hb Hm0). cbn [bind].
      rewrite IH; auto using mod_u64.
      unfold modpow_loop_spec.
      destruct (e / 2 =? 0) eqn:E2.
      * apply Z.eqb_eq in E2. f_equal.
        assert (e = 1) as -> by lia. rewrite Z.pow_1_r. reflexivity.
      * apply Z.eqb_neq in E2. f_equal.
        rewrite <- Z.mul_mod_idemp_r by lia.
        rewrite Hsq by lia.
        rewrite Z.mul_mod_idemp_r by lia.
        rewrite Z.mul_mod_idemp_l by lia.
        f_equal.
        replace e with (1 + 2 * (e / 2)) at 2 by lia.
        rewrite Z.pow_add_r, Z.pow_1_r by lia. ring.
Qed.

Lemma modpow_correct (b e m : Z) :
  0 < m < two64 -> u64 b -> u64 e ->
  modpow b e m = Ok (if e =? 0 then 1 else b ^ e mod m).
Proof.
  intros Hm Hb He. unfold modpow.
  rewrite modpow_loop_correct; auto.
  - unfold modpow_loop_spec. destruct (e =? 0); [reflexivity |].
    f_equal. f_equal. lia.
  - unfold u64. rewrite two64_eq. lia.
Qed.

Lemma modpow_zero_modulus (b e : Z) :
  e <> 0 -> modpow b e 0 = DivByZero.
Proof.
  intros He. unfold modpow. simpl.
  apply Z.eqb_neq in He. rewrite He.
  destruct (negb (Z.land e 1 =? 0)); reflexivity.
Qed.

(** ** [miller_rabin] *)

Lemma ctz_pos_bound (p : positive) : 0 <= ctz_pos p /\ 2 ^ ctz_pos p <= Zpos p.
Proof.
  induction p as [p IH | p IH | ]; cbn [ctz_pos].
  - split; [lia | simpl; lia].
  - destruct IH as [IH0 IH1]. split; [lia |].
    rewrite Z.pow_add_r, Z.pow_1_r by lia.
    change (Z.pos p~0) with (2 * Z.pos p). lia.
  - split; [lia | simpl; lia].
Qed.

Lemma ctzll_bound (x : Z) : 0 < x < two64 -> 0 <= __builtin_ctzll x < 64.
Proof.
  intros Hx. destruct x as [| p | p]; try lia.
  cbn [__builtin_ctzll]. destruct (ctz_pos_bound p) as [H0 H1]. split; [exact H0 |].
  destruct (Z_lt_ge_dec (ctz_pos p) 64) as [Hlt | Hge]; [exact Hlt | exfalso].
  assert (two64 <= 2 ^ ctz_pos p) by (apply Z.pow_le_mono_r; lia).
  lia.
Qed.

Lemma mr_small_false (n : Z) : mr_small n = false -> 5 <= n.
Proof.
  unfold mr_small. intros H.
  apply orb_false_elim in H. destruct H as [H2 H6].
  apply Z.ltb_ge in H2. apply negb_false_iff, Z.eqb_eq in H6.
  destruct (Z_lt_ge_dec n 5) as [Hlt | Hge]; [exfalso | lia].
  assert (n = 2 \/ n = 3 \/ n = 4) as [-> | [-> | ->]] by lia;
    vm_compute in H6; discriminate.
Qed.

Lemma sub64_1 (n : Z) : 0 < n < two64 -> sub64 n 1 = n - 1.
Proof. intros Hn. unfold sub64. apply Z.mod_small. lia. Qed.

Lemma rem64_ok (a n : Z) : n <> 0 -> rem64 a n = Ok (a mod n).
Proof. intros Hn. unfold rem64. apply Z.eqb_neq in Hn. rewrite Hn. reflexivity. Qed.

Lemma mr_while_S (fuel : nat) (n a p i : Z) :
  mr_while (S fuel) n a p i =
  if negb (p =? 1) && negb (p =? sub64 n 1) then
    r <- rem64 a n ;;
    if negb (r =? 0) then
      if negb (i =? 0) then
        p' <- modmul p p n ;;
        mr_while fuel n a p' (sub64 i 1)
      else Ok (p, sub64 i 1)
    else Ok (p, i)
  else Ok (p, i).
Proof. reflexivity. Qed.

(** The squaring loop always ends within its 65 rounds: the counter
    starts below 64 and drops by one each round. *)
Lemma mr_while_total (fuel : nat) :
  forall n a p i,
    0 < n < two64 -> u64 p -> 0 <= i < Z.of_nat fuel ->
    exists p' i', mr_while fuel n a p i = Ok (p', i').
Proof.
  induction fuel as [| fuel IH]; intros n a p i Hn Hp Hi; [lia |].
  rewrite mr_while_S.
  destruct (negb (p =? 1) && negb (p =? sub64 n 1)); [| eauto].
  rewrite rem64_ok by lia. cbn [bind].
  destruct (negb (a mod n =? 0)); [| eauto].
  destruct (i =? 0) eqn:Ei; simpl negb; cbv iota; [eauto |].
  apply Z.eqb_neq in Ei.
  rewrite modmul_exact by (auto; lia). cbn [bind].
  apply IH; [exact Hn | apply mod_u64; exact Hn |].
  unfold sub64.
  pose proof (Z.mod_pos_bound (i - 1) two64 two64_pos).
  pose proof (Z.mod_le (i - 1) two64 ltac:(lia) two64_pos).
  lia.
Qed.

Lemma shiftr_u64 (n s : Z) : u64 n -> 0 <= s -> u64 (Z.shiftr n s).
Proof.
  intros Hn Hs. unfold u64 in *. rewrite Z.shiftr_div_pow2 by lia.
  assert (0 < 2 ^ s) by (apply Z.pow_pos_nonneg; lia).
  split; [apply Z.div_pos; lia |].
  apply Z.div_lt_upper_bound; nia.
Qed.

Lemma mr_witness_total (n s d a : Z) :
  0 < n < two64 -> u64 d -> 0 <= s < 64 ->
  exists pass, mr_witness n s d a = Ok pass.
Proof.
  intros Hn Hd Hs. unfold mr_witness.
  rewrite rem64_ok by lia. cbn [bind].
  rewrite modpow_correct by (auto using mod_u64). cbn [bind].
  destruct (mr_while_total 65 n a (if d =? 0 then 1 else (a mod n) ^ d mod n) s)
    as [p' [i' Hw]].
  - exact Hn.
  - destruct (d =? 0); [unfold u64; rewrite two64_eq; lia | apply mod_u64; exact Hn].
  - change (Z.of_nat 65) with 65. lia.
  - rewrite Hw. cbn [bind].
    destruct (negb (p' =? sub64 n 1) && negb (i' =? s)); eauto.
Qed.

Lemma mr_for_total (n s d : Z) (ws : list Z) :
  0 < n < two64 -> u64 d -> 0 <= s < 64 ->
  exists b, mr_for n s d ws = Ok b.
Proof.
  intros Hn Hd Hs. induction ws as [| a ws IH]; simpl; [eauto |].
  destruct (mr_witness_total n s d a Hn Hd Hs) as [pass Hp].
  rewrite Hp. cbn [bind]. destruct pass; eauto.
Qed.

(** [miller_rabin] returns a verdict on every 64-bit input: no division
    by zero and no loop that runs away. *)
Lemma miller_rabin_total (n : Z) : u64 n -> exists b, miller_rabin n = Ok b.
Proof.
  intros Hn. unfold miller_rabin.
  destruct (mr_small n) eqn:Hsmall; [eauto |].
  apply mr_small_false in Hsmall.
  assert (Hn' : 0 < n < two64) by (unfold u64 in Hn; lia).
  rewrite sub64_1 by exact Hn'.
  assert (Hs : 0 <= __builtin_ctzll (n - 1) < 64) by (apply ctzll_bound; lia).
  apply mr_for_total; [exact Hn' | apply shiftr_u64; [exact Hn | lia] | exact Hs].
Qed.

(** A witness that is a multiple of [n] leaves the squaring loop at once
    with the counter untouched, and the test after the loop lets it
    through. *)
Lemma mr_witness_multiple (n s d a : Z) :
  0 < n < two64 -> u64 d -> a mod n = 0 -> mr_witness n s d a = Ok true.
Proof.
  intros Hn Hd Ha. unfold mr_witness.
  rewrite rem64_ok by lia. cbn [bind].
  rewrite modpow_correct by (auto using mod_u64). cbn [bind].
  set (p0 := if d =? 0 then 1 else (a mod n) ^ d mod n).
  assert (Hw : mr_while 65 n a p0 s = Ok (p0, s)).
  { change 65%nat with (S 64). rewrite mr_while_S.
    destruct (negb (p0 =? 1) && negb (p0 =? sub64 n 1)); [| reflexivity].
    rewrite rem64_ok by lia. cbn [bind]. rewrite Ha. reflexivity. }
  rewrite Hw. cbn [bind]. rewrite Z.eqb_refl, andb_false_r. reflexivity.
Qed.

Lemma mr_for_skip (n s d : Z) (ws : list Z) :
  0 < n < two64 -> u64 d ->
  mr_for n s d ws = mr_for n s d (filter (fun a => negb (a mod n =? 0)) ws).
Proof.
  intros Hn Hd. induction ws as [| a ws IH]; [reflexivity |].
  simpl filter. destruct (a mod n =? 0) eqn:Ea; simpl negb; cbv iota.
  - apply Z.eqb_eq in Ea. simpl mr_for.
    rewrite (mr_witness_multiple n s d a Hn Hd Ea). cbn [bind]. exact IH.
  - simpl mr_for. rewrite IH. reflexivity.
Qed.

(** ** Primes pass [miller_rabin] *)

(** Trailing zeros split a positive number into a power of two and an odd
    cofactor. *)
Lemma ctz_pos_split (p : positive) :
  Zpos p mod 2 ^ ctz_pos p = 0 /\ (Zpos p / 2 ^ ctz_pos p) mod 2 = 1.
Proof.
  induction p as [p IH | p IH | ]; cbn [ctz_pos].
  - rewrite Z.pow_0_r, Z.mod_1_r, Z.div_1_r.
    rewrite (Pos2Z.inj_xI p), Z.add_comm, (Z.mul_comm 2).
    rewrite Z.mod_add by lia. split; reflexivity.
  - destruct IH as [IH0 IH1].
    destruct (ctz_pos_bound p) as [Hc _].
    rewrite Z.pow_add_r, Z.pow_1_r by lia.
    assert (0 < 2 ^ ctz_pos p) by (apply Z.pow_pos_nonneg; lia).
    change (Z.pos p~0) with (2 * Z.pos p).
    rewrite Z.mul_mod_distr_l by lia.
    rewrite Z.div_mul_cancel_l by lia.
    split; [lia | exact IH1].
  - rewrite Z.pow_0_r. split; reflexivity.
Qed.

Lemma ctz_pos_even (p : positive) : Zpos p mod 2 = 0 -> 1 <= ctz_pos p.
Proof.
  destruct p as [p | p |]; cbn [ctz_pos]; intros H.
  - rewrite (Pos2Z.inj_xI p), Z.add_comm, (Z.mul_comm 2) in H.
    rewrite Z.mod_add in H by lia. discriminate.
  - destruct (ctz_pos_bound p). lia.
  - discriminate.
Qed.

(** For odd [n >= 3]: [n - 1 = d * 2^s] with [s >= 1], where [s] and [d]
    are computed as in [miller_rabin]. *)
Lemma mr_decompose (n : Z) :
  3 <= n < two64 -> n mod 2 = 1 ->
  let s := __builtin_ctzll (sub64 n 1) in
  let d := Z.shiftr n s in
  1 <= s < 64 /\ 1 <= d /\ n - 1 = d * 2 ^ s.
Proof.
  intros Hn Hodd s d. subst d s.
  rewrite sub64_1 by lia.
  pose proof (ctzll_bound (n - 1) ltac:(lia)) as Hs.
  destruct (n - 1) as [| p | p] eqn:Ep; try lia.
  cbn [__builtin_ctzll] in *.
  destruct (ctz_pos_split p) as [H0 H1].
  assert (Heven : Z.pos p mod 2 = 0).
  { rewrite <- Ep. replace (n - 1) with (n + (-1) * 1) by ring.
    rewrite <- Z.add_mod_idemp_l, Hodd by lia. reflexivity. }
  apply ctz_pos_even in Heven.
  set (s := ctz_pos p) in *.
  assert (Hp2 : 0 < 2 ^ s) by (apply Z.pow_pos_nonneg; lia).
  assert (H2s : 2 <= 2 ^ s).
  { change 2 with (2 ^ 1) at 1. apply Z.pow_le_mono_r; lia. }
  rewrite Z.shiftr_div_pow2 by lia.
  pose proof (Z.div_mod (Z.pos p) (2 ^ s) ltac:(lia)) as Hdm.
  rewrite H0 in Hdm.
  assert (Hq : n / 2 ^ s = Z.pos p / 2 ^ s).
  { replace n with (1 + Z.pos p) by lia.
    rewrite Hdm at 1.
    replace (1 + (2 ^ s * (Z.pos p / 2 ^ s) + 0))
      with (1 + (Z.pos p / 2 ^ s) * 2 ^ s) by ring.
    rewrite Z.div_add by lia.
    rewrite Z.div_small by lia. lia. }
  rewrite Hq.
  split; [lia |]. split; [| lia].
  assert (0 <= Z.pos p / 2 ^ s) by (apply Z.div_pos; lia).
  destruct (Z.eq_dec (Z.pos p / 2 ^ s) 0) as [E | E]; [| lia].
  rewrite E in H1. discriminate.
Qed.

(** In a prime field the only square roots of 1 are 1 and -1. *)
Lemma sqrt_one_prime (n p : Z) :
  Z.prime n -> 0 <= p < n -> (p * p) mod n = 1 -> p = 1 \/ p = n - 1.
Proof.
  intros Hpr Hp Hsq.
  pose proof (Z.prime_ge_2 n Hpr) as Hn2.
  assert (Hdiv : (n | (p - 1) * (p + 1))).
  { replace ((p - 1) * (p + 1)) with (p * p - 1) by ring.
    apply Z.mod_divide; [lia |].
    rewrite Zminus_mod, Hsq, (Z.mod_small 1) by lia. reflexivity. }
  apply (Z.divide_prime_mul _ _ _ Hpr) in Hdiv.
  destruct Hdiv as [[k Hk] | [k Hk]].
  - left. assert (k = 0) by nia. nia.
  - right. assert (k = 1) by nia. nia.
Qed.

(** The squaring loop on a prime [n]: if [p^(2^i)] is 1 modulo [n], the
    loop ends on [n - 1], or it never started because [p] was 1. *)
Lemma mr_while_prime (n a : Z) (fuel : nat) :
  Z.prime n -> n < two64 -> a mod n <> 0 ->
  forall p i,
    0 <= p < n -> 0 <= i < 64 -> i < Z.of_nat fuel ->
    p ^ (2 ^ i) mod n = 1 ->
    exists p' i',
      mr_while fuel n a p i = Ok (p', i') /\
      (p' = n - 1 \/ (p = 1 /\ i' = i)).
Proof.
  intros Hpr Hn Ha.
  pose proof (Z.prime_ge_2 n Hpr) as Hn2.
  induction fuel as [| fuel IH]; intros p i Hp Hi Hf Hpow; [lia |].
  rewrite mr_while_S, sub64_1 by lia.
  destruct (p =? 1) eqn:E1.
  { apply Z.eqb_eq in E1. exists p, i. cbn. split; [reflexivity | right; tauto]. }
  destruct (p =? n - 1) eqn:E2.
  { apply Z.eqb_eq in E2. exists p, i. cbn. split; [reflexivity | left; exact E2]. }
  apply Z.eqb_neq in E1. apply Z.eqb_neq in E2.
  cbn [negb andb]. rewrite rem64_ok by lia. cbn [bind].
  apply Z.eqb_neq in Ha. rewrite Ha. cbn [negb].
  destruct (i =? 0) eqn:Ei; cbn [negb].
  { apply Z.eqb_eq in Ei. subst i. exfalso.
    rewrite Z.pow_0_r, Z.pow_1_r, Z.mod_small in Hpow by lia. contradiction. }
  apply Z.eqb_neq in Ei.
  assert (Hpu : u64 p) by (unfold u64; lia).
  rewrite modmul_exact by (auto; lia). cbn [bind].
  rewrite sub64_1 by (rewrite two64_eq; lia).
  destruct (IH ((p * p) mod n) (i - 1)) as [p' [i' [Hrun Hres]]].
  - apply Z.mod_pos_bound. lia.
  - lia.
  - lia.
  - rewrite Z.mod_pow_l.
    replace (p * p) with (p ^ 2) by ring.
    rewrite <- Z.pow_mul_r by (try apply Z.pow_nonneg; lia).
    rewrite <- (Z.pow_succ_r 2 (i - 1)) by lia.
    replace (Z.succ (i - 1)) with i by lia. exact Hpow.
  - exists p', i'. split; [exact Hrun |].
    destruct Hres as [Hres | [Hone _]]; [left; exact Hres |].
    exfalso. destruct (sqrt_one_prime n p Hpr Hp Hone); contradiction.
Qed.

Lemma mr_witness_prime (n a : Z) :
  Z.prime n -> 3 <= n < two64 -> n mod 2 = 1 ->
  let s := __builtin_ctzll (sub64 n 1) in
  let d := Z.shiftr n s in
  mr_witness n s d a = Ok true.
Proof.
  intros Hpr Hn Hodd s d.
  destruct (mr_decompose n Hn Hodd) as [Hs [Hd Hnd]].
  fold s in Hs, Hnd. fold d in Hd, Hnd.
  assert (Hdu : u64 d).
  { unfold u64. split; [lia |].
    assert (0 < 2 ^ s) by (apply Z.pow_pos_nonneg; lia). nia. }
  destruct (Z.eq_dec (a mod n) 0) as [Ha | Ha].
  { apply mr_witness_multiple; [lia | exact Hdu | exact Ha]. }
  unfold mr_witness.
  rewrite rem64_ok by lia. cbn [bind].
  rewrite modpow_correct by (try apply mod_u64; auto; lia). cbn [bind].
  destruct (d =? 0) eqn:Ed; [apply Z.eqb_eq in Ed; lia |].
  destruct (mr_while_prime n a 65 Hpr ltac:(lia) Ha ((a mod n) ^ d mod n) s)
    as [p' [i' [Hrun Hres]]].
  - apply Z.mod_pos_bound. lia.
  - lia.
  - change (Z.of_nat 65) with 65. lia.
  - rewrite Z.mod_pow_l, <- Z.pow_mul_r by (try apply Z.pow_nonneg; lia).
    rewrite <- Hnd. apply Z.fermat_nz; [exact Hpr |].
    rewrite Z.mod_mod by lia. exact Ha.
  - rewrite Hrun. cbn [bind]. rewrite sub64_1 by lia.
    destruct Hres as [-> | [_ ->]].
    + rewrite Z.eqb_refl. reflexivity.
    + rewrite Z.eqb_refl, andb_false_r. reflexivity.
Qed.

Lemma mr_for_prime (n : Z) (ws : list Z) :
  Z.prime n -> 3 <= n < two64 -> n mod 2 = 1 ->
  let s := __builtin_ctzll (sub64 n 1) in
  let d := Z.shiftr n s in
  mr_for n s d ws = Ok true.
Proof.
  intros Hpr Hn Hodd. cbv zeta.
  induction ws as [| a ws IH]; [reflexivity |].
  cbn [mr_for].
  rewrite (mr_witness_prime n a Hpr Hn Hodd). cbn [bind]. exact IH.
Qed.

(** What the guard of [miller_rabin] lets through is coprime to 6. *)
Lemma mr_small_mod6 (n : Z) :
  0 <= n -> (mr_small n = false <-> 2 <= n /\ (n mod 6 = 1 \/ n mod 6 = 5)).
Proof.
  intros Hn. unfold mr_small.
  pose proof (Z.mod_pos_bound n 6 ltac:(lia)) as Hr.
  rewrite orb_false_iff, negb_false_iff, Z.ltb_ge, Z.eqb_eq.
  assert (Hcases : n mod 6 = 0 \/ n mod 6 = 1 \/ n mod 6 = 2 \/
                   n mod 6 = 3 \/ n mod 6 = 4 \/ n mod 6 = 5) by lia.
  destruct Hcases as [E | [E | [E | [E | [E | E]]]]]; rewrite E;
    change (0 mod 4) with 0; change (1 mod 4) with 1; change (2 mod 4) with 2;
    change (3 mod 4) with 3; change (4 mod 4) with 0; change (5 mod 4) with 1;
    lia.
Qed.

Lemma mod6_mod2 (n : Z) : n mod 2 = (n mod 6) mod 2.
Proof.
  rewrite (Z.div_mod n 6) at 1 by lia.
  replace (6 * (n / 6) + n mod 6) with (n mod 6 + (3 * (n / 6)) * 2) by ring.
  apply Z.mod_add. lia.
Qed.

Lemma mod6_mod3 (n : Z) : n mod 3 = (n mod 6) mod 3.
Proof.
  rewrite (Z.div_mod n 6) at 1 by lia.
  replace (6 * (n / 6) + n mod 6) with (n mod 6 + (2 * (n / 6)) * 3) by ring.
  apply Z.mod_add. lia.
Qed.

(** Every prime passes: [miller_rabin] has no false negative. *)
Lemma miller_rabin_prime (n : Z) :
  u64 n -> Z.prime n -> miller_rabin n = Ok true.
Proof.
  intros Hu Hpr.
  pose proof (Z.prime_ge_2 n Hpr) as Hn2.
  destruct Hpr as [H1 Hnd] eqn:Epr. clear Epr.
  unfold miller_rabin.
  destruct (mr_small n) eqn:Hsmall.
  - (* a prime with a factor 2 or 3 is 2 or 3 *)
    assert (Hn : n = 2 \/ n = 3).
    { destruct (Z_le_gt_dec n 3) as [Hle | Hgt]; [lia | exfalso].
      assert (Hnot : ~ (2 <= n /\ (n mod 6 = 1 \/ n mod 6 = 5))).
      { intros H. apply (mr_small_mod6 n ltac:(lia)) in H. congruence. }
      pose proof (Z.mod_pos_bound n 6 ltac:(lia)) as Hr.
      pose proof (mod6_mod2 n) as H2. pose proof (mod6_mod3 n) as H3.
      assert (Hc : n mod 6 = 0 \/ n mod 6 = 2 \/ n mod 6 = 3 \/ n mod 6 = 4) by lia.
      destruct Hc as [E | [E | [E | E]]]; rewrite E in H2, H3.
      + apply (Hnd 2); [lia | apply Z.mod_divide; [lia | exact H2]].
      + apply (Hnd 2); [lia | apply Z.mod_divide; [lia | exact H2]].
      + apply (Hnd 3); [lia | apply Z.mod_divide; [lia | exact H3]].
      + apply (Hnd 2); [lia | apply Z.mod_divide; [lia | exact H2]]. }
    destruct Hn as [-> | ->]; reflexivity.
  - apply (mr_small_mod6 n ltac:(lia)) in Hsmall. destruct Hsmall as [_ H6].
    assert (Hodd : n mod 2 = 1).
    { rewrite mod6_mod2. destruct H6 as [-> | ->]; reflexivity. }
    apply mr_for_prime; [split; assumption | | exact Hodd].
    unfold u64 in Hu.
    assert (n <> 2) by (intros ->; discriminate). lia.
Qed.

Lemma lor_1_even (n : Z) : n mod 2 = 0 -> Z.lor n 1 = n + 1.
Proof.
  intros Heven.
  assert (Hland : Z.land n 1 = 0) by (rewrite land_1_mod2; exact Heven).
  rewrite <- Z.lxor_lor by exact Hland.
  symmetry. apply Z.add_nocarry_lxor. exact Hland.
Qed.

(** On even inputs the verdict is "is it 2". *)
Lemma miller_rabin_even (n : Z) :
  u64 n -> n mod 2 = 0 -> miller_rabin n = Ok (n =? 2).
Proof.
  intros Hu Heven. unfold miller_rabin.
  destruct (mr_small n) eqn:Hsmall.
  - rewrite lor_1_even by exact Heven. f_equal.
    destruct (Z.eqb_spec n 2) as [-> | Hne]; [reflexivity |].
    apply Z.eqb_neq. lia.
  - unfold u64 in Hu.
    apply (mr_small_mod6 n ltac:(lia)) in Hsmall. destruct Hsmall as [_ H6].
    rewrite mod6_mod2 in Heven. destruct H6 as [E | E]; rewrite E in Heven; discriminate.
Qed.

(** ** [miller_rabin] against trial division *)

Lemma no_divisor_from_spec (k : nat) :
  forall d n,
    no_divisor_from k d n = true <->
    (forall m, d <= m < d + Z.of_nat k -> n mod m <> 0).
Proof.
  induction k as [| k IH]; intros d n.
  - simpl. split; [intros _ m Hm; lia | reflexivity].
  - cbn [no_divisor_from]. rewrite Nat2Z.inj_succ.
    destruct (n mod d =? 0) eqn:E.
    + apply Z.eqb_eq in E. split; [discriminate |].
      intros H. exfalso. apply (H d); [lia | exact E].
    + apply Z.eqb_neq in E. rewrite IH. split.
      * intros H m Hm.
        destruct (Z.eq_dec m d) as [-> | Hne]; [exact E | apply H; lia].
      * intros H m Hm. apply H. lia.
Qed.

Lemma trial_division_prime (n : Z) : trial_division n = true <-> Z.prime n.
Proof.
  unfold trial_division, Z.prime.
  rewrite andb_true_iff, Z.leb_le, no_divisor_from_spec.
  split.
  - intros [Hn Hall]. split; [lia |].
    intros m Hm Hdiv. apply (Hall m); [lia |].
    apply Z.mod_divide; [lia | exact Hdiv].
  - intros [Hn Hnd]. split; [lia |].
    intros m Hm Hmod. apply (Hnd m); [lia |].
    apply Z.mod_divide; [lia | exact Hmod].
Qed.

Lemma mr_agrees_from_spec (k : nat) :
  forall lo,
    mr_agrees_from k lo = true ->
    forall n, lo <= n < lo + Z.of_nat k -> miller_rabin n = Ok (trial_division n).
Proof.
  induction k as [| k IH]; intros lo Hall n Hn; [lia |].
  cbn [mr_agrees_from] in Hall. rewrite Nat2Z.inj_succ in Hn.
  destruct (miller_rabin lo) as [b | |] eqn:Emr; try discriminate.
  destruct (Bool.eqb b (trial_division lo)) eqn:Eb; [| discriminate].
  destruct (Z.eq_dec n lo) as [-> | Hne].
  - apply eqb_prop in Eb. rewrite Emr, Eb. reflexivity.
  - apply (IH (lo + 1) Hall). lia.
Qed.

Lemma mr_agrees_upto_3000 : mr_agrees_from 3000 0 = true.
Proof. vm_compute. reflexivity. Qed.

(** On [0, 3000) the verdict of [miller_rabin] is exactly primality. *)
Lemma miller_rabin_exact_small (n : Z) :
  0 <= n < 3000 -> (miller_rabin n = Ok true <-> Z.prime n).
Proof.
  intros Hn.
  rewrite (mr_agrees_from_spec 3000 0 mr_agrees_upto_3000 n) by
    (change (Z.of_nat 3000) with 3000; lia).
  rewrite <- trial_division_prime.
  split; [intros H; injection H as H; exact H | intros ->; reflexivity].
Qed.

(** ** [pollard] *)

Lemma modmul_range (a b n q : Z) : modmul a b n = Ok q -> 0 < n -> 0 <= q < n.
Proof.
  unfold modmul. intros H Hn.
  destruct (n =? 0); [discriminate |].
  injection H as <-. apply Z.mod_pos_bound. exact Hn.
Qed.

Lemma pollard_loop_S (fuel : nat) (n x y t prd i : Z) :
  pollard_loop (S fuel) n x y t prd i =
  if negb (t mod 40 =? 0) || (__gcd prd n =? 1) then
    xyi <- (if x =? y
            then let i' := add64 i 1 in
                 y' <- f n i' ;; Ok (i', y', i')
            else Ok (x, y, i)) ;;
    let '(x1, y1, i1) := xyi in
    q <- modmul prd (sub64 (Z.max x1 y1) (Z.min x1 y1)) n ;;
    let prd1 := if negb (q =? 0) then q else prd in
    x2 <- f n x1 ;;
    fy <- f n y1 ;;
    y2 <- f n fy ;;
    pollard_loop fuel n x2 y2 (add64 t 1) prd1 i1
  else Ok (__gcd prd n).
Proof. reflexivity. Qed.

(** The accumulator [prd] stays in [1, n); a gcd other than 1 of such a
    value with [n] is a non-trivial divisor of [n]. *)
Lemma gcd_nontrivial (prd n : Z) :
  1 <= prd < n -> __gcd prd n <> 1 ->
  (__gcd prd n | n) /\ 1 < __gcd prd n < n.
Proof.
  intros Hprd Hg. unfold __gcd in *.
  pose proof (Z.gcd_nonneg prd n) as H0.
  pose proof (Z.gcd_divide_l prd n) as Hl.
  pose proof (Z.gcd_divide_r prd n) as Hr.
  assert (Z.gcd prd n <> 0).
  { intros E. apply Z.gcd_eq_0_l in E. lia. }
  apply Z.divide_pos_le in Hl; [| lia].
  split; [exact Hr | lia].
Qed.

Lemma pollard_loop_divisor (fuel : nat) :
  forall n x y t prd i d,
    2 < n -> 1 <= prd < n ->
    pollard_loop fuel n x y t prd i = Ok d ->
    (d | n) /\ 1 < d < n.
Proof.
  induction fuel as [| fuel IH]; intros n x y t prd i d Hn Hprd H;
    [discriminate |].
  rewrite pollard_loop_S in H.
  destruct (negb (t mod 40 =? 0) || (__gcd prd n =? 1)) eqn:Hc.
  - inv_bind H as xyi Hxyi. destruct xyi as [[x1 y1] i1].
    inv_bind H as q Hq.
    inv_bind H as x2 Hx2. inv_bind H as fy Hfy. inv_bind H as y2 Hy2.
    apply IH in H; [exact H | exact Hn |].
    apply modmul_range in Hq; [| lia].
    destruct (q =? 0) eqn:Eq; simpl negb; cbv iota; [exact Hprd |].
    apply Z.eqb_neq in Eq. lia.
  - injection H as <-.
    apply orb_false_elim in Hc. destruct Hc as [_ Hg].
    apply Z.eqb_neq in Hg.
    apply gcd_nontrivial; assumption.
Qed.

Lemma pollard_divisor (fuel : nat) (n d : Z) :
  2 < n -> pollard fuel n = Ok d -> (d | n) /\ 1 < d < n.
Proof.
  intros Hn H. unfold pollard in H.
  apply pollard_loop_divisor in H; [exact H | exact Hn | lia].
Qed.

(** More fuel never changes an answer already obtained. *)
Lemma pollard_loop_mono (fuel : nat) :
  forall fuel' n x y t prd i d,
    (fuel <= fuel')%nat ->
    pollard_loop fuel n x y t prd i = Ok d ->
    pollard_loop fuel' n x y t prd i = Ok d.
Proof.
  induction fuel as [| fuel IH]; intros fuel' n x y t prd i d Hle H;
    [discriminate |].
  destruct fuel' as [| fuel']; [lia |].
  rewrite pollard_loop_S in *.
  destruct (negb (t mod 40 =? 0) || (__gcd prd n =? 1)); [| exact H].
  inv_bind H as xyi Hxyi. rewrite Hxyi. cbn [bind].
  destruct xyi as [[x1 y1] i1].
  inv_bind H as q Hq. rewrite Hq. cbn [bind].
  inv_bind H as x2 Hx2. rewrite Hx2. cbn [bind].
  inv_bind H as fy Hfy. rewrite Hfy. cbn [bind].
  inv_bind H as y2 Hy2. rewrite Hy2. cbn [bind].
  apply IH; [lia | exact H].
Qed.

Lemma pollard_mono (fuel fuel' : nat) (n d : Z) :
  (fuel <= fuel')%nat -> pollard fuel n = Ok d -> pollard fuel' n = Ok d.
Proof. unfold pollard. apply pollard_loop_mono. Qed.

Lemma pollard_zero (fuel : nat) : pollard (S fuel) 0 = DivByZero.
Proof. reflexivity. Qed.

(** ** [factor] *)

Lemma factor_S (fuel : nat) (n : Z) :
  factor (S fuel) n =
  if n =? 1 then Ok []
  else
    b <- miller_rabin n ;;
    if b then Ok [n]
    else
      x <- pollard fuel n ;;
      l <- factor fuel x ;;
      nx <- div64 n x ;;
      r <- factor fuel nx ;;
      Ok (l ++ r).
Proof. reflexivity. Qed.

Lemma factor_calls_S (fuel : nat) (n : Z) :
  factor_calls (S fuel) n =
  if n =? 1 then Ok (Base n)
  else
    b <- miller_rabin n ;;
    if b then Ok (Base n)
    else
      x <- pollard fuel n ;;
      l <- factor_calls fuel x ;;
      nx <- div64 n x ;;
      r <- factor_calls fuel nx ;;
      Ok (Split n l r).
Proof. reflexivity. Qed.

Lemma miller_rabin_2 : miller_rabin 2 = Ok true.
Proof. reflexivity. Qed.

Lemma miller_rabin_3 : miller_rabin 3 = Ok true.
Proof. reflexivity. Qed.

Lemma miller_rabin_0 : miller_rabin 0 = Ok false.
Proof. reflexivity. Qed.

(** A value that [factor] hands to [pollard] is at least 4. *)
Lemma split_arg_large (n : Z) :
  1 <= n -> n <> 1 -> miller_rabin n = Ok false -> 3 < n.
Proof.
  intros Hn H1 Hmr.
  destruct (Z_lt_ge_dec 3 n) as [Hlt | Hge]; [exact Hlt | exfalso].
  assert (n = 2 \/ n = 3) as [-> | ->] by lia.
  - rewrite miller_rabin_2 in Hmr. discriminate.
  - rewrite miller_rabin_3 in Hmr. discriminate.
Qed.

Lemma div64_ok (n x : Z) : x <> 0 -> div64 n x = Ok (n / x).
Proof. intros Hx. unfold div64. apply Z.eqb_neq in Hx. rewrite Hx. reflexivity. Qed.

Lemma div64_Ok_inv (n x q : Z) : div64 n x = Ok q -> x <> 0 /\ q = n / x.
Proof.
  unfold div64. destruct (x =? 0) eqn:E; [discriminate |].
  apply Z.eqb_neq in E. intros H. injection H as <-. split; [exact E | reflexivity].
Qed.

(** The cofactor of a non-trivial divisor is a non-trivial divisor. *)
Lemma cofactor_nontrivial (n x : Z) :
  (x | n) -> 1 < x < n ->
  n = x * (n / x) /\ (n / x | n) /\ 1 < n / x < n.
Proof.
  intros [k Hk] Hx. subst n.
  rewrite Z.div_mul by lia.
  assert (1 < k) by nia.
  split; [ring |]. split; [exists x; ring | nia].
Qed.

Lemma product_app (l r : list Z) : product (l ++ r) = product l * product r.
Proof.
  unfold product. induction l as [| a l IH]; simpl.
  - destruct (fold_right Z.mul 1 r); reflexivity.
  - rewrite IH. ring.
Qed.

Lemma factor_sound (fuel : nat) :
  forall n l,
    1 <= n -> factor fuel n = Ok l ->
    product l = n /\ Forall is_probable_prime l /\ (l = [] <-> n = 1).
Proof.
  induction fuel as [| fuel IH]; intros n l Hn H; [discriminate |].
  rewrite factor_S in H.
  destruct (n =? 1) eqn:E1.
  - apply Z.eqb_eq in E1. injection H as <-.
    split; [symmetry; exact E1 |]. split; [constructor | tauto].
  - apply Z.eqb_neq in E1.
    inv_bind H as b Hb. destruct b.
    + injection H as <-.
      split; [unfold product; simpl; lia |].
      split; [repeat constructor; exact Hb |].
      split; [discriminate | intros; contradiction].
    + pose proof (split_arg_large n Hn E1 Hb) as H3.
      inv_bind H as x Hx. inv_bind H as l1 Hl1.
      inv_bind H as nx Hnx. inv_bind H as l2 Hl2.
      injection H as <-.
      apply pollard_divisor in Hx; [| lia]. destruct Hx as [Hdiv Hrange].
      apply div64_Ok_inv in Hnx. destruct Hnx as [_ ->].
      destruct (cofactor_nontrivial n x Hdiv Hrange) as [Hmul [_ Hco]].
      apply IH in Hl1; [| lia]. destruct Hl1 as [Hp1 [Hf1 He1]].
      apply IH in Hl2; [| lia]. destruct Hl2 as [Hp2 [Hf2 He2]].
      split; [rewrite product_app, Hp1, Hp2; symmetry; exact Hmul |].
      split; [apply Forall_app; split; assumption |].
      split; [| intros; contradiction].
      intros Happ. apply app_eq_nil in Happ. destruct Happ as [Hnil _].
      apply He1 in Hnil. lia.
Qed.

Lemma factor_mono (fuel : nat) :
  forall fuel' n l,
    (fuel <= fuel')%nat -> factor fuel n = Ok l -> factor fuel' n = Ok l.
Proof.
  induction fuel as [| fuel IH]; intros fuel' n l Hle H; [discriminate |].
  destruct fuel' as [| fuel']; [lia |].
  rewrite factor_S in *.
  destruct (n =? 1); [exact H |].
  inv_bind H as b Hb. rewrite Hb. cbn [bind].
  destruct b; [exact H |].
  inv_bind H as x Hx.
  rewrite (pollard_mono fuel fuel' n x ltac:(lia) Hx). cbn [bind].
  inv_bind H as l1 Hl1. rewrite (IH fuel' x l1 ltac:(lia) Hl1). cbn [bind].
  inv_bind H as nx Hnx. rewrite Hnx. cbn [bind].
  inv_bind H as l2 Hl2. rewrite (IH fuel' nx l2 ltac:(lia) Hl2). cbn [bind].
  exact H.
Qed.

Lemma factor_deterministic (fuel1 fuel2 : nat) (n : Z) (l1 l2 : list Z) :
  factor fuel1 n = Ok l1 -> factor fuel2 n = Ok l2 -> l1 = l2.
Proof.
  intros H1 H2.
  apply (factor_mono fuel1 (Nat.max fuel1 fuel2)) in H1; [| lia].
  apply (factor_mono fuel2 (Nat.max fuel1 fuel2)) in H2; [| lia].
  rewrite H1 in H2. injection H2 as ->. reflexivity.
Qed.

Lemma factor_leaves (fuel : nat) :
  forall n, factor fuel n = (t <- factor_calls fuel n ;; Ok (leaves t)).
Proof.
  induction fuel as [| fuel IH]; intros n; [reflexivity |].
  rewrite factor_S, factor_calls_S.
  destruct (n =? 1) eqn:E1; [cbn [bind leaves]; rewrite E1; reflexivity |].
  destruct (miller_rabin n) as [[|] | |]; cbn [bind leaves];
    [rewrite E1; reflexivity | | reflexivity | reflexivity].
  destruct (pollard fuel n) as [x | |]; cbn [bind]; [| reflexivity | reflexivity].
  rewrite IH.
  destruct (factor_calls fuel x) as [tl | |]; cbn [bind]; [| reflexivity | reflexivity].
  destruct (div64 n x) as [nx | |]; cbn [bind]; [| reflexivity | reflexivity].
  rewrite IH.
  destruct (factor_calls fuel nx) as [tr | |]; cbn [bind leaves]; reflexivity.
Qed.

Lemma pow2_max (a b : nat) (x : Z) :
  2 ^ Z.of_nat a <= x -> 2 ^ Z.of_nat b <= x -> 2 ^ Z.of_nat (Nat.max a b) <= x.
Proof.
  intros Ha Hb. destruct (Nat.max_spec a b) as [[_ ->] | [_ ->]]; assumption.
Qed.

Lemma factor_calls_sound (fuel : nat) :
  forall n t,
    1 <= n -> factor_calls fuel n = Ok t ->
    arg t = n /\ proper_calls t /\ 2 ^ Z.of_nat (depth t) <= n.
Proof.
  induction fuel as [| fuel IH]; intros n t Hn H; [discriminate |].
  rewrite factor_calls_S in H.
  destruct (n =? 1) eqn:E1.
  - injection H as <-. simpl. repeat split; trivial; lia.
  - apply Z.eqb_neq in E1.
    inv_bind H as b Hb. destruct b.
    + injection H as <-. simpl. repeat split; trivial; lia.
    + pose proof (split_arg_large n Hn E1 Hb) as H3.
      inv_bind H as x Hx. inv_bind H as tl Htl.
      inv_bind H as nx Hnx. inv_bind H as tr Htr.
      injection H as <-.
      apply pollard_divisor in Hx; [| lia]. destruct Hx as [Hdiv Hrange].
      apply div64_Ok_inv in Hnx. destruct Hnx as [_ ->].
      destruct (cofactor_nontrivial n x Hdiv Hrange) as [Hmul [Hcodiv Hco]].
      apply IH in Htl; [| lia]. destruct Htl as [Hal [Hpl Hdl]].
      apply IH in Htr; [| lia]. destruct Htr as [Har [Hpr Hdr]].
      split; [reflexivity |].
      split.
      * cbn [proper_calls]. unfold proper_child. rewrite Hal, Har.
        repeat split; trivial; lia.
      * cbn [depth]. rewrite Nat2Z.inj_succ, Z.pow_succ_r by lia.
        assert (2 ^ Z.of_nat (Nat.max (depth tl) (depth tr)) <= n / 2).
        { apply pow2_max.
          - apply Z.div_le_lower_bound; [lia |]. nia.
          - apply Z.div_le_lower_bound; [lia |]. nia. }
        pose proof (Z.mul_div_le n 2 ltac:(lia)). lia.
Qed.

Lemma pow2_depth_bound (k : nat) (n : Z) :
  2 ^ Z.of_nat k <= n -> n < two64 -> (k <= 63)%nat.
Proof.
  intros Hk Hn.
  destruct (le_lt_dec k 63) as [Hle | Hgt]; [exact Hle | exfalso].
  assert (two64 <= 2 ^ Z.of_nat k) by (apply Z.pow_le_mono_r; lia).
  lia.
Qed.

Lemma factor_returns_upto_2000 : factor_returns_upto 100 2000 = true.
Proof. vm_compute. reflexivity. Qed.

Lemma factor_returns_upto_spec (fuel upto : nat) :
  factor_returns_upto fuel upto = true ->
  forall n, 1 <= n <= Z.of_nat upto -> exists l, factor fuel n = Ok l.
Proof.
  unfold factor_returns_upto. intros Hall n Hn.
  rewrite forallb_forall in Hall.
  apply is_ok_Ok.
  rewrite <- (Z2Nat.id n) by lia.
  apply Hall. apply in_seq. lia.
Qed.

(** [factor] does return on every input from 1 to 2000; 100 rounds of
    fuel are enough there. *)
Lemma factor_returns_small (n : Z) :
  1 <= n <= 2000 -> exists l, factor 100 n = Ok l.
Proof.
  intros Hn.
  apply (factor_returns_upto_spec 100 2000 factor_returns_upto_2000).
  change (Z.of_nat 2000) with 2000. exact Hn.
Qed.

(** ** Vectors and [ll] arithmetic *)

Lemma and_then_Done {T U : Type} (r : outcome T) (k : T -> outcome U) (y : U) :
  and_then r k = Done y -> exists x, r = Done x /\ k x = Done y.
Proof.
  destruct r as [x | |]; simpl; intros H; try discriminate.
  exists x. split; [reflexivity | exact H].
Qed.

Lemma ll_Done (x : Z) : ll_min <= x <= ll_max -> ll x = Done x.
Proof.
  intros Hx. unfold ll.
  destruct (Z.leb_spec ll_min x); [| lia].
  destruct (Z.leb_spec x ll_max); [reflexivity | lia].
Qed.

Lemma ll_bounds : ll_min = -9223372036854775808 /\ ll_max = 9223372036854775807.
Proof. split; reflexivity. Qed.

Lemma set_nth_length {T : Type} (n : nat) (x : T) (v : list T) :
  length (set_nth n x v) = length v.
Proof.
  revert n. induction v as [| y v IH]; intros [| n]; simpl; try reflexivity.
  rewrite IH. reflexivity.
Qed.

Lemma set_nth_nth {T : Type} (n m : nat) (x d : T) (v : list T) :
  (n < length v)%nat ->
  nth m (set_nth n x v) d = if Nat.eqb m n then x else nth m v d.
Proof.
  revert n m. induction v as [| y v IH]; intros n m Hn; simpl in Hn; [lia |].
  destruct n as [| n]; destruct m as [| m]; simpl; try reflexivity.
  apply IH. lia.
Qed.

Lemma vset_Done {T : Type} (v : list T) (j : Z) (x : T) :
  0 <= j < Z.of_nat (length v) -> vset v j x = Done (set_nth (Z.to_nat j) x v).
Proof.
  intros Hj. unfold vset.
  destruct (Z.leb_spec 0 j); [| lia].
  destruct (Z.ltb_spec j (Z.of_nat (length v))); [reflexivity | lia].
Qed.

Lemma vget_Done {T : Type} (v : list T) (j : Z) (d : T) :
  0 <= j < Z.of_nat (length v) -> vget v j = Done (nth (Z.to_nat j) v d).
Proof.
  intros Hj. unfold vget.
  destruct (Z.leb_spec 0 j); [| lia].
  destruct (Z.ltb_spec j (Z.of_nat (length v))); [| lia].
  cbn [andb].
  destruct (nth_error v (Z.to_nat j)) as [y |] eqn:E.
  - rewrite (nth_error_nth _ _ d E). reflexivity.
  - apply nth_error_None in E. lia.
Qed.

Lemma vget_Fault {T : Type} (v : list T) (j : Z) :
  ~ (0 <= j < Z.of_nat (length v)) -> vget v j = Fault.
Proof.
  intros Hj. unfold vget.
  destruct (Z.leb_spec 0 j); [| reflexivity].
  destruct (Z.ltb_spec j (Z.of_nat (length v))); [lia | reflexivity].
Qed.

Lemma vset_Fault {T : Type} (v : list T) (j : Z) (x : T) :
  ~ (0 <= j < Z.of_nat (length v)) -> vset v j x = Fault.
Proof.
  intros Hj. unfold vset.
  destruct (Z.leb_spec 0 j); [| reflexivity].
  destruct (Z.ltb_spec j (Z.of_nat (length v))); [lia | reflexivity].
Qed.

Lemma bit_set_nth (v : list bool) (j k : Z) (x : bool) :
  0 <= j < Z.of_nat (length v) -> 0 <= k ->
  bit (set_nth (Z.to_nat j) x v) k = if k =? j then x else bit v k.
Proof.
  intros Hj Hk. unfold bit. rewrite set_nth_nth by lia.
  destruct (Z.eqb_spec k j) as [-> | Hne].
  - rewrite Nat.eqb_refl. reflexivity.
  - destruct (Nat.eqb_spec (Z.to_nat k) (Z.to_nat j)) as [E | _]; [| reflexivity].
    apply Z2Nat.inj in E; lia.
Qed.

Lemma bit_repeat (n k : Z) : 0 <= k < n -> bit (repeat true (Z.to_nat n)) k = true.
Proof.
  intros Hk. unfold bit. apply nth_repeat_lt. lia.
Qed.

(** ** Trial division, continued *)

Lemma no_divisor_from_false (k : nat) :
  forall d n,
    no_divisor_from k d n = false ->
    exists m, d <= m < d + Z.of_nat k /\ n mod m = 0.
Proof.
  induction k as [| k IH]; intros d n H; [discriminate |].
  cbn [no_divisor_from] in H. rewrite Nat2Z.inj_succ.
  destruct (n mod d =? 0) eqn:E.
  - apply Z.eqb_eq in E. exists d. split; [lia | exact E].
  - apply IH in H. destruct H as [m [Hm Hmod]]. exists m. split; [lia | exact Hmod].
Qed.

Lemma not_prime_divisor (n : Z) :
  2 <= n -> ~ Z.prime n -> exists m, 1 < m < n /\ (m | n).
Proof.
  intros Hn Hnp.
  destruct (trial_division n) eqn:E.
  - apply trial_division_prime in E. contradiction.
  - unfold trial_division in E.
    destruct (Z.leb_spec 2 n); [| lia]. cbn [andb] in E.
    apply no_divisor_from_false in E. destruct E as [m [Hm Hmod]].
    exists m. split; [lia |]. apply Z.mod_divide; [lia | exact Hmod].
Qed.

(** A proper divisor comes with one whose square is at most [k]. *)
Lemma small_divisor (n k : Z) :
  1 < n < k -> (n | k) -> exists d, 2 <= d /\ d * d <= k /\ (d | k).
Proof.
  intros Hn [m Hm]. subst k.
  assert (1 < m) by nia.
  destruct (Z_le_gt_dec n m) as [Hle | Hgt].
  - exists n. split; [lia |]. split; [nia | exists m; reflexivity].
  - exists m. split; [lia |]. split; [nia | exists n; ring].
Qed.

(** ** [sieve] *)

Lemma unmarked_prime (i k : Z) : k <= i -> (unmarked i k <-> Z.prime k).
Proof.
  intros Hk. unfold unmarked, Z.prime. split.
  - intros [H2 Hd]. split; [lia |].
    intros n Hn Hdiv.
    destruct (small_divisor n k Hn Hdiv) as [d [Hd2 [Hsq Hdk]]].
    assert (d < i) by nia.
    specialize (Hd d ltac:(lia) Hdk). lia.
  - intros [H1 Hnd]. split; [lia |].
    intros d Hd Hdiv.
    destruct (Z_lt_ge_dec d k) as [Hlt | Hge].
    + exfalso. apply (Hnd d); [lia | exact Hdiv].
    + apply Z.divide_pos_le in Hdiv; [| lia]. nia.
Qed.

(** Crossing out the multiples of a prime [i] from [i * i] on. *)
Lemma unmarked_succ_prime (i k : Z) :
  2 <= i ->
  (unmarked (i + 1) k <-> unmarked i k /\ ~ (i * i <= k /\ (i | k))).
Proof.
  intros Hi. unfold unmarked. split.
  - intros [H2 Hd]. split.
    + split; [exact H2 |]. intros d Hdi. apply Hd. lia.
    + intros [Hsq Hdiv]. specialize (Hd i ltac:(lia) Hdiv). lia.
  - intros [[H2 Hd] Hnot]. split; [exact H2 |].
    intros d Hdi Hdiv.
    destruct (Z.eq_dec d i) as [-> | Hne]; [| apply Hd; [lia | exact Hdiv]].
    destruct (Z_lt_ge_dec k (i * i)) as [Hlt | Hge]; [exact Hlt |].
    exfalso. apply Hnot. split; [lia | exact Hdiv].
Qed.

(** A composite [i] crosses out nothing new: its multiples went with a
    smaller divisor. *)
Lemma unmarked_succ_composite (i k : Z) :
  2 <= i -> ~ unmarked i i -> (unmarked (i + 1) k <-> unmarked i k).
Proof.
  intros Hi Hnot.
  assert (Hnp : ~ Z.prime i).
  { intros Hp. apply Hnot. apply unmarked_prime; [lia | exact Hp]. }
  destruct (not_prime_divisor i Hi Hnp) as [n [Hn Hdiv]].
  destruct (small_divisor n i Hn Hdiv) as [d [Hd2 [Hsq Hdi]]].
  unfold unmarked. split.
  - intros [H2 Hd]. split; [exact H2 |]. intros e He. apply Hd. lia.
  - intros [H2 Hd]. split; [exact H2 |].
    intros e He Hek.
    destruct (Z.eq_dec e i) as [-> | Hne]; [| apply Hd; [lia | exact Hek]].
    assert (Hdk : (d | k)) by (apply (Z.divide_trans d i k); assumption).
    assert (d < i) by nia.
    specialize (Hd d ltac:(lia) Hdk).
    destruct (Z_lt_ge_dec k (i * i)) as [Hlt | Hge]; [exact Hlt |].
    apply Z.divide_pos_le in Hek; [| lia]. nia.
Qed.

Lemma sieve_cross_spec (fuel : nat) :
  forall N i j v,
    0 < i -> 0 <= j -> N < Z.of_nat (length v) -> N + i <= ll_max ->
    N + 1 - j <= Z.of_nat fuel ->
    exists v',
      sieve_cross fuel N i j v = Done v' /\
      length v' = length v /\
      forall k, 0 <= k ->
        (bit v' k = true <-> bit v k = true /\ ~ (j <= k <= N /\ (i | k - j))).
Proof.
  induction fuel as [| fuel IH]; intros N i j v Hi Hj HN Hmax Hfuel.
  - simpl. destruct (Z.leb_spec j N); [lia |].
    exists v. split; [reflexivity |]. split; [reflexivity |].
    intros k Hk. split; [intros H'; split; [exact H' | lia] | tauto].
  - cbn [sieve_cross].
    destruct (Z.leb_spec j N) as [HjN | HjN].
    + rewrite vset_Done by lia. cbn [and_then].
      destruct ll_bounds as [Emin Emax].
      rewrite ll_Done by lia. cbn [and_then].
      destruct (IH N i (j + i) (set_nth (Z.to_nat j) false v)) as [v' [Hrun [Hlen Hbits]]];
        try rewrite set_nth_length; try lia.
      exists v'. split; [exact Hrun |]. split; [rewrite Hlen; apply set_nth_length |].
      intros k Hk. rewrite (Hbits k Hk), bit_set_nth by lia.
      destruct (Z.eqb_spec k j) as [-> | Hne].
      * split; [intros [H' _]; discriminate |].
        intros [_ Hnot]. exfalso. apply Hnot. split; [lia |].
        exists 0. lia.
      * assert (Hshift : (i | k - (j + i)) <-> (i | k - j)).
        { split; intros [q Hq]; [exists (q + 1) | exists (q - 1)]; lia. }
        split.
        -- intros [Hb Hnot]. split; [exact Hb |].
           intros [Hrange Hdiv]. apply Hnot.
           split; [| apply Hshift; exact Hdiv].
           destruct Hdiv as [q Hq]. assert (1 <= q) by nia. nia.
        -- intros [Hb Hnot]. split; [exact Hb |].
           intros [Hrange Hdiv]. apply Hnot.
           split; [lia | apply Hshift; exact Hdiv].
    + exists v. split; [reflexivity |]. split; [reflexivity |].
      intros k Hk. split; [intros H'; split; [exact H' | lia] | tauto].
Qed.

Lemma zseq_succ (lo : Z) (n : nat) : zseq lo (S n) = lo :: zseq (lo + 1) n.
Proof. reflexivity. Qed.

Lemma sieve_loop_spec (fuel : nat) :
  forall N i ps v,
    2 <= i <= N + 1 -> N <= 3037000499 ->
    Z.of_nat (length v) = N + 1 ->
    N + 1 - i <= Z.of_nat fuel ->
    (forall k, 0 <= k <= N -> (bit v k = true <-> unmarked i k)) ->
    exists v',
      sieve_loop fuel N i ps v
      = Done (ps ++ filter trial_division (zseq i (Z.to_nat (N + 1 - i))), v') /\
      Z.of_nat (length v') = N + 1 /\
      (forall k, 0 <= k <= N -> (bit v' k = true <-> unmarked (N + 1) k)).
Proof.
  induction fuel as [| fuel IH]; intros N i ps v Hi HN Hlen Hfuel Hinv.
  - assert (i = N + 1) as -> by lia.
    simpl. destruct (Z.leb_spec (N + 1) N); [lia |].
    replace (N + 1 - (N + 1)) with 0 by lia. simpl. rewrite app_nil_r.
    exists v. split; [reflexivity |]. split; assumption.
  - cbn [sieve_loop].
    destruct (Z.leb_spec i N) as [HiN | HiN].
    2:{ assert (i = N + 1) as -> by lia.
        replace (N + 1 - (N + 1)) with 0 by lia. simpl. rewrite app_nil_r.
        exists v. split; [reflexivity |]. split; assumption. }
    destruct ll_bounds as [Emin Emax].
    rewrite (vget_Done v i false) by lia. cbn [and_then].
    fold (bit v i).
    replace (Z.to_nat (N + 1 - i)) with (S (Z.to_nat (N + 1 - (i + 1)))) by lia.
    rewrite zseq_succ. cbn [filter].
    pose proof (Hinv i ltac:(lia)) as Hbi.
    pose proof (unmarked_prime i i ltac:(lia)) as Hup.
    pose proof (trial_division_prime i) as Htd.
    destruct (bit v i) eqn:Eb.
    + assert (Ht : trial_division i = true) by tauto.
      rewrite Ht.
      rewrite ll_Done by nia. cbn [and_then].
      destruct (sieve_cross_spec (Z.to_nat N) N i (i * i) v) as [v1 [Hrun [Hl1 Hb1]]];
        try nia.
      rewrite Hrun. cbn [and_then fst snd].
      rewrite ll_Done by lia. cbn [and_then].
      destruct (IH N (i + 1) (ps ++ [i]) v1) as [v' [Hrun' [Hl' Hinv']]];
        try lia.
      * intros k Hk. rewrite (Hb1 k) by lia.
        rewrite unmarked_succ_prime by lia.
        rewrite (Hinv k Hk).
        assert (Hd : (i | k - i * i) <-> (i | k)).
        { split; intros [q Hq]; [exists (q + i) | exists (q - i)]; lia. }
        rewrite Hd. intuition lia.
      * exists v'. rewrite Hrun', <- app_assoc. cbn [app].
        split; [reflexivity |]. split; assumption.
    + assert (Ht : trial_division i = false).
      { destruct (trial_division i); [| reflexivity].
        assert (false = true) by tauto. discriminate. }
      rewrite Ht. cbn [and_then fst snd].
      rewrite ll_Done by lia. cbn [and_then].
      destruct (IH N (i + 1) ps v) as [v' [Hrun' [Hl' Hinv']]]; try lia.
      * intros k Hk. rewrite (Hinv k Hk).
        symmetry. apply unmarked_succ_composite; [lia |].
        intros Hu. apply Hbi in Hu. discriminate.
      * exists v'. rewrite Hrun'. split; [reflexivity |]. split; assumption.
Qed.

Lemma sieve_correct (N : Z) (g : globals) :
  1 <= N <= 3037000499 ->
  exists v,
    sieve N g = Done {| primes := primes_upto N; spf := spf g; is_prime := v |} /\
    Z.of_nat (length v) = N + 1 /\
    (forall k, 0 <= k <= N -> (bit v k = true <-> Z.prime k)).
Proof.
  intros HN. unfold sieve.
  destruct ll_bounds as [Emin Emax].
  rewrite ll_Done by lia. cbn [and_then].
  unfold vnew. destruct (Z.ltb_spec (N + 1) 0); [lia |]. cbn [and_then].
  set (v0 := repeat true (Z.to_nat (N + 1))).
  assert (Hl0 : Z.of_nat (length v0) = N + 1).
  { unfold v0. rewrite repeat_length. lia. }
  rewrite vset_Done by lia. cbn [and_then].
  rewrite vset_Done by (rewrite set_nth_length; lia). cbn [and_then].
  set (v2 := set_nth (Z.to_nat 0) false (set_nth (Z.to_nat 1) false v0)).
  destruct (sieve_loop_spec (Z.to_nat N) N 2 [] v2) as [v' [Hrun [Hl' Hinv']]];
    try lia.
  - unfold v2. rewrite !set_nth_length. exact Hl0.
  - intros k Hk. unfold v2.
    rewrite bit_set_nth by (try rewrite set_nth_length; lia).
    rewrite bit_set_nth by lia.
    unfold unmarked.
    destruct (Z.eqb_spec k 0); [split; [discriminate | lia] |].
    destruct (Z.eqb_spec k 1); [split; [discriminate | lia] |].
    unfold v0. rewrite bit_repeat by lia.
    split; [intros _; split; [lia | intros d Hd; lia] | reflexivity].
  - rewrite Hrun. cbn [and_then fst snd app].
    replace (N + 1 - 2) with (N - 1) by lia.
    exists v'. split; [reflexivity |]. split; [exact Hl' |].
    intros k Hk. rewrite (Hinv' k Hk). apply unmarked_prime. lia.
Qed.

Lemma zseq_In (n : nat) : forall lo k, In k (zseq lo n) <-> lo <= k < lo + Z.of_nat n.
Proof.
  induction n as [| n IH]; intros lo k.
  - simpl. lia.
  - rewrite zseq_succ, Nat2Z.inj_succ. cbn [In]. rewrite IH. lia.
Qed.

Lemma zseq_sorted (n : nat) : forall lo, StronglySorted Z.lt (zseq lo n).
Proof.
  induction n as [| n IH]; intros lo; [constructor |].
  rewrite zseq_succ. constructor; [apply IH |].
  apply Forall_forall. intros k Hk. apply zseq_In in Hk. lia.
Qed.

Lemma filter_sorted {T : Type} (R : T -> T -> Prop) (p : T -> bool) (l : list T) :
  StronglySorted R l -> StronglySorted R (filter p l).
Proof.
  induction 1 as [| a l Hs IH Hall]; simpl; [constructor |].
  destruct (p a); [| exact IH].
  constructor; [exact IH |].
  rewrite Forall_forall in *. intros x Hx. apply filter_In in Hx. apply Hall, Hx.
Qed.

Lemma primes_upto_In (N p : Z) : In p (primes_upto N) <-> Z.prime p /\ p <= N.
Proof.
  unfold primes_upto. rewrite filter_In, zseq_In, trial_division_prime.
  split.
  - intros [Hr Hp]. split; [exact Hp | lia].
  - intros [Hp Hle]. pose proof (Z.prime_ge_2 p Hp). split; [lia | exact Hp].
Qed.

Lemma primes_upto_sorted (N : Z) : StronglySorted Z.lt (primes_upto N).
Proof. unfold primes_upto. apply filter_sorted, zseq_sorted. Qed.

(** Below 1 the write to [is_prime[1]] (or the allocation) has no
    defined result. *)
Lemma sieve_small_fault (N : Z) (g : globals) : N < 1 -> sieve N g = Fault.
Proof.
  intros HN. unfold sieve, ll.
  destruct ((ll_min <=? N + 1) && (N + 1 <=? ll_max)); [| reflexivity].
  cbn [and_then]. unfold vnew.
  destruct (Z.ltb_spec (N + 1) 0); [reflexivity |]. cbn [and_then].
  rewrite vset_Fault; [reflexivity |].
  rewrite repeat_length. lia.
Qed.

(** ** Least prime factors *)

Lemma lpf_from_spec (k : nat) :
  forall d n,
    2 <= d -> d + Z.of_nat k = n ->
    (forall e, 2 <= e < d -> ~ (e | n)) ->
    d <= lpf_from k d n <= n /\ (lpf_from k d n | n) /\
    (forall e, 2 <= e < lpf_from k d n -> ~ (e | n)).
Proof.
  induction k as [| k IH]; intros d n Hd Hn Hnone.
  - simpl. assert (d = n) as -> by lia.
    split; [lia |]. split; [apply Z.divide_refl | exact Hnone].
  - cbn [lpf_from]. rewrite Nat2Z.inj_succ in Hn.
    destruct (n mod d =? 0) eqn:E.
    + apply Z.eqb_eq in E. split; [lia |].
      split; [apply Z.mod_divide; [lia | exact E] | exact Hnone].
    + apply Z.eqb_neq in E.
      destruct (IH (d + 1) n) as [Hr [Hdiv Hmin]]; try lia.
      * intros e He Hediv.
        destruct (Z.eq_dec e d) as [-> | Hne]; [| apply (Hnone e); [lia | exact Hediv]].
        apply E. apply Z.mod_divide; [lia | exact Hediv].
      * split; [lia |]. split; assumption.
Qed.

Lemma lpf_spec (n : Z) :
  2 <= n ->
  2 <= lpf n <= n /\ (lpf n | n) /\ (forall e, 2 <= e -> (e | n) -> lpf n <= e).
Proof.
  intros Hn. unfold lpf.
  destruct (lpf_from_spec (Z.to_nat (n - 2)) 2 n) as [Hr [Hdiv Hmin]]; try lia.
  split; [exact Hr |]. split; [exact Hdiv |].
  intros e He Hediv.
  destruct (Z_le_gt_dec (lpf_from (Z.to_nat (n - 2)) 2 n) e) as [Hle | Hgt];
    [exact Hle | exfalso].
  apply (Hmin e); [lia | exact Hediv].
Qed.

Lemma lpf_prime (n : Z) : 2 <= n -> Z.prime (lpf n).
Proof.
  intros Hn. destruct (lpf_spec n Hn) as [Hr [Hdiv Hmin]].
  split; [lia |].
  intros m Hm Hmdiv.
  assert (Hmn : (m | n)) by (apply (Z.divide_trans m (lpf n) n); assumption).
  specialize (Hmin m ltac:(lia) Hmn). lia.
Qed.

Lemma lpf_unique (n p : Z) :
  2 <= p -> (p | n) -> 2 <= n ->
  (forall e, 2 <= e < p -> ~ (e | n)) -> lpf n = p.
Proof.
  intros Hp Hdiv Hn Hnone.
  destruct (lpf_spec n Hn) as [Hr [Hldiv Hmin]].
  specialize (Hmin p Hp Hdiv).
  destruct (Z.eq_dec (lpf n) p) as [E | Hne]; [exact E | exfalso].
  apply (Hnone (lpf n)); [lia | exact Hldiv].
Qed.

Lemma lpf_self_prime (n : Z) : 2 <= n -> (lpf n = n <-> Z.prime n).
Proof.
  intros Hn. split.
  - intros E. rewrite <- E. apply lpf_prime. exact Hn.
  - intros [_ Hnd]. apply lpf_unique; [lia | apply Z.divide_refl | exact Hn |].
    intros e He. apply Hnd. lia.
Qed.

Lemma prime_divisor_eq (p q : Z) : Z.prime p -> 2 <= q -> (q | p) -> q = p.
Proof.
  intros [Hp Hnd] Hq Hdiv.
  assert (q <= p) by (apply Z.divide_pos_le; [lia | exact Hdiv]).
  destruct (Z.eq_dec q p) as [E | Hne]; [exact E | exfalso].
  apply (Hnd q); [lia | exact Hdiv].
Qed.

(** Multiplying [i] by a prime no larger than its least prime factor
    makes that prime the least prime factor of the product. *)
Lemma lpf_mul (i p : Z) :
  2 <= i -> Z.prime p -> p <= lpf i -> lpf (i * p) = p.
Proof.
  intros Hi Hp Hle.
  pose proof (Z.prime_ge_2 p Hp) as Hp2.
  apply lpf_unique; [exact Hp2 | exists i; reflexivity | nia |].
  intros e He Hediv.
  pose proof (lpf_prime e ltac:(lia)) as Hq.
  destruct (lpf_spec e ltac:(lia)) as [Hqr [Hqe _]].
  assert (Hqip : (lpf e | i * p)) by (apply (Z.divide_trans _ e); assumption).
  apply (Z.divide_prime_mul i p (lpf e) Hq) in Hqip.
  destruct Hqip as [Hqi | Hqp].
  - destruct (lpf_spec i Hi) as [_ [_ Hmin]].
    specialize (Hmin (lpf e) ltac:(lia) Hqi). lia.
  - apply (prime_divisor_eq p (lpf e) Hp) in Hqp; lia.
Qed.

(** A composite [k] is its cofactor times its least prime factor, and
    the least prime factor of the cofactor is no smaller. *)
Lemma lpf_cofactor (k : Z) :
  2 <= k -> lpf k <> k ->
  k = (k / lpf k) * lpf k /\ 2 <= k / lpf k < k /\ lpf k <= lpf (k / lpf k).
Proof.
  intros Hk Hne.
  destruct (lpf_spec k Hk) as [Hr [[c Hc] Hmin]].
  assert (Hq : k / lpf k = c).
  { rewrite Hc at 1. apply Z.div_mul. lia. }
  rewrite Hq.
  assert (Hc2 : 2 <= c) by nia.
  split; [exact Hc |]. split; [nia |].
  destruct (lpf_spec c Hc2) as [Hcr [Hcdiv _]].
  apply Hmin; [lia |].
  apply (Z.divide_trans _ c); [exact Hcdiv | exists (lpf k); lia].
Qed.

Lemma writer_bounds (k : Z) : 2 <= k -> 2 <= writer k <= k.
Proof.
  intros Hk. unfold writer.
  destruct (Z.eqb_spec (lpf k) k) as [E | Hne]; [lia |].
  destruct (lpf_cofactor k Hk Hne) as [_ [Hc _]]. lia.
Qed.

Lemma writer_self (k : Z) : 2 <= k -> (writer k = k <-> Z.prime k).
Proof.
  intros Hk. rewrite <- lpf_self_prime by exact Hk. unfold writer.
  destruct (Z.eqb_spec (lpf k) k) as [E | Hne]; [tauto |].
  destruct (lpf_cofactor k Hk Hne) as [_ [Hc _]]. lia.
Qed.

Lemma writer_mul (i p : Z) :
  2 <= i -> Z.prime p -> p <= lpf i -> writer (i * p) = i.
Proof.
  intros Hi Hp Hle. unfold writer.
  pose proof (Z.prime_ge_2 p Hp) as Hp2.
  rewrite (lpf_mul i p Hi Hp Hle).
  destruct (Z.eqb_spec p (i * p)) as [E | _]; [nia |].
  apply Z.div_mul. lia.
Qed.

(** ** [spf_sieve] *)

Lemma entry_set_nth (t : list Z) (j k x : Z) :
  0 <= j < Z.of_nat (length t) -> 0 <= k ->
  entry (set_nth (Z.to_nat j) x t) k = if k =? j then x else entry t k.
Proof.
  intros Hj Hk. unfold entry. rewrite set_nth_nth by lia.
  destruct (Z.eqb_spec k j) as [-> | Hne].
  - rewrite Nat.eqb_refl. reflexivity.
  - destruct (Nat.eqb_spec (Z.to_nat k) (Z.to_nat j)) as [E | _]; [| reflexivity].
    apply Z2Nat.inj in E; lia.
Qed.

Lemma entry_repeat_0 (n k : Z) : entry (repeat 0 (Z.to_nat n)) k = 0.
Proof.
  unfold entry.
  destruct (Nat.lt_ge_cases (Z.to_nat k) (Z.to_nat n)) as [Hlt | Hge].
  - apply nth_repeat_lt. exact Hlt.
  - apply nth_overflow. rewrite repeat_length. exact Hge.
Qed.

Lemma skipn_nth {T : Type} (d : T) (l : list T) :
  forall n, (n < length l)%nat -> skipn n l = nth n l d :: skipn (S n) l.
Proof.
  induction l as [| a l IH]; intros n Hn; simpl in Hn; [lia |].
  destruct n as [| n]; [reflexivity |].
  cbn [skipn nth]. apply IH. lia.
Qed.

Lemma skipn_In {T : Type} (x : T) (l : list T) :
  forall n, In x (skipn n l) -> In x l.
Proof.
  induction l as [| a l IH]; intros [| n] H; simpl in *; auto.
  right. apply (IH n). exact H.
Qed.

Lemma skipn_sorted {T : Type} (R : T -> T -> Prop) (l : list T) :
  StronglySorted R l -> forall n, StronglySorted R (skipn n l).
Proof.
  induction 1 as [| a l Hs IH Hall]; intros [| n]; simpl;
    try constructor; auto.
Qed.

Lemma spf_inner_spec (fuel : nat) :
  forall N i j ps t s,
    2 <= i <= N -> N <= 3037000499 ->
    Z.of_nat (length t) = N + 1 ->
    StronglySorted Z.lt ps -> Forall (fun p => 2 <= p) ps ->
    Z.of_nat (length ps) <= N ->
    entry t i = s -> s <= i ->
    0 <= j -> Z.of_nat (length ps) - j <= Z.of_nat fuel ->
    exists t',
      spf_inner fuel N i j ps t = Done t' /\
      Z.of_nat (length t') = N + 1 /\
      (forall p, In p (skipn (Z.to_nat j) ps) -> p <= s -> i * p <= N ->
                 entry t' (i * p) = p) /\
      (forall k, 0 <= k ->
                 (forall p, In p (skipn (Z.to_nat j) ps) -> p <= s -> i * p <= N ->
                            k <> i * p) ->
                 entry t' k = entry t k).
Proof.
  induction fuel as [| fuel IH]; intros N i j ps t s Hi HN Hlen Hsort Hge Hlps Hs Hsi Hj Hfuel.
  - assert (Hout : Z.of_nat (length ps) <= j) by lia.
    assert (Hnil : skipn (Z.to_nat j) ps = []) by (apply skipn_all2; lia).
    simpl. destruct (Z.ltb_spec j (Z.of_nat (length ps))); [lia |].
    exists t. rewrite Hnil. split; [reflexivity |]. split; [exact Hlen |].
    split; [intros p [] | reflexivity].
  - cbn [spf_inner].
    destruct (Z.ltb_spec j (Z.of_nat (length ps))) as [Hin | Hout].
    2:{ assert (Hnil : skipn (Z.to_nat j) ps = []) by (apply skipn_all2; lia).
        exists t. rewrite Hnil. split; [reflexivity |]. split; [exact Hlen |].
        split; [intros p [] | reflexivity]. }
    rewrite (vget_Done ps j 0) by lia. cbn [and_then].
    rewrite (vget_Done t i 0) by lia. cbn [and_then].
    fold (entry t i). rewrite Hs.
    set (pj := nth (Z.to_nat j) ps 0).
    assert (Hskip : skipn (Z.to_nat j) ps = pj :: skipn (S (Z.to_nat j)) ps)
      by (apply skipn_nth; lia).
    pose proof (skipn_sorted Z.lt ps Hsort (Z.to_nat j)) as Hsk.
    rewrite Hskip in Hsk. apply StronglySorted_inv in Hsk.
    destruct Hsk as [_ Hlater]. rewrite Forall_forall in Hlater.
    assert (Hpj2 : 2 <= pj).
    { rewrite Forall_forall in Hge. apply Hge.
      apply (skipn_In pj ps (Z.to_nat j)). rewrite Hskip. left. reflexivity. }
    destruct ll_bounds as [Emin Emax].
    destruct (Z.leb_spec pj s) as [Hps | Hps].
    2:{ exists t. split; [reflexivity |]. split; [exact Hlen |].
        rewrite Hskip. split; [| reflexivity].
        intros p [<- | Hp] Hle; [lia | specialize (Hlater p Hp); lia]. }
    rewrite ll_Done by nia. cbn [and_then].
    destruct (Z.leb_spec (i * pj) N) as [HipN | HipN].
    2:{ exists t. split; [reflexivity |]. split; [exact Hlen |].
        rewrite Hskip. split; [| reflexivity].
        intros p [<- | Hp] Hle Hip; [lia | specialize (Hlater p Hp); nia]. }
    rewrite vset_Done by nia. cbn [and_then].
    rewrite ll_Done by lia. cbn [and_then].
    destruct (IH N i (j + 1) ps (set_nth (Z.to_nat (i * pj)) pj t) s)
      as [t' [Hrun [Hlen' [Hset Hkeep]]]]; try assumption; try lia.
    + rewrite set_nth_length. exact Hlen.
    + rewrite entry_set_nth by nia.
      destruct (Z.eqb_spec i (i * pj)); [nia | exact Hs].
    + replace (Z.to_nat (j + 1)) with (S (Z.to_nat j)) in * by lia.
      exists t'. split; [exact Hrun |]. split; [exact Hlen' |].
      rewrite Hskip. split.
      * intros p [<- | Hp] Hle Hip; [| apply Hset; assumption].
        rewrite Hkeep; [| nia |].
        -- rewrite entry_set_nth by nia. rewrite Z.eqb_refl. reflexivity.
        -- intros q Hq _ _ E. specialize (Hlater q Hq). nia.
      * intros k Hk Hnot.
        rewrite Hkeep; [| exact Hk |].
        -- rewrite entry_set_nth by nia.
           destruct (Z.eqb_spec k (i * pj)) as [E | _]; [| reflexivity].
           exfalso. apply (Hnot pj); [left; reflexivity | lia | lia | exact E].
        -- intros q Hq. apply Hnot. right. exact Hq.
Qed.

Lemma zseq_last (n : nat) : forall lo, zseq lo (S n) = zseq lo n ++ [lo + Z.of_nat n].
Proof.
  induction n as [| n IH]; intros lo.
  - simpl. rewrite Z.add_0_r. reflexivity.
  - rewrite zseq_succ, IH, (zseq_succ lo n). cbn [app].
    do 3 f_equal. lia.
Qed.

Lemma primes_upto_succ (i : Z) :
  2 <= i ->
  primes_upto i = primes_upto (i - 1) ++ (if trial_division i then [i] else []).
Proof.
  intros Hi. unfold primes_upto.
  replace (Z.to_nat (i - 1)) with (S (Z.to_nat (i - 1 - 1))) by lia.
  rewrite zseq_last, filter_app. cbn [filter].
  replace (2 + Z.of_nat (Z.to_nat (i - 1 - 1))) with i by lia.
  destruct (trial_division i); reflexivity.
Qed.

Lemma primes_upto_ge_2 (N : Z) : Forall (fun p => 2 <= p) (primes_upto N).
Proof.
  apply Forall_forall. intros p Hp. apply primes_upto_In in Hp.
  apply Z.prime_ge_2. tauto.
Qed.

Lemma primes_upto_length (N : Z) : 1 <= N -> Z.of_nat (length (primes_upto N)) <= N.
Proof.
  intros HN. unfold primes_upto.
  pose proof (filter_length_le trial_division (zseq 2 (Z.to_nat (N - 1)))) as H.
  assert (Hz : forall n lo, length (zseq lo n) = n).
  { induction n as [| n IH]; intros lo; simpl; [reflexivity | rewrite IH; reflexivity]. }
  rewrite Hz in H. lia.
Qed.

(** One round of the outer loop of the linear sieve, on the table. *)
Lemma spf_round_spec (N i : Z) (t : list Z) :
  2 <= i <= N -> N <= 3037000499 ->
  Z.of_nat (length t) = N + 1 ->
  (forall k, 0 <= k <= N ->
             entry t k = if (2 <=? k) && (writer k <? i) then lpf k else 0) ->
  exists t1 t2,
    (entry t i =? 0) = trial_division i /\
    (if entry t i =? 0
     then do t1 <~ vset t i i; Done (primes_upto (i - 1) ++ [i], t1)
     else Done (primes_upto (i - 1), t)) = Done (primes_upto i, t1) /\
    Z.of_nat (length t1) = N + 1 /\
    (forall k, 0 <= k <= N -> k <> i -> entry t1 k = entry t k) /\
    entry t1 i = lpf i /\
    spf_inner (length (primes_upto i)) N i 0 (primes_upto i) t1 = Done t2 /\
    Z.of_nat (length t2) = N + 1 /\
    (forall k, 0 <= k <= N ->
               entry t2 k = if (2 <=? k) && (writer k <? i + 1) then lpf k else 0).
Proof.
  intros Hi HN Hlen Hinv.
  destruct ll_bounds as [Emin Emax].
  assert (Hi2 : 2 <= i) by lia.
  destruct (lpf_spec i Hi2) as [Hlr _].
  pose proof (writer_bounds i Hi2) as Hwb.
  pose proof (writer_self i Hi2) as Hws.
  pose proof (trial_division_prime i) as Htd.
  (* the state after the [if (spf[i] == 0)] *)
  assert (Hmid : exists t1,
             (entry t i =? 0) = trial_division i /\
             (if entry t i =? 0
              then do t1 <~ vset t i i; Done (primes_upto (i - 1) ++ [i], t1)
              else Done (primes_upto (i - 1), t)) = Done (primes_upto i, t1) /\
             Z.of_nat (length t1) = N + 1 /\
             entry t1 i = lpf i /\
             (forall k, 0 <= k <= N -> k <> i -> entry t1 k = entry t k)).
  { rewrite (Hinv i ltac:(lia)).
    destruct (Z.leb_spec 2 i); [| lia]. cbn [andb].
    rewrite (primes_upto_succ i Hi2).
    destruct (Z.ltb_spec (writer i) i) as [Hw | Hw].
    - assert (Hnp : trial_division i = false).
      { destruct (trial_division i); [| reflexivity].
        assert (writer i = i) by tauto. lia. }
      rewrite Hnp, app_nil_r.
      destruct (Z.eqb_spec (lpf i) 0); [lia |].
      exists t. rewrite (Hinv i ltac:(lia)).
      destruct (Z.leb_spec 2 i); [| lia].
      destruct (Z.ltb_spec (writer i) i); [| lia].
      repeat split; auto.
    - assert (Hw' : writer i = i) by lia.
      assert (Hp : trial_division i = true) by tauto.
      rewrite Hp. cbn [Z.eqb].
      rewrite vset_Done by lia. cbn [and_then].
      exists (set_nth (Z.to_nat i) i t).
      split; [reflexivity |]. split; [reflexivity |].
      split; [rewrite set_nth_length; exact Hlen |].
      split.
      + rewrite entry_set_nth, Z.eqb_refl by lia.
        symmetry. apply lpf_self_prime; tauto.
      + intros k Hk Hne. rewrite entry_set_nth by lia.
        destruct (Z.eqb_spec k i); [contradiction | reflexivity]. }
  destruct Hmid as [t1 [Etest [Emid [Hlen1 [Hti Hother]]]]].
  destruct (spf_inner_spec (length (primes_upto i)) N i 0 (primes_upto i) t1 (lpf i))
    as [t2 [Hrun [Hlen2 [Hset Hkeep]]]]; try assumption; try lia.
  - apply primes_upto_sorted.
  - apply primes_upto_ge_2.
  - pose proof (primes_upto_length i ltac:(lia)). lia.
  - cbn [skipn Z.to_nat] in Hset, Hkeep.
    exists t1, t2. repeat (split; [assumption |]).
    intros k Hk.
    destruct (Z.leb_spec 2 k) as [Hk2 | Hk2]; cbn [andb].
    2:{ rewrite Hkeep; [| lia |].
        - rewrite Hother by lia. rewrite (Hinv k Hk).
          destruct (Z.leb_spec 2 k); [lia | reflexivity].
        - intros p Hp _ _ E. apply primes_upto_In in Hp.
          destruct Hp as [Hp _]. apply Z.prime_ge_2 in Hp. nia. }
    pose proof (writer_bounds k Hk2) as Hwk.
    destruct (Z.eq_dec k i) as [-> | Hki].
    { rewrite Hkeep; [| lia |].
      - rewrite Hti. destruct (Z.ltb_spec (writer i) (i + 1)); [reflexivity | lia].
      - intros p Hp _ _ E. apply primes_upto_In in Hp.
        destruct Hp as [Hp _]. apply Z.prime_ge_2 in Hp. nia. }
    destruct (Z.eq_dec (writer k) i) as [Hwk_i | Hwk_i].
    { (* written in this round *)
      assert (Hcomp : lpf k <> k).
      { intros E. apply lpf_self_prime in E; [| exact Hk2].
        apply writer_self in E; [| exact Hk2]. lia. }
      destruct (lpf_cofactor k Hk2 Hcomp) as [Hkc [Hc Hlc]].
      assert (Hwc : writer k = k / lpf k).
      { unfold writer. destruct (Z.eqb_spec (lpf k) k); [contradiction | reflexivity]. }
      rewrite Hwc in Hwk_i. rewrite Hwk_i in Hkc, Hlc.
      destruct (Z.ltb_spec (writer k) (i + 1)); [| lia].
      rewrite Hkc at 1. apply Hset; [| exact Hlc | lia].
      apply primes_upto_In. split; [apply lpf_prime; exact Hk2 | lia]. }
    rewrite Hkeep; [| lia |].
    + rewrite Hother by lia. rewrite (Hinv k Hk).
      destruct (Z.leb_spec 2 k); [| lia]. cbn [andb].
      destruct (Z.ltb_spec (writer k) i);
        destruct (Z.ltb_spec (writer k) (i + 1)); try reflexivity; lia.
    + intros p Hp Hpl _ E. apply primes_upto_In in Hp. destruct Hp as [Hp _].
      apply Hwk_i. rewrite E. apply writer_mul; assumption.
Qed.

Lemma spf_loop_spec (fuel : nat) :
  forall N i ps t,
    2 <= i <= N + 1 -> N <= 3037000499 ->
    Z.of_nat (length t) = N + 1 ->
    N + 1 - i <= Z.of_nat fuel ->
    ps = primes_upto (i - 1) ->
    (forall k, 0 <= k <= N ->
               entry t k = if (2 <=? k) && (writer k <? i) then lpf k else 0) ->
    exists t',
      spf_loop fuel N i ps t = Done (primes_upto N, t') /\
      Z.of_nat (length t') = N + 1 /\
      (forall k, 0 <= k <= N -> entry t' k = if 2 <=? k then lpf k else 0).
Proof.
  induction fuel as [| fuel IH]; intros N i ps t Hi HN Hlen Hfuel Hps Hinv.
  - assert (i = N + 1) as -> by lia.
    simpl. destruct (Z.leb_spec (N + 1) N); [lia |].
    replace (N + 1 - 1) with N in Hps by lia. subst ps.
    exists t. split; [reflexivity |]. split; [exact Hlen |].
    intros k Hk. rewrite (Hinv k Hk).
    destruct (Z.leb_spec 2 k); [| reflexivity].
    pose proof (writer_bounds k ltac:(lia)).
    destruct (Z.ltb_spec (writer k) (N + 1)); [reflexivity | lia].
  - cbn [spf_loop].
    destruct (Z.leb_spec i N) as [HiN | HiN].
    2:{ assert (i = N + 1) as -> by lia.
        replace (N + 1 - 1) with N in Hps by lia. subst ps.
        exists t. split; [reflexivity |]. split; [exact Hlen |].
        intros k Hk. rewrite (Hinv k Hk).
        destruct (Z.leb_spec 2 k); [| reflexivity].
        pose proof (writer_bounds k ltac:(lia)).
        destruct (Z.ltb_spec (writer k) (N + 1)); [reflexivity | lia]. }
    destruct ll_bounds as [Emin Emax].
    destruct (spf_round_spec N i t ltac:(lia) HN Hlen Hinv)
      as [t1 [t2 [_ [Emid [_ [_ [_ [Hrun [Hlen2 Hinv2]]]]]]]]].
    rewrite (vget_Done t i 0) by lia. cbn [and_then]. fold (entry t i).
    subst ps. rewrite Emid. cbn [and_then fst snd].
    rewrite Hrun. cbn [and_then].
    rewrite ll_Done by lia. cbn [and_then].
    apply (IH N (i + 1) (primes_upto i) t2); try assumption; try lia.
    replace (i + 1 - 1) with i by lia. reflexivity.
Qed.

Lemma spf_sieve_correct (N : Z) (g : globals) :
  -1 <= N <= 3037000499 ->
  exists t,
    spf_sieve N g = Done {| primes := primes_upto N; spf := t; is_prime := is_prime g |} /\
    Z.of_nat (length t) = N + 1 /\
    (forall k, 0 <= k <= N -> entry t k = if 2 <=? k then lpf k else 0).
Proof.
  intros HN. unfold spf_sieve.
  destruct ll_bounds as [Emin Emax].
  rewrite ll_Done by lia. cbn [and_then].
  unfold vnew. destruct (Z.ltb_spec (N + 1) 0); [lia |]. cbn [and_then].
  set (t0 := repeat 0 (Z.to_nat (N + 1))).
  assert (Hl0 : Z.of_nat (length t0) = N + 1).
  { unfold t0. rewrite repeat_length. lia. }
  destruct (Z_le_gt_dec 1 N) as [H1 | H1].
  - destruct (spf_loop_spec (Z.to_nat N) N 2 [] t0) as [t' [Hrun [Hl' Hinv']]];
      try assumption; try lia.
    + reflexivity.
    + intros k Hk. unfold t0. rewrite entry_repeat_0.
      destruct (Z.leb_spec 2 k); [| reflexivity]. cbn [andb].
      pose proof (writer_bounds k ltac:(lia)).
      destruct (Z.ltb_spec (writer k) 2); [lia | reflexivity].
    + rewrite Hrun. cbn [and_then fst snd].
      exists t'. split; [reflexivity |]. split; assumption.
  - assert (Hloop : spf_loop (Z.to_nat N) N 2 [] t0 = Done ([], t0)).
    { destruct (Z.to_nat N); simpl; destruct (Z.leb_spec 2 N); try lia; reflexivity. }
    rewrite Hloop. cbn [and_then fst snd].
    assert (Hnil : primes_upto N = []).
    { unfold primes_upto. replace (Z.to_nat (N - 1)) with 0%nat by lia. reflexivity. }
    rewrite Hnil. exists t0. split; [reflexivity |]. split; [exact Hl0 |].
    intros k Hk. destruct (Z.leb_spec 2 k); [lia |].
    unfold t0. apply entry_repeat_0.
Qed.

(** ** [pf_precomp] *)

Lemma to_int_small (x : Z) : 0 <= x < 2 ^ 31 -> to_int x = x.
Proof.
  intros Hx. unfold to_int.
  assert (H31 : 2 ^ 31 = 2147483648) by reflexivity.
  assert (H32 : 2 ^ 32 = 4294967296) by reflexivity.
  rewrite Z.mod_small by lia. lia.
Qed.

Lemma int_Done (x : Z) : - 2 ^ 31 <= x <= 2 ^ 31 - 1 -> int_ x = Done x.
Proof.
  intros Hx. unfold int_.
  destruct (Z.leb_spec (- 2 ^ 31) x); [| lia].
  destruct (Z.leb_spec x (2 ^ 31 - 1)); [reflexivity | lia].
Qed.

Lemma ll_div_Done (a b : Z) :
  0 <= a <= ll_max -> 0 < b -> ll_div a b = Done (a / b).
Proof.
  intros Ha Hb. unfold ll_div.
  destruct (Z.eqb_spec b 0); [lia |].
  rewrite Z.quot_div_nonneg by lia.
  destruct ll_bounds as [Emin Emax].
  apply ll_Done.
  assert (0 <= a / b) by (apply Z.div_pos; lia).
  assert (a / b <= a) by (apply Z.div_le_upper_bound; nia).
  lia.
Qed.

Lemma pf_loop_spec (dv : Z -> Z -> outcome Z) (fuel : nat) :
  forall N t x cur ct pfs,
    spf_table N t ->
    (forall a b, 0 <= a <= N -> 0 < b -> dv a b = Done (a / b)) ->
    1 <= x <= N -> x < 2 ^ Z.of_nat fuel ->
    Z.prime cur -> 0 <= ct -> ct + Z.of_nat fuel <= 2 ^ 31 - 1 ->
    (1 < x -> cur <= lpf x) ->
    (ct = 0 -> 1 < x /\ cur = lpf x) ->
    exists c rest,
      pf_loop dv fuel t x cur ct pfs = Done (pfs ++ (cur, c) :: rest) /\
      ct <= c /\ 1 <= c /\
      cur ^ (c - ct) * pf_product rest = x /\
      pf_canonical rest /\
      Forall (fun pc => cur < fst pc) rest.
Proof.
  induction fuel as [| fuel IH];
    intros N t x cur ct pfs Ht Hdv Hx Hfuel Hcur Hct Hint Hle Hzero.
  - assert (x = 1) as -> by (simpl in Hfuel; lia).
    simpl. destruct (Z.eqb_spec ct 0) as [E | Hne]; [apply Hzero in E; lia |].
    exists ct, []. cbn [negb].
    split; [reflexivity |]. split; [lia |]. split; [lia |].
    rewrite Z.sub_diag. split; [reflexivity |].
    split; [split; constructor | constructor].
  - cbn [pf_loop].
    destruct (Z.ltb_spec 1 x) as [Hx1 | Hx1].
    2:{ assert (x = 1) as -> by lia.
        destruct (Z.eqb_spec ct 0) as [E | Hne]; [apply Hzero in E; lia |].
        exists ct, []. cbn [negb].
        split; [reflexivity |]. split; [lia |]. split; [lia |].
        rewrite Z.sub_diag. split; [reflexivity |].
        split; [split; constructor | constructor]. }
    destruct Ht as [Hlen Htab].
    rewrite (vget_Done t x 0) by lia. cbn [and_then]. fold (entry t x).
    rewrite (Htab x ltac:(lia)).
    destruct (lpf_spec x ltac:(lia)) as [Hlr [[q Hq] Hmin]].
    pose proof (lpf_prime x ltac:(lia)) as Hlp.
    assert (Hdiv : x / lpf x = q) by (rewrite Hq at 1; apply Z.div_mul; lia).
    assert (Hq1 : 1 <= q) by nia.
    assert (Hqx : q <= x) by nia.
    assert (Hqfuel : q < 2 ^ Z.of_nat fuel).
    { rewrite Nat2Z.inj_succ, Z.pow_succ_r in Hfuel by lia. nia. }
    assert (Hqle : 1 < q -> lpf x <= lpf q).
    { intros Hq2.
      destruct (lpf_spec q ltac:(lia)) as [Hqr [Hqd _]].
      apply Hmin; [lia |].
      apply (Z.divide_trans _ q); [exact Hqd | exists (lpf x); lia]. }
    rewrite Nat2Z.inj_succ in Hint.
    specialize (Hle Hx1).
    destruct (Z.eqb_spec cur (lpf x)) as [Ecur | Ncur]; cbn [negb].
    + rewrite int_Done by lia. cbn [and_then].
      rewrite Hdv by lia. cbn [and_then]. rewrite Hdiv.
      destruct (IH N t q cur (ct + 1) pfs) as [c [rest [Hrun [Hc [Hc1 [Hprod [Hcan Hgt]]]]]]];
        try assumption; try lia; try (split; assumption).
      exists c, rest. split; [exact Hrun |]. split; [lia |]. split; [exact Hc1 |].
      split; [| split; assumption].
      replace (c - ct) with (Z.succ (c - (ct + 1))) by lia.
      rewrite Z.pow_succ_r by lia. rewrite <- Z.mul_assoc, Hprod, Ecur. lia.
    + assert (Hct1 : 1 <= ct).
      { destruct (Z.eq_dec ct 0) as [E | Hne]; [apply Hzero in E; tauto | lia]. }
      rewrite int_Done by lia. cbn [and_then].
      rewrite Hdv by lia. cbn [and_then]. rewrite Hdiv.
      destruct (IH N t q (lpf x) (0 + 1) (pfs ++ [(cur, ct)]))
        as [c [rest [Hrun [Hc [Hc1 [Hprod [Hcan Hgt]]]]]]];
        try assumption; try lia; try (split; assumption).
      exists ct, ((lpf x, c) :: rest).
      rewrite Hrun, <- app_assoc. cbn [app].
      split; [reflexivity |]. split; [lia |]. split; [exact Hct1 |].
      rewrite Z.sub_diag, Z.pow_0_r, Z.mul_1_l.
      destruct Hcan as [Hsort Hall].
      split; [| split].
      * cbn [pf_product fold_right fst snd]. fold (pf_product rest).
        replace c with (Z.succ (c - (0 + 1))) by lia.
        rewrite Z.pow_succ_r by lia. rewrite <- Z.mul_assoc, Hprod. lia.
      * split.
        -- cbn [map fst]. constructor; [exact Hsort |].
           apply Forall_map. exact Hgt.
        -- constructor; [cbn [fst snd]; split; [exact Hlp | exact Hc1] | exact Hall].
      * constructor; [cbn [fst]; lia |].
        eapply Forall_impl; [| exact Hgt]. cbn beta. intros pc Hpc. lia.
Qed.

Lemma pf_precomp_correct (N x : Z) (g : globals) :
  spf_table N (spf g) -> N <= ll_max -> 2 <= x <= N ->
  exists l,
    pf_precomp x g = Done l /\ pf_product l = x /\ pf_canonical l.
Proof.
  intros Ht HN Hx. unfold pf_precomp.
  pose proof Ht as [Hlen Htab].
  rewrite (vget_Done (spf g) x 0) by lia. cbn [and_then]. fold (entry (spf g) x).
  rewrite (Htab x Hx).
  destruct ll_bounds as [Emin Emax].
  destruct (pf_loop_spec ll_div 64 N (spf g) x (lpf x) 0 [])
    as [c [rest [Hrun [Hc [Hc1 [Hprod [[Hsort Hall] Hgt]]]]]]];
    try assumption; try lia.
  - intros a b Ha Hb. apply ll_div_Done; lia.
  - apply lpf_prime. lia.
  - cbn [app] in Hrun. exists ((lpf x, c) :: rest).
    split; [exact Hrun |]. rewrite Z.sub_0_r in Hprod.
    split; [exact Hprod |].
    split.
    + cbn [map fst]. constructor; [exact Hsort | apply Forall_map; exact Hgt].
    + constructor; [| exact Hall].
      cbn [fst snd]. split; [apply lpf_prime; lia | exact Hc1].
Qed.

Lemma pf_precomp_small (x : Z) (g : globals) :
  0 <= x <= 1 -> x < Z.of_nat (length (spf g)) -> pf_precomp x g = Done [].
Proof.
  intros Hx Hlen. unfold pf_precomp.
  rewrite (vget_Done (spf g) x 0) by lia. cbn [and_then].
  cbn [pf_loop]. destruct (Z.ltb_spec 1 x); [lia | reflexivity].
Qed.

Lemma pf_precomp_out_of_range (x : Z) (g : globals) :
  ~ (0 <= x < Z.of_nat (length (spf g))) -> pf_precomp x g = Fault.
Proof.
  intros Hx. unfold pf_precomp. rewrite vget_Fault by exact Hx. reflexivity.
Qed.

(** ** More on [miller_rabin], [pollard] and [factor] *)

Lemma lor_1_odd (n : Z) : n mod 2 = 1 -> Z.lor n 1 = n.
Proof.
  intros Hodd.
  assert (Hland : Z.land n 1 = 1) by (rewrite land_1_mod2; exact Hodd).
  pose proof (Z.add_lor_land n 1) as H. rewrite Hland in H. lia.
Qed.

Lemma lor_1_is_3 (n : Z) : 0 <= n -> (Z.lor n 1 =? 3) = ((n =? 2) || (n =? 3)).
Proof.
  intros Hn.
  pose proof (Z.mod_pos_bound n 2 ltac:(lia)) as Hr.
  assert (Hc : n mod 2 = 0 \/ n mod 2 = 1) by lia.
  destruct Hc as [E | E].
  - rewrite (lor_1_even n E).
    destruct (Z.eqb_spec n 2) as [-> | H2]; [reflexivity |].
    destruct (Z.eqb_spec n 3) as [-> | H3]; [discriminate E |].
    apply Z.eqb_neq. lia.
  - rewrite (lor_1_odd n E).
    destruct (Z.eqb_spec n 2) as [-> | H2]; [discriminate E |].
    reflexivity.
Qed.

Lemma mr_small_true (n : Z) :
  0 <= n -> n < 2 \/ n mod 2 = 0 \/ n mod 3 = 0 -> mr_small n = true.
Proof.
  intros Hn Hcase.
  destruct (mr_small n) eqn:E; [reflexivity | exfalso].
  apply (mr_small_mod6 n Hn) in E. destruct E as [H2 H6].
  pose proof (mod6_mod2 n) as M2. pose proof (mod6_mod3 n) as M3.
  destruct H6 as [E | E]; rewrite E in M2, M3;
    change (1 mod 2) with 1 in M2; change (1 mod 3) with 1 in M3;
    change (5 mod 2) with 1 in M2; change (5 mod 3) with 2 in M3; lia.
Qed.

(** Whatever [miller_rabin] accepts is at least 2. *)
Lemma miller_rabin_true_ge_2 (n : Z) : miller_rabin n = Ok true -> 2 <= n.
Proof.
  unfold miller_rabin. intros H.
  destruct (mr_small n) eqn:Hs.
  - injection H as H. apply Z.eqb_eq in H.
    destruct (Z_lt_ge_dec n 0) as [Hneg | Hpos].
    + assert (Z.lor n 1 < 0) by (apply Z.lor_neg; left; exact Hneg). lia.
    + rewrite <- Z.eqb_eq, lor_1_is_3 in H by lia.
      apply orb_true_iff in H. rewrite !Z.eqb_eq in H. lia.
  - apply mr_small_false in Hs. lia.
Qed.

Lemma product_ge_1 (l : list Z) : Forall (fun x => 2 <= x) l -> 1 <= product l.
Proof.
  unfold product. induction 1 as [| a l Ha Hl IH]; simpl; [lia | nia].
Qed.

Lemma product_In_le (l : list Z) (x : Z) :
  Forall (fun x => 2 <= x) l -> In x l -> x <= product l.
Proof.
  unfold product. induction 1 as [| a l Ha Hl IH]; intros Hin; [destruct Hin |].
  pose proof (product_ge_1 l Hl) as H1. unfold product in H1.
  simpl. destruct Hin as [-> | Hin]; [nia |].
  specialize (IH Hin). nia.
Qed.

Lemma modmul_Ok (a b n : Z) : n <> 0 -> exists q, modmul a b n = Ok q.
Proof.
  intros Hn. unfold modmul. apply Z.eqb_neq in Hn. rewrite Hn. eauto.
Qed.

Lemma f_Ok (n x : Z) : n <> 0 -> exists y, f n x = Ok y.
Proof.
  intros Hn. unfold f. destruct (modmul_Ok x x n Hn) as [q ->]. cbn [bind]. eauto.
Qed.

(** With a non-zero modulus the loop of [pollard] never divides by
    zero: it returns or it is still running. *)
Lemma pollard_loop_no_div (fuel : nat) :
  forall n x y t prd i,
    n <> 0 ->
    pollard_loop fuel n x y t prd i = OutOfFuel \/
    exists d, pollard_loop fuel n x y t prd i = Ok d.
Proof.
  induction fuel as [| fuel IH]; intros n x y t prd i Hn; [left; reflexivity |].
  rewrite pollard_loop_S.
  destruct (negb (t mod 40 =? 0) || (__gcd prd n =? 1)); [| right; eauto].
  assert (Hxyi : exists x1 y1 i1,
             (if x =? y
              then let i' := add64 i 1 in y' <- f n i' ;; Ok (i', y', i')
              else Ok (x, y, i)) = Ok (x1, y1, i1)).
  { destruct (x =? y); [| eauto]. cbv zeta.
    destruct (f_Ok n (add64 i 1) Hn) as [y' ->]. cbn [bind]. eauto. }
  destruct Hxyi as [x1 [y1 [i1 ->]]]. cbn [bind].
  destruct (modmul_Ok prd (sub64 (Z.max x1 y1) (Z.min x1 y1)) n Hn) as [q ->].
  cbn [bind].
  destruct (f_Ok n x1 Hn) as [x2 ->]. cbn [bind].
  destruct (f_Ok n y1 Hn) as [fy ->]. cbn [bind].
  destruct (f_Ok n fy Hn) as [y2 ->]. cbn [bind].
  apply IH. exact Hn.
Qed.

(** ** The lowest set bit *)

Lemma lowbit_double (x : Z) : Fenwick.lowbit (2 * x) = 2 * Fenwick.lowbit x.
Proof.
  unfold Fenwick.lowbit.
  assert (Hs : forall y, 2 * y = Z.shiftl y 1).
  { intros y. rewrite Z.shiftl_mul_pow2 by lia. change (2 ^ 1) with 2. ring. }
  replace (- (2 * x)) with (2 * - x) by ring.
  rewrite !Hs. symmetry. apply Z.shiftl_land.
Qed.

Lemma lowbit_odd (x : Z) : x mod 2 = 1 -> Fenwick.lowbit x = 1.
Proof.
  intros Hodd. unfold Fenwick.lowbit.
  apply Z.bits_inj'. intros n Hn.
  rewrite Z.land_spec.
  assert (Hx : x = 2 * (x / 2) + 1) by (rewrite <- Hodd; apply Z.div_mod; lia).
  assert (Hm : - x = 2 * (- (x / 2) - 1) + 1) by lia.
  destruct (Z.eq_dec n 0) as [-> | Hn0].
  - rewrite Hx at 1. rewrite Hm. rewrite !Z.testbit_odd_0. reflexivity.
  - replace n with (Z.succ (n - 1)) by lia.
    rewrite Hx at 1. rewrite Hm.
    rewrite !Z.testbit_odd_succ by lia.
    replace (- (x / 2) - 1) with (Z.lnot (x / 2)) by (unfold Z.lnot; lia).
    rewrite Z.lnot_spec by lia.
    rewrite andb_negb_r.
    symmetry. apply (Z.bits_above_log2 1); simpl; lia.
Qed.

(** Induction on a positive integer along its binary digits. *)
Lemma binary_ind (P : Z -> Prop) :
  (forall x, 0 <= x -> x mod 2 = 1 -> P x) ->
  (forall x, 0 < x -> P x -> P (2 * x)) ->
  forall i, 0 < i -> P i.
Proof.
  intros Hodd Heven i Hi.
  destruct i as [| p | p]; try lia.
  induction p as [p IH | p IH |].
  - apply Hodd; [lia |]. rewrite Pos2Z.inj_xI, Z.add_comm, Z.mul_comm.
    rewrite Z.mod_add by lia. reflexivity.
  - rewrite Pos2Z.inj_xO. apply Heven; [lia | apply IH; lia].
  - apply Hodd; [lia | reflexivity].
Qed.

Lemma lowbit_bounds (i : Z) :
  0 < i -> 0 < Fenwick.lowbit i <= i /\ (Fenwick.lowbit i | i).
Proof.
  revert i. apply binary_ind.
  - intros x Hx Hodd. rewrite (lowbit_odd x Hodd).
    assert (x <> 0) by (intros ->; discriminate).
    split; [lia | apply Z.divide_1_l].
  - intros x Hx [Hb Hd]. rewrite lowbit_double.
    split; [lia | apply Z.mul_divide_mono_l; exact Hd].
Qed.

Lemma even_or_odd (r : Z) : r mod 2 = 0 \/ r mod 2 = 1.
Proof. pose proof (Z.mod_pos_bound r 2 ltac:(lia)). lia. Qed.

Lemma half_even (r : Z) : r mod 2 = 0 -> r = 2 * (r / 2).
Proof. intros H. pose proof (Z.div_mod r 2 ltac:(lia)). lia. Qed.

(** Just above [j], below its next chain element, the low bits are
    those of the offset. *)
Lemma lowbit_offset (j : Z) :
  0 < j ->
  forall r, 0 < r < Fenwick.lowbit j -> Fenwick.lowbit (j + r) = Fenwick.lowbit r.
Proof.
  revert j.
  apply (binary_ind (fun j => forall r, 0 < r < Fenwick.lowbit j ->
                                        Fenwick.lowbit (j + r) = Fenwick.lowbit r)).
  - intros x Hx Hodd r Hr. rewrite (lowbit_odd x Hodd) in Hr. lia.
  - intros x Hx IH r Hr. rewrite lowbit_double in Hr.
    destruct (even_or_odd r) as [Er | Er].
    + rewrite (half_even r Er) in *.
      replace (2 * x + 2 * (r / 2)) with (2 * (x + r / 2)) by ring.
      rewrite !lowbit_double. rewrite IH by lia. reflexivity.
    + rewrite (lowbit_odd r Er). apply lowbit_odd.
      replace (2 * x + r) with (r + x * 2) by ring.
      rewrite Z.mod_add by lia. exact Er.
Qed.

(** Adding the lowest set bit at least doubles it. *)
Lemma lowbit_add_lowbit (j : Z) :
  0 < j -> 2 * Fenwick.lowbit j <= Fenwick.lowbit (j + Fenwick.lowbit j).
Proof.
  revert j.
  apply (binary_ind (fun j => 2 * Fenwick.lowbit j
                              <= Fenwick.lowbit (j + Fenwick.lowbit j))).
  - intros x Hx Hodd. rewrite (lowbit_odd x Hodd).
    assert (He : (x + 1) mod 2 = 0).
    { rewrite <- Z.add_mod_idemp_l, Hodd by lia. reflexivity. }
    rewrite (half_even (x + 1) He), lowbit_double.
    assert (0 < (x + 1) / 2).
    { pose proof (half_even (x + 1) He). lia. }
    pose proof (lowbit_bounds ((x + 1) / 2) ltac:(lia)). lia.
  - intros x Hx IH. rewrite lowbit_double.
    replace (2 * x + 2 * Fenwick.lowbit x) with (2 * (x + Fenwick.lowbit x)) by ring.
    rewrite lowbit_double. lia.
Qed.

(** Removing the lowest set bit at least doubles it, too. *)
Lemma lowbit_sub_lowbit (j : Z) :
  0 < j -> 0 < j - Fenwick.lowbit j ->
  2 * Fenwick.lowbit j <= Fenwick.lowbit (j - Fenwick.lowbit j).
Proof.
  revert j.
  apply (binary_ind (fun j => 0 < j - Fenwick.lowbit j ->
                              2 * Fenwick.lowbit j
                              <= Fenwick.lowbit (j - Fenwick.lowbit j))).
  - intros x Hx Hodd. rewrite (lowbit_odd x Hodd). intros Hpos.
    assert (He : (x - 1) mod 2 = 0).
    { replace (x - 1) with (x + (-1) * 1) by ring.
      rewrite <- Z.add_mod_idemp_l, Hodd by lia. reflexivity. }
    rewrite (half_even (x - 1) He), lowbit_double.
    assert (0 < (x - 1) / 2).
    { pose proof (half_even (x - 1) He). lia. }
    pose proof (lowbit_bounds ((x - 1) / 2) ltac:(lia)). lia.
  - intros x Hx IH. rewrite lowbit_double. intros Hpos.
    replace (2 * x - 2 * Fenwick.lowbit x) with (2 * (x - Fenwick.lowbit x)) by ring.
    rewrite lowbit_double. specialize (IH ltac:(lia)). lia.
Qed.

(** ** The Fenwick tree *)

Lemma zseq_app (n1 : nat) :
  forall lo n2, zseq lo (n1 + n2) = zseq lo n1 ++ zseq (lo + Z.of_nat n1) n2.
Proof.
  induction n1 as [| n1 IH]; intros lo n2.
  - simpl. rewrite Z.add_0_r. reflexivity.
  - cbn [Nat.add zseq app]. rewrite IH. do 3 f_equal. lia.
Qed.

Lemma zseq_length (n : nat) : forall lo, length (zseq lo n) = n.
Proof.
  induction n as [| n IH]; intros lo; simpl; [reflexivity | rewrite IH; reflexivity].
Qed.

Lemma set_nth_nth_default {T : Type} (j k : Z) (x d : T) (v : list T) :
  0 <= j < Z.of_nat (length v) -> 0 <= k ->
  nth (Z.to_nat k) (set_nth (Z.to_nat j) x v) d
  = if k =? j then x else nth (Z.to_nat k) v d.
Proof.
  intros Hj Hk. rewrite set_nth_nth by lia.
  destruct (Z.eqb_spec k j) as [-> | Hne].
  - rewrite Nat.eqb_refl. reflexivity.
  - destruct (Nat.eqb_spec (Z.to_nat k) (Z.to_nat j)) as [E | _]; [| reflexivity].
    apply Z2Nat.inj in E; lia.
Qed.

Lemma land_neg_lowbit (i : Z) : Z.land i (- i) = Fenwick.lowbit i.
Proof. reflexivity. Qed.

Section FenwickLaws.

Context {T : Type}.
Variable zero : T.
Variables add sub : T -> T -> T.
Hypothesis add_assoc : forall x y z, add x (add y z) = add (add x y) z.
Hypothesis add_comm : forall x y, add x y = add y x.
Hypothesis add_zero_l : forall x, add zero x = x.
Hypothesis sub_add_l : forall x y, sub (add x y) x = y.

Notation sumf := (Fenwick.sumf zero add).
Notation bump := (Fenwick.bump add).
Notation represents := (Fenwick.represents zero add).

Lemma add_zero_r (x : T) : add x zero = x.
Proof. rewrite add_comm. apply add_zero_l. Qed.

Lemma sum_app (l1 l2 : list T) :
  fold_right add zero (l1 ++ l2)
  = add (fold_right add zero l1) (fold_right add zero l2).
Proof.
  induction l1 as [| x l1 IH]; simpl.
  - symmetry. apply add_zero_l.
  - rewrite IH. apply add_assoc.
Qed.

Lemma sumf_0 (a : Z -> T) (lo : Z) : sumf a lo 0 = zero.
Proof. reflexivity. Qed.

Lemma sumf_split (a : Z -> T) (lo c1 c2 : Z) :
  0 <= c1 -> 0 <= c2 ->
  sumf a lo (c1 + c2) = add (sumf a lo c1) (sumf a (lo + c1) c2).
Proof.
  intros H1 H2. unfold Fenwick.sumf.
  rewrite Z2Nat.inj_add by lia.
  rewrite zseq_app, map_app, sum_app.
  do 4 f_equal. lia.
Qed.

Lemma sumf_1 (a : Z -> T) (lo : Z) : sumf a lo 1 = a (lo + 1).
Proof. unfold Fenwick.sumf. simpl. apply add_zero_r. Qed.

Lemma sumf_ext (a b : Z -> T) (lo c : Z) :
  (forall j, lo < j <= lo + c -> a j = b j) -> sumf a lo c = sumf b lo c.
Proof.
  intros Hab. unfold Fenwick.sumf. f_equal.
  apply map_ext_in. intros j Hj. apply zseq_In in Hj.
  apply Hab. lia.
Qed.

Lemma sumf_bump_out (a : Z -> T) (idx lo c : Z) (val : T) :
  ~ (lo < idx <= lo + c) -> sumf (bump a idx val) lo c = sumf a lo c.
Proof.
  intros Hout. apply sumf_ext. intros j Hj. unfold Fenwick.bump.
  destruct (Z.eqb_spec j idx); [lia | reflexivity].
Qed.

Lemma sumf_bump_in (a : Z -> T) (idx lo c : Z) (val : T) :
  lo < idx <= lo + c -> sumf (bump a idx val) lo c = add (sumf a lo c) val.
Proof.
  intros Hin.
  replace c with ((idx - 1 - lo) + (1 + (lo + c - idx))) by lia.
  rewrite !(sumf_split _ lo) by lia.
  rewrite !(sumf_split _ (lo + (idx - 1 - lo)) 1) by lia.
  rewrite !sumf_1.
  rewrite (sumf_bump_out a idx lo) by lia.
  rewrite (sumf_bump_out a idx (lo + (idx - 1 - lo) + 1)) by lia.
  unfold Fenwick.bump at 1.
  replace (lo + (idx - 1 - lo) + 1) with idx by lia.
  rewrite Z.eqb_refl.
  set (x := sumf a lo (idx - 1 - lo)). set (y := a idx).
  set (z := sumf a idx (lo + c - idx)).
  rewrite <- !add_assoc. f_equal. f_equal. apply add_comm.
Qed.

Lemma sumf_zero (lo c : Z) : sumf (fun _ => zero) lo c = zero.
Proof.
  unfold Fenwick.sumf. generalize (zseq (lo + 1) (Z.to_nat c)).
  induction l as [| x l IH]; simpl; [reflexivity |].
  rewrite IH. apply add_zero_l.
Qed.

Lemma represents_ext (f : Fenwick.t) (a b : Z -> T) (n : Z) :
  (forall j, 1 <= j <= n -> a j = b j) -> represents f a n -> represents f b n.
Proof.
  intros Hab [Hlen [Hsize Hdata]].
  split; [exact Hlen |]. split; [exact Hsize |].
  intros i Hi. rewrite (Hdata i Hi).
  pose proof (lowbit_bounds i ltac:(lia)) as [Hb _].
  apply sumf_ext. intros j Hj. apply Hab. lia.
Qed.

Lemma int_bounds_Done (x : Z) : -2147483648 <= x <= 2147483647 -> int_ x = Done x.
Proof. intros Hx. apply int_Done. lia. Qed.

Lemma upd_loop_spec (fuel : nat) :
  forall (d : list T) n j idx val a m,
    Z.of_nat (length d) = n + 1 -> n < 2 ^ 30 ->
    1 <= idx <= j -> j - Fenwick.lowbit j < idx ->
    0 <= m -> 2 ^ m <= Fenwick.lowbit j -> 31 <= m + Z.of_nat fuel ->
    (forall k, 1 <= k <= n -> k < j ->
       nth (Z.to_nat k) d zero
       = sumf (bump a idx val) (k - Fenwick.lowbit k) (Fenwick.lowbit k)) ->
    (forall k, 1 <= k <= n -> j <= k ->
       nth (Z.to_nat k) d zero = sumf a (k - Fenwick.lowbit k) (Fenwick.lowbit k)) ->
    exists d',
      Fenwick.upd_loop add fuel d (n + 1) j val = Done d' /\
      Z.of_nat (length d') = n + 1 /\
      (forall k, 1 <= k <= n ->
         nth (Z.to_nat k) d' zero
         = sumf (bump a idx val) (k - Fenwick.lowbit k) (Fenwick.lowbit k)).
Proof.
  induction fuel as [| fuel IH];
    intros d n j idx val a m Hlen Hn Hidx Hlow Hm Hpow Hfuel Hnew Hold.
  - (* no fuel left: the index is already past the end *)
    assert (Hj : n < j).
    { destruct (Z_lt_ge_dec n j) as [H | H]; [exact H | exfalso].
      pose proof (lowbit_bounds j ltac:(lia)) as [Hb _].
      assert (2 ^ 30 <= 2 ^ m) by (apply Z.pow_le_mono_r; lia). lia. }
    simpl. destruct (Z.ltb_spec j (n + 1)); [lia |].
    exists d. split; [reflexivity |]. split; [exact Hlen |].
    intros k Hk. apply Hnew; lia.
  - cbn [Fenwick.upd_loop].
    destruct (Z.ltb_spec j (n + 1)) as [Hjn | Hjn].
    2:{ exists d. split; [reflexivity |]. split; [exact Hlen |].
        intros k Hk. apply Hnew; lia. }
    pose proof (lowbit_bounds j ltac:(lia)) as [Hb _].
    assert (H30 : 2 ^ 30 = 1073741824) by reflexivity.
    rewrite (vget_Done d j zero) by lia. cbn [and_then].
    rewrite vset_Done by lia. cbn [and_then].
    rewrite int_bounds_Done by lia. cbn [and_then].
    rewrite land_neg_lowbit.
    rewrite int_bounds_Done by lia. cbn [and_then].
    pose proof (lowbit_add_lowbit j ltac:(lia)) as Hdouble.
    destruct (IH (set_nth (Z.to_nat j) (add (nth (Z.to_nat j) d zero) val) d)
                 n (j + Fenwick.lowbit j) idx val a (m + 1))
      as [d' [Hrun [Hlen' Hall]]]; try lia.
    + rewrite set_nth_length. exact Hlen.
    + rewrite Z.pow_add_r, Z.pow_1_r by lia. lia.
    + intros k Hk Hkj. rewrite set_nth_nth_default by lia.
      destruct (Z.eqb_spec k j) as [-> | Hne].
      * rewrite (Hold j) by lia. symmetry. apply sumf_bump_in. lia.
      * destruct (Z_lt_ge_dec k j) as [Hlt | Hge]; [apply Hnew; lia |].
        rewrite (Hold k) by lia. symmetry. apply sumf_bump_out.
        pose proof (lowbit_offset j ltac:(lia) (k - j) ltac:(lia)) as Hoff.
        replace (j + (k - j)) with k in Hoff by lia.
        pose proof (lowbit_bounds (k - j) ltac:(lia)) as [Hbk _].
        lia.
    + intros k Hk Hkj. rewrite set_nth_nth_default by lia.
      destruct (Z.eqb_spec k j); [lia |]. apply Hold; lia.
    + exists d'. split; [exact Hrun |]. split; assumption.
Qed.

Lemma upd_spec (f : Fenwick.t) (a : Z -> T) (n idx : Z) (val : T) :
  represents f a n -> n < 2 ^ 30 -> 1 <= idx <= n ->
  exists f',
    Fenwick.upd add f idx val = Done f' /\ represents f' (bump a idx val) n.
Proof.
  intros [Hlen [Hsize Hdata]] Hn Hidx. unfold Fenwick.upd. rewrite Hlen.
  pose proof (lowbit_bounds idx ltac:(lia)) as [Hb _].
  destruct (upd_loop_spec 32 (Fenwick.data f) n idx idx val a 0)
    as [d' [Hrun [Hlen' Hall]]]; try lia.
  - intros k Hk Hlt. rewrite (Hdata k Hk). symmetry. apply sumf_bump_out.
    pose proof (lowbit_bounds k ltac:(lia)). lia.
  - intros k Hk _. apply Hdata. exact Hk.
  - rewrite Hrun. cbn [and_then]. eexists. split; [reflexivity |].
    split; [reflexivity |]. split; [exact Hlen' | exact Hall].
Qed.

Lemma get_loop_spec (fuel : nat) :
  forall (d : list T) n i res a m,
    Z.of_nat (length d) = n + 1 -> n < 2 ^ 31 ->
    0 <= i <= n ->
    0 <= m -> (i = 0 \/ 2 ^ m <= Fenwick.lowbit i) -> i < 2 ^ (m + Z.of_nat fuel) ->
    (forall k, 1 <= k <= n ->
       nth (Z.to_nat k) d zero = sumf a (k - Fenwick.lowbit k) (Fenwick.lowbit k)) ->
    Fenwick.get_loop add fuel d i res = Done (add res (sumf a 0 i)).
Proof.
  induction fuel as [| fuel IH]; intros d n i res a m Hlen Hn Hi Hm Hpow Hfuel Hdata.
  - assert (i = 0) as ->.
    { destruct Hpow as [E | Hp]; [exact E |].
      destruct (Z.eq_dec i 0) as [E | Hne]; [exact E | exfalso].
      pose proof (lowbit_bounds i ltac:(lia)) as [Hb _].
      rewrite Z.add_0_r in Hfuel. lia. }
    simpl. rewrite add_zero_r. reflexivity.
  - cbn [Fenwick.get_loop].
    destruct (Z.ltb_spec 0 i) as [Hpos | Hpos].
    2:{ assert (i = 0) as -> by lia. rewrite sumf_0, add_zero_r. reflexivity. }
    pose proof (lowbit_bounds i ltac:(lia)) as [Hb _].
    assert (H31 : 2 ^ 31 = 2147483648) by reflexivity.
    rewrite (vget_Done d i zero) by lia. cbn [and_then].
    rewrite int_bounds_Done by lia. cbn [and_then].
    rewrite land_neg_lowbit.
    rewrite int_bounds_Done by lia. cbn [and_then].
    destruct Hpow as [E | Hp]; [lia |].
    rewrite (IH d n (i - Fenwick.lowbit i) _ a (m + 1)); try assumption; try lia.
    + rewrite (Hdata i) by lia.
      assert (Hs : sumf a 0 i
                   = add (sumf a 0 (i - Fenwick.lowbit i))
                         (sumf a (i - Fenwick.lowbit i) (Fenwick.lowbit i))).
      { rewrite <- (Z.add_0_l (i - Fenwick.lowbit i)) at 2.
        rewrite <- sumf_split by lia. f_equal. lia. }
      rewrite Hs, <- !add_assoc. do 2 f_equal. apply add_comm.
    + destruct (Z.eq_dec (i - Fenwick.lowbit i) 0) as [E | Hne]; [left; exact E | right].
      pose proof (lowbit_sub_lowbit i ltac:(lia) ltac:(lia)).
      rewrite Z.pow_add_r, Z.pow_1_r by lia. lia.
    + rewrite Nat2Z.inj_succ in Hfuel.
      replace (m + 1 + Z.of_nat fuel) with (m + Z.succ (Z.of_nat fuel)) by lia. lia.
Qed.

Lemma get_spec (f : Fenwick.t) (a : Z -> T) (n idx : Z) :
  represents f a n -> n < 2 ^ 31 -> 0 <= idx <= n ->
  Fenwick.get zero add f idx = Done (sumf a 0 idx).
Proof.
  intros [Hlen [Hsize Hdata]] Hn Hidx. unfold Fenwick.get.
  rewrite (get_loop_spec 32 (Fenwick.data f) n idx zero a 0); try assumption; try lia.
  - rewrite add_zero_l. reflexivity.
  - destruct (Z.eq_dec idx 0) as [E | Hne]; [left; exact E | right].
    pose proof (lowbit_bounds idx ltac:(lia)). lia.
Qed.

Lemma make_spec (n : Z) :
  -1 <= n <= 2147483646 ->
  exists f, Fenwick.make zero n = Done f /\ represents f (fun _ => zero) n.
Proof.
  intros Hn. unfold Fenwick.make.
  rewrite int_bounds_Done by lia. cbn [and_then].
  unfold vnew. destruct (Z.ltb_spec (n + 1) 0); [lia |]. cbn [and_then].
  eexists. split; [reflexivity |].
  split; [reflexivity |]. cbn [Fenwick.data].
  split; [rewrite repeat_length; lia |].
  intros i Hi. rewrite sumf_zero. apply nth_repeat_lt. lia.
Qed.

Lemma upd_all_spec (us : list (Z * T)) :
  forall (f : Fenwick.t) (a : Z -> T) (n : Z),
    represents f a n -> n < 2 ^ 30 ->
    Forall (fun u => 1 <= fst u <= n) us ->
    exists f',
      Fenwick.upd_all add f us = Done f' /\
      represents f' (Fenwick.bump_all add a us) n.
Proof.
  induction us as [| [idx val] us IH]; intros f a n Hrep Hn Hall.
  - exists f. split; [reflexivity | exact Hrep].
  - inversion Hall as [| u us' Hu Hus]; subst. cbn [fst] in Hu.
    destruct (upd_spec f a n idx val Hrep Hn Hu) as [f1 [Hrun1 Hrep1]].
    destruct (IH f1 (bump a idx val) n Hrep1 Hn Hus) as [f' [Hrun Hrep']].
    exists f'. cbn [Fenwick.upd_all]. rewrite Hrun1. cbn [and_then].
    split; [exact Hrun | exact Hrep'].
Qed.

(** The sum over the positions [l..r] after the calls [us] is what it
    was before plus the values of the calls that hit [l..r]. *)
Lemma sumf_bump_all (us : list (Z * T)) :
  forall (a : Z -> T) (l r : Z),
    sumf (Fenwick.bump_all add a us) (l - 1) (r - l + 1)
    = fold_left (fun acc u => if (l <=? fst u) && (fst u <=? r)
                              then add acc (snd u) else acc)
                us (sumf a (l - 1) (r - l + 1)).
Proof.
  induction us as [| [idx val] us IH]; intros a l r; [reflexivity |].
  cbn [Fenwick.bump_all fold_left fst snd].
  change (fold_left (fun b u => bump b (fst u) (snd u)) us (bump a idx val))
    with (Fenwick.bump_all add (bump a idx val) us).
  rewrite IH. f_equal.
  destruct (Z.leb_spec l idx) as [H1 | H1];
    destruct (Z.leb_spec idx r) as [H2 | H2]; cbn [andb];
    (apply sumf_bump_in; lia) || (apply sumf_bump_out; lia).
Qed.

Lemma get_range_spec (f : Fenwick.t) (a : Z -> T) (n l r : Z) :
  represents f a n -> n < 2 ^ 31 -> 1 <= l -> l <= r + 1 -> r <= n ->
  Fenwick.get_range zero add sub f l r = Done (sumf a (l - 1) (r - l + 1)).
Proof.
  intros Hrep Hn Hl Hlr Hr. unfold Fenwick.get_range.
  assert (H31 : 2 ^ 31 = 2147483648) by reflexivity.
  rewrite (get_spec f a n r Hrep Hn) by lia. cbn [and_then].
  rewrite int_bounds_Done by lia. cbn [and_then].
  rewrite (get_spec f a n (l - 1) Hrep Hn) by lia. cbn [and_then].
  f_equal.
  replace r with ((l - 1) + (r - l + 1)) at 1 by lia.
  rewrite sumf_split by lia. rewrite Z.add_0_l. apply sub_add_l.
Qed.

(** The first [i - 1] elements of [input], then zeros. *)
Lemma build_loop_spec (fuel : nat) :
  forall (f : Fenwick.t) (input : list T) (n i : Z),
    Z.of_nat (length input) = n -> n < 2 ^ 30 ->
    1 <= i <= n + 1 -> n + 1 - i <= Z.of_nat fuel ->
    represents f (fun j => if j <? i then nth (Z.to_nat (j - 1)) input zero else zero) n ->
    exists f',
      Fenwick.build_loop add fuel f input i = Done f' /\
      represents f' (fun j => nth (Z.to_nat (j - 1)) input zero) n.
Proof.
  induction fuel as [| fuel IH]; intros f input n i Hlen Hn Hi Hfuel Hrep.
  - assert (i = n + 1) as -> by lia.
    destruct Hrep as [Hl Hrest]. simpl. rewrite Hl.
    destruct (Z.ltb_spec (n + 1) (n + 1)); [lia |].
    exists f. split; [reflexivity |].
    apply (represents_ext f (fun j => if j <? n + 1
                                      then nth (Z.to_nat (j - 1)) input zero else zero));
      [| split; assumption].
    intros j Hj. destruct (Z.ltb_spec j (n + 1)); [reflexivity | lia].
  - cbn [Fenwick.build_loop]. pose proof Hrep as [Hl _]. rewrite Hl.
    destruct (Z.ltb_spec i (n + 1)) as [Hin | Hin].
    2:{ assert (i = n + 1) as -> by lia.
        exists f. split; [reflexivity |].
        apply (represents_ext f (fun j => if j <? n + 1
                                          then nth (Z.to_nat (j - 1)) input zero else zero));
          [| exact Hrep].
        intros j Hj. destruct (Z.ltb_spec j (n + 1)); [reflexivity | lia]. }
    assert (H30 : 2 ^ 30 = 1073741824) by reflexivity.
    rewrite int_bounds_Done by lia. cbn [and_then].
    rewrite (vget_Done input (i - 1) zero) by lia. cbn [and_then].
    destruct (upd_spec f _ n i (nth (Z.to_nat (i - 1)) input zero) Hrep Hn ltac:(lia))
      as [f1 [Hrun1 Hrep1]].
    rewrite Hrun1. cbn [and_then].
    rewrite int_bounds_Done by lia. cbn [and_then].
    apply (IH f1 input n (i + 1)); try assumption; try lia.
    apply (represents_ext f1
             (bump (fun j => if j <? i then nth (Z.to_nat (j - 1)) input zero else zero)
                   i (nth (Z.to_nat (i - 1)) input zero)));
      [| exact Hrep1].
    intros j Hj. unfold Fenwick.bump.
    destruct (Z.eqb_spec j i) as [-> | Hne].
    + destruct (Z.ltb_spec i i); [lia |].
      destruct (Z.ltb_spec i (i + 1)); [| lia]. apply add_zero_l.
    + destruct (Z.ltb_spec j i); destruct (Z.ltb_spec j (i + 1)); try reflexivity; lia.
Qed.

Lemma of_vector_spec (input : list T) :
  Z.of_nat (length input) < 2 ^ 30 ->
  exists f,
    Fenwick.of_vector zero add input = Done f /\
    represents f (fun j => nth (Z.to_nat (j - 1)) input zero) (Z.of_nat (length input)).
Proof.
  intros Hn. unfold Fenwick.of_vector.
  assert (H30 : 2 ^ 30 = 1073741824) by reflexivity.
  assert (H31 : 2 ^ 31 = 2147483648) by reflexivity.
  unfold vnew. destruct (Z.ltb_spec (Z.of_nat (length input) + 1) 0); [lia |].
  cbn [and_then].
  rewrite to_int_small by lia.
  rewrite int_bounds_Done by lia. cbn [and_then].
  apply build_loop_spec; try lia.
  apply (represents_ext _ (fun _ => zero)).
  - intros j Hj. destruct (Z.ltb_spec j 1); [lia | reflexivity].
  - split; [reflexivity |]. cbn [Fenwick.data].
    split; [rewrite repeat_length; lia |].
    intros i Hi. rewrite sumf_zero. apply nth_repeat_lt. lia.
Qed.

Lemma map_nth_zseq (input : list T) (c : nat) :
  forall l, 1 <= l -> (c + Z.to_nat (l - 1) <= length input)%nat ->
    map (fun j => nth (Z.to_nat (j - 1)) input zero) (zseq l c)
    = firstn c (skipn (Z.to_nat (l - 1)) input).
Proof.
  induction c as [| c IH]; intros l Hl Hc; [reflexivity |].
  cbn [zseq map].
  rewrite (skipn_nth zero input (Z.to_nat (l - 1))) by lia.
  cbn [firstn]. f_equal.
  replace (S (Z.to_nat (l - 1))) with (Z.to_nat (l + 1 - 1)) by lia.
  apply IH; lia.
Qed.

(** Reading [sumf] off the input vector. *)
Lemma sumf_segment (input : list T) (l r : Z) :
  1 <= l -> l <= r + 1 -> r <= Z.of_nat (length input) ->
  sumf (fun j => nth (Z.to_nat (j - 1)) input zero) (l - 1) (r - l + 1)
  = Fenwick.segment_sum zero add input l r.
Proof.
  intros Hl Hlr Hr. unfold Fenwick.sumf, Fenwick.segment_sum. f_equal.
  replace (l - 1 + 1) with l by lia.
  apply map_nth_zseq; lia.
Qed.

End FenwickLaws.

(** ** [range] *)

Lemma range_cross_spec (fuel : nat) :
  forall L R i j v,
    0 < i -> L <= j -> ll_min <= L ->
    Z.of_nat (length v) = R - L + 1 -> R - L + 1 <= ll_max -> R + i <= ll_max ->
    R + 1 - j <= Z.of_nat fuel ->
    exists v',
      range_cross fuel L R i j v = Done v' /\
      length v' = length v /\
      forall k, L <= k ->
        (bit v' (k - L) = true
         <-> bit v (k - L) = true /\ ~ (j <= k <= R /\ (i | k - j))).
Proof.
  induction fuel as [| fuel IH]; intros L R i j v Hi Hj HL Hlen Hsize Hmax Hfuel.
  - simpl. destruct (Z.leb_spec j R); [lia |].
    exists v. split; [reflexivity |]. split; [reflexivity |].
    intros k Hk. split; [intros H'; split; [exact H' | lia] | tauto].
  - cbn [range_cross].
    destruct (Z.leb_spec j R) as [HjR | HjR].
    2:{ exists v. split; [reflexivity |]. split; [reflexivity |].
        intros k Hk. split; [intros H'; split; [exact H' | lia] | tauto]. }
    destruct ll_bounds as [Emin Emax].
    rewrite ll_Done by lia. cbn [and_then].
    rewrite vset_Done by lia. cbn [and_then].
    rewrite ll_Done by lia. cbn [and_then].
    destruct (IH L R i (j + i) (set_nth (Z.to_nat (j - L)) false v))
      as [v' [Hrun [Hlen' Hbits]]]; try rewrite set_nth_length; try lia.
    exists v'. split; [exact Hrun |]. split; [rewrite Hlen'; apply set_nth_length |].
    intros k Hk. rewrite (Hbits k Hk), bit_set_nth by lia.
    destruct (Z.eqb_spec (k - L) (j - L)) as [E | Hne].
    + assert (k = j) as -> by lia.
      split; [intros [H' _]; discriminate |].
      intros [_ Hnot]. exfalso. apply Hnot. split; [lia |]. exists 0. lia.
    + assert (Hshift : (i | k - (j + i)) <-> (i | k - j)).
      { split; intros [q Hq]; [exists (q + 1) | exists (q - 1)]; lia. }
      split.
      * intros [Hb Hnot]. split; [exact Hb |].
        intros [Hrange Hdiv]. apply Hnot.
        split; [| apply Hshift; exact Hdiv].
        destruct Hdiv as [q Hq]. assert (1 <= q) by nia. nia.
      * intros [Hb Hnot]. split; [exact Hb |].
        intros [Hrange Hdiv]. apply Hnot.
        split; [lia | apply Hshift; exact Hdiv].
Qed.

(** Where the crossing out for [i] starts: at a multiple of [i], not
    below [L] nor [i * i], and not above any multiple of [i] that is at
    least [L] and [i * i]. *)
Lemma range_start_spec (L i : Z) :
  2 <= i <= 3037000499 -> ll_min <= L -> L + i <= ll_max ->
  exists j,
    range_start L i = Done j /\
    (i | j) /\ L <= j /\ i * i <= j /\
    (L <= 0 -> j = i * i) /\
    (forall k, L <= k -> (i | k) -> i * i <= k -> j <= k).
Proof.
  intros Hi HL Hmax. unfold range_start.
  destruct ll_bounds as [Emin Emax].
  rewrite ll_Done by nia. cbn [and_then].
  rewrite ll_Done by lia. cbn [and_then].
  rewrite ll_Done by lia. cbn [and_then].
  unfold ll_div. destruct (Z.eqb_spec i 0); [lia |].
  destruct (Z_le_gt_dec 0 (L + i - 1)) as [Hpos | Hneg].
  - rewrite Z.quot_div_nonneg by lia.
    pose proof (Z.div_mod (L + i - 1) i ltac:(lia)) as Hdm.
    pose proof (Z.mod_pos_bound (L + i - 1) i ltac:(lia)) as Hr.
    assert (Hq0 : 0 <= (L + i - 1) / i) by (apply Z.div_pos; lia).
    assert (Hqle : (L + i - 1) / i <= L + i - 1)
      by (apply Z.div_le_upper_bound; nia).
    rewrite ll_Done by lia. cbn [and_then].
    rewrite ll_Done by nia. cbn [and_then].
    eexists. split; [reflexivity |].
    set (m := (L + i - 1) / i * i).
    assert (Hm : L <= m <= L + i - 1) by (unfold m; nia).
    split.
    { destruct (Z.max_spec (i * i) m) as [[_ ->] | [_ ->]];
        [exists ((L + i - 1) / i); reflexivity | exists i; reflexivity]. }
    split; [lia |]. split; [lia |].
    split.
    { intros HL0. assert (m <= i - 1) by lia.
      assert (m <= i * i) by nia. lia. }
    intros k Hk [t Ht] Hsq.
    assert (m <= k).
    { subst k. unfold m.
      apply Z.mul_le_mono_nonneg_r; [lia |].
      assert ((L + i - 1) / i < t + 1)
        by (apply Z.div_lt_upper_bound; [lia | nia]).
      lia. }
    lia.
  - (* negative numerator: the quotient rounds towards zero *)
    assert (Hq : Z.quot (L + i - 1) i = - ((- (L + i - 1)) / i)).
    { rewrite <- (Z.opp_involutive (L + i - 1)) at 1.
      rewrite Z.quot_opp_l by lia. rewrite Z.quot_div_nonneg by lia. reflexivity. }
    rewrite Hq.
    assert (Hd0 : 0 <= (- (L + i - 1)) / i) by (apply Z.div_pos; lia).
    assert (Hdle : (- (L + i - 1)) / i <= - (L + i - 1))
      by (apply Z.div_le_upper_bound; nia).
    pose proof (Z.mul_div_le (- (L + i - 1)) i ltac:(lia)) as Hmd.
    rewrite ll_Done by lia. cbn [and_then].
    rewrite ll_Done by nia. cbn [and_then].
    eexists. split; [reflexivity |].
    assert (Hm0 : - ((- (L + i - 1)) / i) * i <= 0) by nia.
    rewrite Z.max_l by nia.
    split; [exists i; reflexivity |].
    split; [nia |]. split; [lia |].
    split; [reflexivity |].
    intros k _ _ Hsq. exact Hsq.
Qed.

Lemma range_marks_spec (L R : Z) (ps : list Z) :
  forall v,
    Forall (fun p => 2 <= p <= 3037000499) ps ->
    ll_min <= L -> L <= R ->
    Z.of_nat (length v) = R - L + 1 -> R - L + 1 <= ll_max ->
    R + 3037000499 <= ll_max ->
    exists v',
      range_marks L R ps v = Done v' /\
      length v' = length v /\
      forall k, L <= k <= R ->
        (bit v' (k - L) = true
         <-> bit v (k - L) = true /\
             forall p, In p ps -> ~ ((p | k) /\ Z.max (p * p) (if L <=? 0 then p * p else L) <= k)).
Proof.
  induction ps as [| p ps IH]; intros v Hps HL HLR Hlen Hsize Hmax.
  - exists v. split; [reflexivity |]. split; [reflexivity |].
    intros k Hk. split; [intros H; split; [exact H | intros p []] | tauto].
  - inversion Hps as [| p' ps' Hp Hps']; subst.
    cbn [range_marks].
    destruct (range_start_spec L p Hp HL ltac:(lia))
      as [j [Hstart [Hdiv [HLj [Hsq [Hneg Hleast]]]]]].
    rewrite Hstart. cbn [and_then].
    destruct (range_cross_spec (length v) L R p j v) as [v1 [Hrun [Hlen1 Hbits1]]];
      try lia.
    rewrite Hrun. cbn [and_then].
    destruct (IH v1 Hps' HL HLR) as [v' [Hrun' [Hlen' Hbits']]]; try lia.
    exists v'. split; [exact Hrun' |]. split; [lia |].
    intros k Hk. rewrite (Hbits' k Hk), (Hbits1 k) by lia.
    assert (Hmark : (j <= k <= R /\ (p | k - j))
                    <-> ((p | k) /\ Z.max (p * p) (if L <=? 0 then p * p else L) <= k)).
    { assert (Hpk : (p | k - j) <-> (p | k)).
      { destruct Hdiv as [c Hc]. split; intros [q Hq];
          [exists (q + c) | exists (q - c)]; lia. }
      rewrite Hpk.
      destruct (Z.leb_spec L 0) as [HL0 | HL0].
      - rewrite Hneg by lia. rewrite Z.max_id. intuition lia.
      - split.
        + intros [Hr Hd]. split; [exact Hd | lia].
        + intros [Hd Hm]. split; [| exact Hd].
          split; [apply Hleast; [lia | exact Hd | lia] | lia]. }
    rewrite Hmark. cbn [In]. split.
    + intros [[Hb Hn] Hrest]. split; [exact Hb |].
      intros q [<- | Hq]; [exact Hn | apply Hrest; exact Hq].
    + intros [Hb Hall]. split; [split; [exact Hb | apply Hall; left; reflexivity] |].
      intros q Hq. apply Hall. right. exact Hq.
Qed.

Lemma range_collect_spec (fuel : nat) :
  forall L R i v ps,
    ll_min <= L -> Z.of_nat (length v) = R - L + 1 -> R - L + 1 <= ll_max ->
    L <= R + 1 -> R < ll_max ->
    0 <= i <= R - L + 1 -> R - L + 1 - i <= Z.of_nat fuel ->
    range_collect fuel L R i v ps
    = Done (ps ++ filter (fun x => bit v (x - L))
                         (zseq (L + i) (Z.to_nat (R - L + 1 - i)))).
Proof.
  induction fuel as [| fuel IH]; intros L R i v ps HL Hlen Hsize HLR HR Hi Hfuel;
    destruct ll_bounds as [Emin Emax].
  - assert (i = R - L + 1) as -> by lia.
    cbn [range_collect]. rewrite ll_Done by lia. cbn [and_then].
    rewrite ll_Done by lia. cbn [and_then].
    destruct (Z.ltb_spec (R - L + 1) (R - L + 1)); [lia |].
    rewrite Z.sub_diag. simpl. rewrite app_nil_r. reflexivity.
  - cbn [range_collect]. rewrite ll_Done by lia. cbn [and_then].
    rewrite ll_Done by lia. cbn [and_then].
    destruct (Z.ltb_spec i (R - L + 1)) as [Hin | Hin].
    2:{ assert (i = R - L + 1) as -> by lia.
        rewrite Z.sub_diag. simpl. rewrite app_nil_r. reflexivity. }
    rewrite (vget_Done v i false) by lia. cbn [and_then].
    replace (Z.to_nat (R - L + 1 - i)) with (S (Z.to_nat (R - L + 1 - (i + 1)))) by lia.
    rewrite zseq_succ. cbn [filter].
    replace (L + i - L) with i by lia. fold (bit v i).
    destruct (bit v i).
    + rewrite ll_Done by lia. cbn [and_then].
      rewrite ll_Done by lia. cbn [and_then].
      rewrite IH by lia. rewrite <- app_assoc. cbn [app].
      replace (i + L) with (L + i) by lia.
      replace (L + (i + 1)) with (L + i + 1) by lia. reflexivity.
    + cbn [and_then]. rewrite ll_Done by lia. cbn [and_then].
      rewrite IH by lia.
      replace (L + (i + 1)) with (L + i + 1) by lia. reflexivity.
Qed.

(** What [range] returns, whatever [L]: the table [is_prime] after the
    crossing out and the guard for [L == 1], and [primes] read off it. *)
Lemma range_run (sqrt_ll : Z -> Z) (L R : Z) (g : globals) :
  1 <= sqrt_ll R <= 3037000499 ->
  ll_min <= L -> L <= R -> R - L + 1 <= ll_max -> R + 3037000499 <= ll_max ->
  exists v,
    range sqrt_ll L R g
    = Done {| primes := filter (fun x => bit v (x - L)) (zseq L (Z.to_nat (R - L + 1)));
              spf := spf g; is_prime := v |} /\
    Z.of_nat (length v) = R - L + 1 /\
    forall k, L <= k <= R ->
      (bit v (k - L) = true
       <-> (L = 1 -> k <> 1) /\
           forall p, Z.prime p -> p <= sqrt_ll R ->
                     ~ ((p | k) /\ Z.max (p * p) (if L <=? 0 then p * p else L) <= k)).
Proof.
  intros Hroot HL HLR Hsize Hmax. unfold range. cbv zeta.
  destruct ll_bounds as [Emin Emax].
  destruct (sieve_correct (sqrt_ll R) g Hroot) as [vs [Hsieve _]].
  rewrite Hsieve. cbn [and_then primes spf].
  rewrite ll_Done by lia. cbn [and_then].
  rewrite ll_Done by lia. cbn [and_then].
  unfold vnew. destruct (Z.ltb_spec (R - L + 1) 0); [lia |]. cbn [and_then].
  set (v0 := repeat true (Z.to_nat (R - L + 1))).
  assert (Hl0 : Z.of_nat (length v0) = R - L + 1).
  { unfold v0. rewrite repeat_length. lia. }
  destruct (range_marks_spec L R (primes_upto (sqrt_ll R)) v0)
    as [v1 [Hrun1 [Hlen1 Hbits1]]]; try lia.
  { apply Forall_forall. intros p Hp. apply primes_upto_In in Hp.
    destruct Hp as [Hp Hle]. apply Z.prime_ge_2 in Hp. lia. }
  rewrite Hrun1. cbn [and_then].
  assert (Hv1 : forall k, L <= k <= R ->
            (bit v1 (k - L) = true
             <-> forall p, Z.prime p -> p <= sqrt_ll R ->
                   ~ ((p | k) /\ Z.max (p * p) (if L <=? 0 then p * p else L) <= k))).
  { intros k Hk. rewrite (Hbits1 k Hk).
    unfold v0. rewrite bit_repeat by lia.
    split.
    - intros [_ Hnone] p Hp Hle. apply Hnone. apply primes_upto_In. tauto.
    - intros Hnone. split; [reflexivity |].
      intros p Hp. apply primes_upto_In in Hp. apply Hnone; tauto. }
  destruct (Z.eqb_spec L 1) as [EL | NL].
  - subst L. rewrite vset_Done by lia. cbn [and_then].
    rewrite range_collect_spec; try rewrite set_nth_length; try lia.
    cbn [and_then]. rewrite Z.sub_0_r, Z.add_0_r.
    eexists. split; [reflexivity |].
    split; [rewrite set_nth_length; lia |].
    intros k Hk. rewrite bit_set_nth by lia.
    destruct (Z.eqb_spec (k - 1) 0) as [E | Hne].
    + split; [discriminate | intros [H1 _]; specialize (H1 eq_refl); lia].
    + rewrite (Hv1 k Hk). split; [intros Hp; split; [lia | exact Hp] | tauto].
  - cbn [and_then].
    rewrite range_collect_spec; try lia.
    cbn [and_then]. rewrite Z.sub_0_r, Z.add_0_r.
    eexists. split; [reflexivity |]. split; [lia |].
    intros k Hk. rewrite (Hv1 k Hk).
    split; [intros Hp; split; [intros E; contradiction | exact Hp] | tauto].
Qed.

(** ** The sieve of [src/math/sieve.cc] *)

Lemma sieve_cc_cross_spec (fuel : nat) :
  forall N i j t,
    0 < i < 2 ^ 31 -> 0 <= j -> N < Z.of_nat (length t) -> N + i <= ll_max ->
    N + 1 - j <= Z.of_nat fuel ->
    exists t',
      SieveCc.sieve_cross fuel N i j t = Done t' /\
      length t' = length t /\
      forall k, 0 <= k ->
        entry t' k = if (j <=? k) && (k <=? N) && ((k - j) mod i =? 0)
                        && (entry t k =? -1)
                     then i else entry t k.
Proof.
  induction fuel as [| fuel IH]; intros N i j t Hi Hj HN Hmax Hfuel.
  - simpl. destruct (Z.leb_spec j N); [lia |].
    exists t. split; [reflexivity |]. split; [reflexivity |].
    intros k Hk. destruct (Z.leb_spec j k); destruct (Z.leb_spec k N);
      cbn [andb]; try reflexivity; lia.
  - cbn [SieveCc.sieve_cross].
    destruct (Z.leb_spec j N) as [HjN | HjN].
    2:{ exists t. split; [reflexivity |]. split; [reflexivity |].
        intros k Hk. destruct (Z.leb_spec j k); destruct (Z.leb_spec k N);
          cbn [andb]; try reflexivity; lia. }
    destruct ll_bounds as [Emin Emax].
    rewrite (vget_Done t j 0) by lia. cbn [and_then]. fold (entry t j).
    rewrite to_int_small by lia.
    assert (Hstep : exists t1,
               (if entry t j =? -1 then vset t j i else Done t) = Done t1 /\
               length t1 = length t /\
               forall k, 0 <= k ->
                 entry t1 k = if (k =? j) && (entry t k =? -1) then i else entry t k).
    { destruct (Z.eqb_spec (entry t j) (-1)) as [E | NE].
      - rewrite vset_Done by lia. eexists. split; [reflexivity |].
        split; [apply set_nth_length |].
        intros k Hk. rewrite entry_set_nth by lia.
        destruct (Z.eqb_spec k j) as [-> | _]; cbn [andb]; [| reflexivity].
        rewrite E. reflexivity.
      - exists t. split; [reflexivity |]. split; [reflexivity |].
        intros k Hk. destruct (Z.eqb_spec k j) as [-> | _]; cbn [andb]; [| reflexivity].
        destruct (Z.eqb_spec (entry t j) (-1)); [contradiction | reflexivity]. }
    destruct Hstep as [t1 [-> [Hlen1 Hent1]]]. cbn [and_then].
    rewrite ll_Done by lia. cbn [and_then].
    destruct (IH N i (j + i) t1) as [t' [Hrun [Hlen' Hent']]]; try lia.
    exists t'. split; [exact Hrun |]. split; [lia |].
    intros k Hk. rewrite (Hent' k Hk), (Hent1 k Hk).
    destruct (Z.eqb_spec k j) as [-> | Hne]; cbn [andb].
    + destruct (Z.leb_spec (j + i) j); [lia |]. cbn [andb].
      rewrite Z.leb_refl. destruct (Z.leb_spec j N); [| lia]. cbn [andb].
      rewrite Z.sub_diag, Z.mod_0_l by lia. reflexivity.
    + assert (Hmod : (k - (j + i)) mod i = (k - j) mod i).
      { replace (k - (j + i)) with (k - j + (-1) * i) by ring.
        apply Z.mod_add. lia. }
      rewrite Hmod.
      destruct (Z.leb_spec (j + i) k) as [H1 | H1];
        destruct (Z.leb_spec j k) as [H2 | H2]; cbn [andb]; try reflexivity; try lia.
      destruct (Z.leb_spec k N); cbn [andb]; [| reflexivity].
      destruct (Z.eqb_spec ((k - j) mod i) 0) as [E | _]; cbn [andb]; [| reflexivity].
      exfalso.
      assert (Hr : 0 < k - j < i) by lia.
      rewrite Z.mod_small in E by lia. lia.
Qed.

Lemma sieve_cc_loop_spec (fuel : nat) :
  forall N i ps t,
    2 <= i <= N + 1 -> N < 2 ^ 31 ->
    Z.of_nat (length t) = N + 1 ->
    N + 1 - i <= Z.of_nat fuel ->
    (forall k, 0 <= k <= N ->
               entry t k = if (2 <=? k) && (lpf k <? i) then lpf k else -1) ->
    exists t',
      SieveCc.sieve_loop fuel N i ps t
      = Done (ps ++ filter trial_division (zseq i (Z.to_nat (N + 1 - i))), t') /\
      Z.of_nat (length t') = N + 1 /\
      (forall k, 0 <= k <= N -> entry t' k = if 2 <=? k then lpf k else -1).
Proof.
  assert (H31 : 2 ^ 31 = 2147483648) by reflexivity.
  induction fuel as [| fuel IH]; intros N i ps t Hi HN Hlen Hfuel Hinv.
  - assert (i = N + 1) as -> by lia.
    simpl. destruct (Z.leb_spec (N + 1) N); [lia |].
    rewrite Z.sub_diag. simpl. rewrite app_nil_r.
    exists t. split; [reflexivity |]. split; [exact Hlen |].
    intros k Hk. rewrite (Hinv k Hk).
    destruct (Z.leb_spec 2 k); [| reflexivity]. cbn [andb].
    destruct (lpf_spec k ltac:(lia)) as [Hr _].
    destruct (Z.ltb_spec (lpf k) (N + 1)); [reflexivity | lia].
  - cbn [SieveCc.sieve_loop].
    destruct (Z.leb_spec i N) as [HiN | HiN].
    2:{ assert (i = N + 1) as -> by lia.
        rewrite Z.sub_diag. simpl. rewrite app_nil_r.
        exists t. split; [reflexivity |]. split; [exact Hlen |].
        intros k Hk. rewrite (Hinv k Hk).
        destruct (Z.leb_spec 2 k); [| reflexivity]. cbn [andb].
        destruct (lpf_spec k ltac:(lia)) as [Hr _].
        destruct (Z.ltb_spec (lpf k) (N + 1)); [reflexivity | lia]. }
    destruct ll_bounds as [Emin Emax].
    assert (Hi2 : 2 <= i) by lia.
    destruct (lpf_spec i Hi2) as [Hlr _].
    pose proof (lpf_self_prime i Hi2) as Hself.
    pose proof (trial_division_prime i) as Htd.
    rewrite (vget_Done t i 0) by lia. cbn [and_then]. fold (entry t i).
    rewrite (Hinv i ltac:(lia)).
    destruct (Z.leb_spec 2 i); [| lia]. cbn [andb].
    replace (Z.to_nat (N + 1 - i)) with (S (Z.to_nat (N + 1 - (i + 1)))) by lia.
    rewrite zseq_succ. cbn [filter].
    destruct (Z.ltb_spec (lpf i) i) as [Hcomp | Hprime].
    + (* composite: nothing to do *)
      destruct (Z.eqb_spec (lpf i) (-1)); [lia |]. cbn [and_then fst snd].
      assert (Ht : trial_division i = false).
      { destruct (trial_division i); [| reflexivity].
        assert (lpf i = i) by tauto. lia. }
      rewrite Ht. rewrite ll_Done by lia. cbn [and_then].
      apply IH; try lia.
      intros k Hk. rewrite (Hinv k Hk).
      destruct (Z.leb_spec 2 k); [| reflexivity]. cbn [andb].
      destruct (Z.ltb_spec (lpf k) i); destruct (Z.ltb_spec (lpf k) (i + 1));
        try reflexivity; try lia.
      exfalso. assert (E : lpf k = i) by lia.
      pose proof (lpf_prime k ltac:(lia)) as Hp. rewrite E in Hp.
      apply Hself in Hp. lia.
    + assert (Hli : lpf i = i) by lia.
      assert (Ht : trial_division i = true) by tauto.
      rewrite Ht. cbn [Z.eqb Pos.eqb].
      rewrite to_int_small by lia.
      rewrite vset_Done by lia. cbn [and_then].
      rewrite ll_Done by nia. cbn [and_then].
      destruct (sieve_cc_cross_spec (Z.to_nat N) N i (i * i)
                  (set_nth (Z.to_nat i) i t))
        as [t2 [Hrun [Hlen2 Hent2]]]; try rewrite set_nth_length; try nia.
      rewrite set_nth_length in Hlen2.
      rewrite Hrun. cbn [and_then fst snd].
      rewrite ll_Done by lia. cbn [and_then].
      destruct (IH N (i + 1) (ps ++ [i]) t2) as [t' [Hrun' [Hlen' Hinv']]];
        try lia.
      * intros k Hk. rewrite (Hent2 k) by lia.
        rewrite entry_set_nth by lia.
        rewrite (Hinv k Hk).
        destruct (Z.eqb_spec k i) as [-> | Hki].
        { (* the prime itself *)
          destruct (Z.leb_spec (i * i) i); [nia |]. cbn [andb].
          destruct (Z.leb_spec 2 i); [| lia]. cbn [andb].
          destruct (Z.ltb_spec (lpf i) (i + 1)); [| lia]. lia. }
        destruct (Z.leb_spec 2 k) as [Hk2 | Hk2]; cbn [andb].
        2:{ destruct (Z.leb_spec (i * i) k); [nia | reflexivity]. }
        destruct (lpf_spec k Hk2) as [Hkr [Hkd Hkmin]].
        destruct (Z.ltb_spec (lpf k) i) as [Hlt | Hge].
        { (* settled before *)
          destruct (Z.ltb_spec (lpf k) (i + 1)); [| lia].
          destruct (Z.eqb_spec (lpf k) (-1)); [lia |].
          rewrite andb_false_r. reflexivity. }
        rewrite Z.eqb_refl, andb_true_r.
        destruct (Z.ltb_spec (lpf k) (i + 1)) as [Hl1 | Hl1].
        { (* least prime factor [i]: crossed out in this round *)
          assert (E : lpf k = i) by lia.
          assert (Hne : lpf k <> k) by lia.
          destruct (lpf_cofactor k Hk2 Hne) as [Hkc [Hc Hlc]].
          rewrite E in Hkc, Hc, Hlc.
          destruct (lpf_spec (k / i) ltac:(lia)) as [Hcr _].
          destruct (Z.leb_spec (i * i) k); [| nia].
          destruct (Z.leb_spec k N); [| lia]. cbn [andb].
          assert (Hm : (k - i * i) mod i = 0).
          { rewrite Hkc at 1.
            replace (k / i * i - i * i) with ((k / i - i) * i) by ring.
            apply Z.mod_mul. lia. }
          rewrite Hm. cbn [Z.eqb]. lia. }
        (* least prime factor above [i]: not a multiple of [i] *)
        destruct (Z.leb_spec (i * i) k); cbn [andb]; [| reflexivity].
        destruct (Z.leb_spec k N); cbn [andb]; [| reflexivity].
        destruct (Z.eqb_spec ((k - i * i) mod i) 0) as [Em | _]; [| reflexivity].
        exfalso.
        assert (Hik : (i | k)).
        { apply Z.mod_divide in Em; [| lia].
          destruct Em as [q Hq]. exists (q + i). lia. }
        specialize (Hkmin i Hi2 Hik). lia.
      * exists t'. rewrite Hrun', <- app_assoc. cbn [app].
        split; [reflexivity |]. split; assumption.
Qed.

Lemma sieve_cc_correct (N : Z) (g : SieveCc.globals) :
  -1 <= N < 2 ^ 31 ->
  exists t,
    SieveCc.sieve N g = Done {| SieveCc.primes := primes_upto N; SieveCc.spf := t |} /\
    Z.of_nat (length t) = N + 1 /\
    (forall k, 0 <= k <= N -> entry t k = if 2 <=? k then lpf k else -1).
Proof.
  assert (H31 : 2 ^ 31 = 2147483648) by reflexivity.
  intros HN. unfold SieveCc.sieve.
  destruct ll_bounds as [Emin Emax].
  rewrite ll_Done by lia. cbn [and_then].
  unfold vnew. destruct (Z.ltb_spec (N + 1) 0); [lia |]. cbn [and_then].
  set (t0 := repeat (-1) (Z.to_nat (N + 1))).
  assert (Hl0 : Z.of_nat (length t0) = N + 1).
  { unfold t0. rewrite repeat_length. lia. }
  assert (Ht0 : forall k, 0 <= k <= N -> entry t0 k = -1).
  { intros k Hk. unfold t0, entry. apply nth_repeat_lt. lia. }
  destruct (Z_le_gt_dec 1 N) as [H1 | H1].
  - destruct (sieve_cc_loop_spec (Z.to_nat N) N 2 [] t0) as [t' [Hrun [Hl' Hinv']]];
      try assumption; try lia.
    + intros k Hk. rewrite (Ht0 k Hk).
      destruct (Z.leb_spec 2 k); [| reflexivity]. cbn [andb].
      destruct (lpf_spec k ltac:(lia)) as [Hr _].
      destruct (Z.ltb_spec (lpf k) 2); [lia | reflexivity].
    + rewrite Hrun. cbn [and_then fst snd app].
      replace (N + 1 - 2) with (N - 1) by lia.
      exists t'. split; [reflexivity |]. split; assumption.
  - assert (Hloop : SieveCc.sieve_loop (Z.to_nat N) N 2 [] t0 = Done ([], t0)).
    { destruct (Z.to_nat N); simpl; destruct (Z.leb_spec 2 N); try lia; reflexivity. }
    rewrite Hloop. cbn [and_then fst snd].
    assert (Hnil : primes_upto N = []).
    { unfold primes_upto. replace (Z.to_nat (N - 1)) with 0%nat by lia. reflexivity. }
    rewrite Hnil. exists t0. split; [reflexivity |]. split; [exact Hl0 |].
    intros k Hk. destruct (Z.leb_spec 2 k); [lia |]. apply Ht0. exact Hk.
Qed.

Lemma int_div_Done (a b : Z) :
  0 <= a < 2 ^ 31 -> 0 < b -> int_div a b = Done (a / b).
Proof.
  intros Ha Hb. unfold int_div.
  assert (H31 : 2 ^ 31 = 2147483648) by reflexivity.
  destruct (Z.eqb_spec b 0); [lia |].
  rewrite Z.quot_div_nonneg by lia.
  apply int_Done.
  assert (0 <= a / b) by (apply Z.div_pos; lia).
  assert (a / b <= a) by (apply Z.div_le_upper_bound; nia).
  lia.
Qed.

Lemma get_pfs_correct (N x : Z) (g : SieveCc.globals) :
  spf_table N (SieveCc.spf g) -> N < 2 ^ 31 -> 2 <= x <= N ->
  exists l,
    SieveCc.get_pfs x g = Done l /\ pf_product l = x /\ pf_canonical l.
Proof.
  intros Ht HN Hx. unfold SieveCc.get_pfs.
  assert (H31 : 2 ^ 31 = 2147483648) by reflexivity.
  pose proof Ht as [Hlen Htab].
  rewrite (vget_Done (SieveCc.spf g) x 0) by lia. cbn [and_then].
  fold (entry (SieveCc.spf g) x). rewrite (Htab x Hx).
  destruct (pf_loop_spec int_div 32 N (SieveCc.spf g) x (lpf x) 0 [])
    as [c [rest [Hrun [Hc [Hc1 [Hprod [[Hsort Hall] Hgt]]]]]]];
    try assumption; try lia.
  - intros a b Ha Hb. apply int_div_Done; lia.
  - apply lpf_prime. lia.
  - cbn [app] in Hrun. exists ((lpf x, c) :: rest).
    split; [exact Hrun |]. rewrite Z.sub_0_r in Hprod.
    split; [exact Hprod |].
    split.
    + cbn [map fst]. constructor; [exact Hsort | apply Forall_map; exact Hgt].
    + constructor; [| exact Hall].
      cbn [fst snd]. split; [apply lpf_prime; lia | exact Hc1].
Qed.

(** ** The linear sieve of [src/math/isieve.cc] *)

Lemma ll_inv (x y : Z) : ll x = Done y -> y = x.
Proof.
  unfold ll. destruct ((ll_min <=? x) && (x <=? ll_max)); congruence.
Qed.

Lemma vset_inv {T : Type} (v v' : list T) (j : Z) (x : T) :
  vset v j x = Done v' ->
  0 <= j < Z.of_nat (length v) /\ v' = set_nth (Z.to_nat j) x v.
Proof.
  unfold vset.
  destruct (Z.leb_spec 0 j); cbn [andb]; [| discriminate].
  destruct (Z.ltb_spec j (Z.of_nat (length v))); [| discriminate].
  intros E. split; [lia | congruence].
Qed.

Lemma set_nth_same {T : Type} (n : nat) (x d : T) (v : list T) :
  (n < length v)%nat -> nth n v d = x -> set_nth n x v = v.
Proof.
  revert n. induction v as [| y v IH]; intros [| n] Hn E; simpl in *; try lia.
  - congruence.
  - rewrite IH; [reflexivity | lia | exact E].
Qed.

Lemma vresize_nil {T : Type} (n : Z) (x : T) :
  0 <= n -> vresize [] n x = Done (repeat x (Z.to_nat n)).
Proof.
  intros Hn. unfold vresize. destruct (Z.ltb_spec n 0); [lia |].
  rewrite firstn_nil, Nat.sub_0_r. reflexivity.
Qed.

Lemma vresize_same {T : Type} (v : list T) (n : Z) (x : T) :
  Z.of_nat (length v) = n -> vresize v n x = Done v.
Proof.
  intros Hn. unfold vresize. destruct (Z.ltb_spec n 0); [lia |].
  replace (Z.to_nat n) with (length v) by lia.
  rewrite firstn_all, Nat.sub_diag. cbn [repeat]. rewrite app_nil_r. reflexivity.
Qed.

(** The inner loop does on [spf] what the one of [spf_sieve] does, and
    keeps [is_prime[k]] equal to [spf[k] == 0 || spf[k] == k]. *)
Lemma isieve_inner_sim (fuel : nat) :
  forall N i j ps t v t',
    2 <= i <= N -> N < 2 ^ 31 - 1 -> 0 <= j ->
    Z.of_nat (length ps) < 2 ^ 31 - 1 ->
    Forall (fun p => 2 <= p) ps ->
    Z.of_nat (length t) = N + 1 -> length v = length t ->
    (forall k, 2 <= k <= N -> bit v k = (entry t k =? 0) || (entry t k =? k)) ->
    spf_inner fuel N i j ps t = Done t' ->
    exists v',
      ISieveCc.sieve_inner fuel N i j ps t v = Done (t', v') /\
      length v' = length v /\
      (forall k, 0 <= k <= 1 -> bit v' k = bit v k) /\
      (forall k, 2 <= k <= N -> bit v' k = (entry t' k =? 0) || (entry t' k =? k)).
Proof.
  assert (H31 : 2 ^ 31 = 2147483648) by reflexivity.
  induction fuel as [| fuel IH];
    intros N i j ps t v t' Hi HN Hj Hlps Hge Hlen Hlv HJ Hrun.
  - cbn [spf_inner] in Hrun. cbn [ISieveCc.sieve_inner].
    rewrite to_int_small by lia.
    destruct (Z.ltb_spec j (Z.of_nat (length ps))) as [Hin | Hout].
    2:{ injection Hrun as <-. exists v. repeat split; auto. }
    rewrite (vget_Done ps j 0) in Hrun |- * by lia. cbn [and_then] in Hrun |- *.
    rewrite (vget_Done t i 0) in Hrun |- * by lia. cbn [and_then] in Hrun |- *.
    destruct (Z.leb_spec (nth (Z.to_nat j) ps 0) (nth (Z.to_nat i) t 0)).
    2:{ injection Hrun as <-. exists v. repeat split; auto. }
    destruct (ll (i * nth (Z.to_nat j) ps 0)) as [ip | |];
      cbn [and_then] in Hrun |- *; try discriminate.
    destruct (Z.leb_spec ip N); [discriminate |].
    injection Hrun as <-. exists v. repeat split; auto.
  - cbn [spf_inner] in Hrun. cbn [ISieveCc.sieve_inner].
    rewrite to_int_small by lia.
    destruct (Z.ltb_spec j (Z.of_nat (length ps))) as [Hin | Hout].
    2:{ injection Hrun as <-. exists v. repeat split; auto. }
    rewrite (vget_Done ps j 0) in Hrun |- * by lia. cbn [and_then] in Hrun |- *.
    rewrite (vget_Done t i 0) in Hrun |- * by lia. cbn [and_then] in Hrun |- *.
    set (pj := nth (Z.to_nat j) ps 0) in *.
    assert (Hpj2 : 2 <= pj).
    { rewrite Forall_forall in Hge. apply Hge. apply nth_In. lia. }
    destruct (Z.leb_spec pj (nth (Z.to_nat i) t 0)).
    2:{ injection Hrun as <-. exists v. repeat split; auto. }
    destruct (ll (i * pj)) as [ip | |] eqn:Ell;
      cbn [and_then] in Hrun |- *; try discriminate.
    apply ll_inv in Ell. subst ip.
    destruct (Z.leb_spec (i * pj) N) as [HipN | HipN].
    2:{ injection Hrun as <-. exists v. repeat split; auto. }
    apply and_then_Done in Hrun. destruct Hrun as [t1 [Evs Hrun]].
    pose proof (vset_inv _ _ _ _ Evs) as [Hidx ->].
    destruct ll_bounds as [Emin Emax].
    rewrite ll_Done in Hrun by lia. cbn [and_then] in Hrun.
    rewrite int_Done by nia. cbn [and_then].
    rewrite vset_Done by lia. cbn [and_then].
    rewrite Evs. cbn [and_then].
    rewrite int_Done by lia. cbn [and_then].
    destruct (IH N i (j + 1) ps (set_nth (Z.to_nat (i * pj)) pj t)
                (set_nth (Z.to_nat (i * pj)) false v) t')
      as [v' [Hrun' [Hlv' [Hlow HJ']]]]; try assumption; try lia.
    + rewrite set_nth_length. exact Hlen.
    + rewrite !set_nth_length. exact Hlv.
    + intros k Hk. rewrite bit_set_nth, entry_set_nth by lia.
      destruct (Z.eqb_spec k (i * pj)) as [E | _]; [| apply HJ; exact Hk].
      destruct (Z.eqb_spec pj 0); [lia |].
      destruct (Z.eqb_spec pj k); [nia | reflexivity].
    + exists v'. split; [exact Hrun' |].
      split; [rewrite Hlv', set_nth_length; reflexivity |].
      split; [| exact HJ'].
      intros k Hk. rewrite (Hlow k Hk), bit_set_nth by lia.
      destruct (Z.eqb_spec k (i * pj)); [nia | reflexivity].
Qed.

Lemma isieve_loop_spec (fuel : nat) :
  forall N i ps t v,
    2 <= i <= N + 1 -> N < 2 ^ 31 - 1 ->
    Z.of_nat (length t) = N + 1 -> length v = length t ->
    N + 1 - i <= Z.of_nat fuel ->
    ps = primes_upto (i - 1) ->
    (forall k, 0 <= k <= N ->
               entry t k = if (2 <=? k) && (writer k <? i) then lpf k else 0) ->
    (forall k, 2 <= k <= N -> bit v k = (entry t k =? 0) || (entry t k =? k)) ->
    exists t' v',
      ISieveCc.sieve_loop fuel N i ps t v = Done (primes_upto N, t', v') /\
      Z.of_nat (length t') = N + 1 /\ length v' = length t' /\
      (forall k, 0 <= k <= N -> entry t' k = if 2 <=? k then lpf k else 0) /\
      (forall k, 0 <= k <= 1 -> bit v' k = bit v k) /\
      (forall k, 2 <= k <= N -> bit v' k = (lpf k =? k)).
Proof.
  assert (H31 : 2 ^ 31 = 2147483648) by reflexivity.
  assert (Hstop : forall N ps t v,
             Z.of_nat (length t) = N + 1 -> length v = length t ->
             ps = primes_upto (N + 1 - 1) ->
             (forall k, 0 <= k <= N ->
                entry t k = if (2 <=? k) && (writer k <? N + 1) then lpf k else 0) ->
             (forall k, 2 <= k <= N -> bit v k = (entry t k =? 0) || (entry t k =? k)) ->
             exists t' v',
               Done (ps, t, v) = Done (primes_upto N, t', v') /\
               Z.of_nat (length t') = N + 1 /\ length v' = length t' /\
               (forall k, 0 <= k <= N -> entry t' k = if 2 <=? k then lpf k else 0) /\
               (forall k, 0 <= k <= 1 -> bit v' k = bit v k) /\
               (forall k, 2 <= k <= N -> bit v' k = (lpf k =? k))).
  { intros N ps t v Hlen Hlv Hps Hinv HJ.
    replace (N + 1 - 1) with N in Hps by lia. subst ps.
    assert (Hfin : forall k, 0 <= k <= N -> entry t k = if 2 <=? k then lpf k else 0).
    { intros k Hk. rewrite (Hinv k Hk).
      destruct (Z.leb_spec 2 k); [| reflexivity].
      pose proof (writer_bounds k ltac:(lia)).
      destruct (Z.ltb_spec (writer k) (N + 1)); [reflexivity | lia]. }
    exists t, v. split; [reflexivity |]. split; [exact Hlen |].
    split; [exact Hlv |]. split; [exact Hfin |]. split; [reflexivity |].
    intros k Hk. rewrite (HJ k Hk), (Hfin k ltac:(lia)).
    destruct (Z.leb_spec 2 k); [| lia].
    destruct (lpf_spec k ltac:(lia)) as [Hr _].
    destruct (Z.eqb_spec (lpf k) 0); [lia | reflexivity]. }
  induction fuel as [| fuel IH]; intros N i ps t v Hi HN Hlen Hlv Hfuel Hps Hinv HJ.
  - assert (i = N + 1) as -> by lia.
    simpl. destruct (Z.leb_spec (N + 1) N); [lia |].
    apply Hstop; assumption.
  - cbn [ISieveCc.sieve_loop].
    destruct (Z.leb_spec i N) as [HiN | HiN].
    2:{ assert (i = N + 1) as -> by lia. apply Hstop; assumption. }
    assert (Hi2 : 2 <= i) by lia.
    destruct (spf_round_spec N i t ltac:(lia) ltac:(lia) Hlen Hinv)
      as [t1 [t2 [Etest [Emid [Hlen1 [Hother [Hti [Hrun [Hlen2 Hinv2]]]]]]]]].
    (* [is_prime[i]] agrees with [spf[i] == 0] *)
    assert (Hb : bit v i = (entry t i =? 0)).
    { rewrite (HJ i ltac:(lia)).
      destruct (Z.eqb_spec (entry t i) 0) as [E0 | NE0]; [reflexivity |].
      cbn [orb]. rewrite (Hinv i ltac:(lia)) in NE0 |- *.
      destruct (Z.leb_spec 2 i); [| lia]. cbn [andb] in NE0 |- *.
      destruct (Z.ltb_spec (writer i) i) as [Hw | Hw]; [| lia].
      destruct (Z.eqb_spec (lpf i) i) as [E | _]; [| reflexivity].
      apply (lpf_self_prime i Hi2) in E. apply (writer_self i Hi2) in E. lia. }
    rewrite (vget_Done v i false) by lia. cbn [and_then].
    fold (bit v i). rewrite Hb. subst ps. rewrite Emid. cbn [and_then fst snd].
    (* the bits stay in step with the table over the write of [spf[i]] *)
    assert (HJ1 : forall k, 2 <= k <= N ->
                            bit v k = (entry t1 k =? 0) || (entry t1 k =? k)).
    { intros k Hk. destruct (Z.eq_dec k i) as [-> | Hki].
      - rewrite Hti, Hb, Etest.
        destruct (lpf_spec i Hi2) as [Hr _].
        destruct (Z.eqb_spec (lpf i) 0); [lia |]. cbn [orb].
        pose proof (trial_division_prime i) as Htd.
        pose proof (lpf_self_prime i Hi2) as Hself.
        destruct (Z.eqb_spec (lpf i) i) as [E | NE];
          destruct (trial_division i); try reflexivity.
        + assert (Z.prime i) by tauto. intuition congruence.
        + assert (Z.prime i) by tauto. intuition congruence.
      - rewrite Hother by lia. apply HJ. exact Hk. }
    destruct (isieve_inner_sim (length (primes_upto i)) N i 0 (primes_upto i) t1 v t2)
      as [v2 [Hrun2 [Hlv2 [Hlow2 HJ2]]]]; try assumption; try lia.
    + pose proof (primes_upto_length i ltac:(lia)). lia.
    + apply primes_upto_ge_2.
    + rewrite Hrun2. cbn [and_then fst snd].
      rewrite int_Done by lia. cbn [and_then].
      destruct (IH N (i + 1) (primes_upto i) t2 v2)
        as [t' [v' [Hrun' [Hlen' [Hlv' [Hfin [Hlow' Hbits]]]]]]];
        try assumption; try lia.
      * replace (i + 1 - 1) with i by lia. reflexivity.
      * exists t', v'. split; [exact Hrun' |]. split; [exact Hlen' |].
        split; [exact Hlv' |]. split; [exact Hfin |]. split; [| exact Hbits].
        intros k Hk. rewrite (Hlow' k Hk). apply Hlow2. exact Hk.
Qed.

Lemma isieve_correct (N : Z) :
  1 <= N < 2 ^ 31 - 1 ->
  exists t v,
    ISieveCc.sieve N ISieveCc.fresh
    = Done {| primes := primes_upto N; spf := t; is_prime := v |} /\
    Z.of_nat (length t) = N + 1 /\ length v = length t /\
    (forall k, 0 <= k <= N -> entry t k = if 2 <=? k then lpf k else 0) /\
    (forall k, 0 <= k <= N -> bit v k = (2 <=? k) && (lpf k =? k)).
Proof.
  assert (H31 : 2 ^ 31 = 2147483648) by reflexivity.
  intros HN. unfold ISieveCc.sieve, ISieveCc.fresh. cbn [is_prime spf primes].
  rewrite int_Done by lia. cbn [and_then].
  rewrite !vresize_nil by lia. cbn [and_then].
  set (v0 := repeat true (Z.to_nat (N + 1))).
  set (t0 := repeat 0 (Z.to_nat (N + 1))).
  assert (Hl0 : Z.of_nat (length v0) = N + 1).
  { unfold v0. rewrite repeat_length. lia. }
  assert (Ht0 : Z.of_nat (length t0) = N + 1).
  { unfold t0. rewrite repeat_length. lia. }
  rewrite vset_Done by lia. cbn [and_then].
  rewrite vset_Done by (rewrite set_nth_length; lia). cbn [and_then].
  set (v2 := set_nth (Z.to_nat 0) false (set_nth (Z.to_nat 1) false v0)).
  assert (Hl2 : length v2 = length t0).
  { unfold v2. rewrite !set_nth_length. lia. }
  assert (Hb2 : forall k, 0 <= k <= N -> bit v2 k = (2 <=? k)).
  { intros k Hk. unfold v2.
    rewrite bit_set_nth by (rewrite ?set_nth_length; lia).
    rewrite bit_set_nth by lia.
    destruct (Z.eqb_spec k 0) as [-> | H0]; [reflexivity |].
    destruct (Z.eqb_spec k 1) as [-> | H1]; [reflexivity |].
    unfold v0. rewrite bit_repeat by lia.
    destruct (Z.leb_spec 2 k); [reflexivity | lia]. }
  destruct (isieve_loop_spec (Z.to_nat N) N 2 [] t0 v2)
    as [t' [v' [Hrun [Hlen' [Hlv' [Hfin [Hlow Hbits]]]]]]];
    try assumption; try lia.
  - reflexivity.
  - intros k Hk. unfold t0. rewrite entry_repeat_0.
    destruct (Z.leb_spec 2 k); [| reflexivity]. cbn [andb].
    pose proof (writer_bounds k ltac:(lia)).
    destruct (Z.ltb_spec (writer k) 2); [lia | reflexivity].
  - intros k Hk. rewrite Hb2 by lia. unfold t0. rewrite entry_repeat_0.
    destruct (Z.leb_spec 2 k); [reflexivity | lia].
  - rewrite Hrun. cbn [and_then fst snd].
    exists t', v'. split; [reflexivity |]. split; [exact Hlen' |].
    split; [exact Hlv' |]. split; [exact Hfin |].
    intros k Hk. destruct (Z.leb_spec 2 k) as [Hk2 | Hk2]; cbn [andb].
    + apply Hbits. lia.
    + rewrite Hlow by lia. rewrite Hb2 by lia.
      destruct (Z.leb_spec 2 k); [lia | reflexivity].
Qed.

(** On the finished tables, the inner loop only rewrites entries with
    the values they hold, whatever primes the vector [primes] lists. *)
Lemma isieve_inner_idle (fuel : nat) :
  forall N i j ps t v,
    2 <= i <= N -> N < 2 ^ 31 - 1 -> 0 <= j ->
    Z.of_nat (length ps) < 2 ^ 31 - 1 -> Forall Z.prime ps ->
    Z.of_nat (length t) = N + 1 -> length v = length t ->
    (forall k, 2 <= k <= N -> entry t k = lpf k) ->
    (forall k, 2 <= k <= N -> bit v k = (lpf k =? k)) ->
    Z.of_nat (length ps) - j <= Z.of_nat fuel ->
    ISieveCc.sieve_inner fuel N i j ps t v = Done (t, v).
Proof.
  assert (H31 : 2 ^ 31 = 2147483648) by reflexivity.
  induction fuel as [| fuel IH];
    intros N i j ps t v Hi HN Hj Hlps Hpr Hlen Hlv Htab Hbits Hfuel.
  - cbn [ISieveCc.sieve_inner]. rewrite to_int_small by lia.
    destruct (Z.ltb_spec j (Z.of_nat (length ps))); [lia | reflexivity].
  - cbn [ISieveCc.sieve_inner]. rewrite to_int_small by lia.
    destruct (Z.ltb_spec j (Z.of_nat (length ps))) as [Hin | Hout]; [| reflexivity].
    rewrite (vget_Done ps j 0) by lia. cbn [and_then].
    rewrite (vget_Done t i 0) by lia. cbn [and_then].
    fold (entry t i). rewrite (Htab i) by lia.
    set (pj := nth (Z.to_nat j) ps 0).
    assert (Hpj : Z.prime pj).
    { rewrite Forall_forall in Hpr. apply Hpr. apply nth_In. lia. }
    pose proof (Z.prime_ge_2 pj Hpj) as Hpj2.
    destruct (lpf_spec i ltac:(lia)) as [Hlr _].
    destruct ll_bounds as [Emin Emax].
    destruct (Z.leb_spec pj (lpf i)) as [Hle | Hgt]; [| reflexivity].
    rewrite ll_Done by nia. cbn [and_then].
    destruct (Z.leb_spec (i * pj) N) as [HipN | HipN]; [| reflexivity].
    assert (Hl : lpf (i * pj) = pj) by (apply lpf_mul; [lia | exact Hpj | exact Hle]).
    rewrite int_Done by nia. cbn [and_then].
    rewrite vset_Done by nia. cbn [and_then].
    rewrite (set_nth_same (Z.to_nat (i * pj)) false false v); [| nia |].
    2:{ fold (bit v (i * pj)). rewrite Hbits by nia. rewrite Hl.
        destruct (Z.eqb_spec pj (i * pj)); [nia | reflexivity]. }
    rewrite vset_Done by nia. cbn [and_then].
    rewrite (set_nth_same (Z.to_nat (i * pj)) pj 0 t); [| nia |].
    2:{ fold (entry t (i * pj)). rewrite Htab by nia. exact Hl. }
    rewrite int_Done by lia. cbn [and_then].
    apply IH; try assumption; lia.
Qed.

(** On the finished tables, the outer loop appends the primes up to [N]
    to whatever primes the vector [primes] lists already. *)
Lemma isieve_loop_rerun (fuel : nat) :
  forall N i ps0 t v,
    2 <= i <= N + 1 -> N < 2 ^ 30 ->
    Z.of_nat (length ps0) <= N -> Forall Z.prime ps0 ->
    Z.of_nat (length t) = N + 1 -> length v = length t ->
    (forall k, 2 <= k <= N -> entry t k = lpf k) ->
    (forall k, 2 <= k <= N -> bit v k = (lpf k =? k)) ->
    N + 1 - i <= Z.of_nat fuel ->
    ISieveCc.sieve_loop fuel N i (ps0 ++ primes_upto (i - 1)) t v
    = Done (ps0 ++ primes_upto N, t, v).
Proof.
  assert (H30 : 2 ^ 30 = 1073741824) by reflexivity.
  assert (H31 : 2 ^ 31 = 2147483648) by reflexivity.
  induction fuel as [| fuel IH];
    intros N i ps0 t v Hi HN Hl0 Hpr Hlen Hlv Htab Hbits Hfuel.
  - assert (i = N + 1) as -> by lia.
    simpl. destruct (Z.leb_spec (N + 1) N); [lia |].
    replace (N + 1 - 1) with N by lia. reflexivity.
  - cbn [ISieveCc.sieve_loop].
    destruct (Z.leb_spec i N) as [HiN | HiN].
    2:{ assert (i = N + 1) as -> by lia.
        replace (N + 1 - 1) with N by lia. reflexivity. }
    assert (Hi2 : 2 <= i) by lia.
    pose proof (trial_division_prime i) as Htd.
    pose proof (lpf_self_prime i Hi2) as Hself.
    rewrite (vget_Done v i false) by lia. cbn [and_then].
    fold (bit v i). rewrite (Hbits i) by lia.
    assert (Hmid : (if lpf i =? i
                    then do t1 <~ vset t i i;
                         Done ((ps0 ++ primes_upto (i - 1)) ++ [i], t1)
                    else Done (ps0 ++ primes_upto (i - 1), t))
                   = Done (ps0 ++ primes_upto i, t)).
    { rewrite (primes_upto_succ i Hi2).
      destruct (Z.eqb_spec (lpf i) i) as [E | NE].
      - assert (Hp : trial_division i = true) by tauto.
        rewrite Hp, vset_Done by lia. cbn [and_then].
        rewrite (set_nth_same (Z.to_nat i) i 0 t); [| lia |].
        + rewrite app_assoc. reflexivity.
        + fold (entry t i). rewrite Htab by lia. exact E.
      - assert (Hp : trial_division i = false).
        { destruct (trial_division i); [| reflexivity]. exfalso. tauto. }
        rewrite Hp, app_nil_r. reflexivity. }
    rewrite Hmid. cbn [and_then fst snd].
    pose proof (primes_upto_length i ltac:(lia)) as Hli.
    rewrite isieve_inner_idle; try assumption; try lia.
    + cbn [and_then fst snd].
      rewrite int_Done by lia. cbn [and_then].
      replace (primes_upto i) with (primes_upto (i + 1 - 1))
        by (f_equal; lia).
      apply IH; try assumption; lia.
    + rewrite length_app. lia.
    + apply Forall_app. split; [exact Hpr |].
      apply Forall_forall. intros p Hp. apply primes_upto_In in Hp. tauto.
Qed.

Lemma isieve_rerun (N : Z) (t : list Z) (v : list bool) :
  1 <= N < 2 ^ 30 ->
  Z.of_nat (length t) = N + 1 -> length v = length t ->
  (forall k, 0 <= k <= N -> entry t k = if 2 <=? k then lpf k else 0) ->
  (forall k, 0 <= k <= N -> bit v k = (2 <=? k) && (lpf k =? k)) ->
  ISieveCc.sieve N {| primes := primes_upto N; spf := t; is_prime := v |}
  = Done {| primes := primes_upto N ++ primes_upto N; spf := t; is_prime := v |}.
Proof.
  assert (H30 : 2 ^ 30 = 1073741824) by reflexivity.
  assert (H31 : 2 ^ 31 = 2147483648) by reflexivity.
  intros HN Hlen Hlv Htab Hbits.
  unfold ISieveCc.sieve. cbn [is_prime spf primes].
  rewrite int_Done by lia. cbn [and_then].
  rewrite !vresize_same by lia. cbn [and_then].
  rewrite vset_Done by lia. cbn [and_then].
  rewrite (set_nth_same (Z.to_nat 1) false false v); [| lia |].
  2:{ fold (bit v 1). rewrite Hbits by lia. reflexivity. }
  rewrite vset_Done by lia. cbn [and_then].
  rewrite (set_nth_same (Z.to_nat 0) false false v); [| lia |].
  2:{ fold (bit v 0). rewrite Hbits by lia. reflexivity. }
  assert (E : primes_upto N = primes_upto N ++ primes_upto (2 - 1)).
  { rewrite app_nil_r. reflexivity. }
  rewrite E at 1.
  rewrite isieve_loop_rerun; try assumption; try lia.
  - reflexivity.
  - apply primes_upto_length. lia.
  - apply Forall_forall. intros p Hp. apply primes_upto_In in Hp. tauto.
  - intros k Hk. rewrite Htab by lia. destruct (Z.leb_spec 2 k); [reflexivity | lia].
  - intros k Hk. rewrite Hbits by lia. destruct (Z.leb_spec 2 k); [reflexivity | lia].
Qed.

Lemma isieve_small_fault (N : Z) (g : globals) :
  N < 1 -> ISieveCc.sieve N g = Fault.
Proof.
  intros HN. unfold ISieveCc.sieve, int_.
  destruct ((- 2 ^ 31 <=? N + 1) && (N + 1 <=? 2 ^ 31 - 1)); [| reflexivity].
  cbn [and_then]. unfold vresize.
  destruct (Z.ltb_spec (N + 1) 0); [reflexivity |].
  cbn [and_then]. rewrite vset_Fault; [reflexivity |].
  rewrite length_app, length_firstn, repeat_length. lia.
Qed.

Lemma isieve_int_max_fault (g : globals) :
  ISieveCc.sieve (2 ^ 31 - 1) g = Fault.
Proof. reflexivity. Qed.

(** ** The recursive calls of [factor] *)

Lemma factor_call_proper (n c : Z) :
  1 <= n -> factor_call n c -> (c | n) /\ 2 <= c < n.
Proof.
  intros Hn Hc.
  destruct Hc as [fuel x Hn1 Hmr Hp | fuel fuel' x nx l Hn1 Hmr Hp _ Hdiv];
    apply Z.eqb_neq in Hn1;
    pose proof (split_arg_large n Hn Hn1 Hmr) as H3;
    destruct (pollard_divisor fuel n x ltac:(lia) Hp) as [Hx Hr].
  - split; [exact Hx | lia].
  - apply div64_Ok_inv in Hdiv. destruct Hdiv as [_ ->].
    destruct (cofactor_nontrivial n x Hx Hr) as [_ [Hd Hc]].
    split; [exact Hd | lia].
Qed.

Lemma nested_bound (k : nat) (n c : Z) :
  nested k n c -> 1 <= n ->
  (c | n) /\ 1 <= c /\ c * 2 ^ Z.of_nat k <= n.
Proof.
  induction 1 as [n | k n m c Hcall Hrest IH]; intros Hn.
  - split; [apply Z.divide_refl |]. split; [exact Hn |].
    cbn [Z.of_nat]. lia.
  - destruct (factor_call_proper n m Hn Hcall) as [[q Hq] Hm].
    destruct (IH ltac:(lia)) as [Hcm [Hc Hpow]].
    split; [apply (Z.divide_trans c m n); [exact Hcm | exists q; exact Hq] |].
    split; [exact Hc |].
    rewrite Nat2Z.inj_succ, Z.pow_succ_r by lia.
    assert (Hq2 : 2 <= q) by nia. nia.
Qed.

Lemma factor_calls_nested (fuel : nat) :
  forall n t k s,
    1 <= n -> factor_calls fuel n = Ok t -> at_depth k t s ->
    nested k n (arg s).
Proof.
  induction fuel as [| fuel IH]; intros n t k s Hn H Hs; [discriminate |].
  rewrite factor_calls_S in H.
  destruct (n =? 1) eqn:Hn1.
  { injection H as <-. inversion Hs; subst. apply nested_here. }
  inv_bind H as b Hmr.
  destruct b.
  { injection H as <-. inversion Hs; subst. apply nested_here. }
  inv_bind H as x Hp. inv_bind H as l Hl. inv_bind H as nx Hdiv.
  inv_bind H as r Hr. injection H as <-.
  pose proof Hn1 as Hn1'. apply Z.eqb_neq in Hn1'.
  pose proof (split_arg_large n Hn Hn1' Hmr) as H3.
  destruct (pollard_divisor fuel n x ltac:(lia) Hp) as [Hx Hxr].
  pose proof Hdiv as Hdiv'. apply div64_Ok_inv in Hdiv'. destruct Hdiv' as [_ Enx].
  destruct (cofactor_nontrivial n x Hx Hxr) as [_ [_ Hc]].
  inversion Hs as [t0 | k0 n0 l0 r0 s0 Hsub | k0 n0 l0 r0 s0 Hsub]; subst.
  - apply nested_here.
  - apply (nested_call k0 n x).
    + exact (call_first n fuel x Hn1 Hmr Hp).
    + apply (IH x l); [lia | exact Hl | exact Hsub].
  - apply (nested_call k0 n (n / x)).
    + apply (call_second n fuel fuel x (n / x) (leaves l) Hn1 Hmr Hp); [| exact Hdiv].
      rewrite factor_leaves, Hl. reflexivity.
    + apply (IH (n / x) r); [lia | exact Hr | exact Hsub].
Qed.

Lemma nested_2299 : nested 2 2299 19.
Proof.
  apply (nested_call 1 2299 209).
  - apply (call_first 2299 60 209); vm_compute; reflexivity.
  - apply (nested_call 0 209 19).
    + apply (call_second 209 60 60 11 19 [11]); vm_compute; reflexivity.
    + apply nested_here.
Qed.

(** * The claims *)

(** C1 and C8 stay open.  Both speak of what [factor n] returns for
    every [n]; that it returns at all rests on the loop of [pollard]
    ending on every composite argument, which nothing in the code
    establishes (its own notes say of the prime powers that they
    "happen to work").  For the runs that do return, [factor_sound]
    gives the product, the verdict of [miller_rabin] on every element
    and the empty case, and [factor_deterministic] that the sequence
    depends on [n] alone; that [factor] returns is shown for the primes
    and for 1, ..., 2000 among the further properties below. *)

(** C3.  For [0 <= a, b < m] and [m <= 7.2 * 10^18], [modmul a b m] is
    [(a * b) mod m] computed on unbounded integers: the 128-bit product
    does not wrap. *)
Theorem modmul_spec (a b m : Z) :
  0 <= a < m -> 0 <= b < m -> m <= 7200000000000000000 ->
  modmul a b m = Ok ((a * b) mod m).
Proof.
  intros Ha Hb Hm.
  apply modmul_exact; unfold u64; try rewrite two64_eq; lia.
Qed.

Lemma modmul_spec_witness :
  modmul 7199999999999999999 7199999999999999999 7200000000000000000
  = Ok ((7199999999999999999 * 7199999999999999999) mod 7200000000000000000).
Proof.
  apply (modmul_spec 7199999999999999999 7199999999999999999 7200000000000000000);
    lia.
Defined.

(** C4.  The code misses the claim at modulus 1 with exponent 0: the
    loop of [modpow] never runs and the accumulator, started at the
    unreduced constant 1, is returned as it is, while [0 ^ 0 mod 1] is 0.
    With exponent 1 the same base and modulus give the reduced value. *)
Theorem modpow_exp0_mod1 :
  0 < 1 /\ 0 <= 0 < 1 /\ 0 <= 0 /\
  modpow 0 0 1 = Ok 1 /\
  modpow 0 0 1 <> Ok (0 ^ 0 mod 1) /\
  modpow 0 1 1 = Ok (0 ^ 1 mod 1).
Proof.
  repeat split; try lia. vm_compute. discriminate.
Qed.

(** Everywhere else the code does what C4 says: for a 64-bit modulus
    [m > 0], a base [0 <= b < m] and a 64-bit exponent [e], [modpow b e m]
    is [b ^ e mod m] on unbounded integers as soon as [m > 1] or
    [e >= 1]. *)
Lemma modpow_reduced (b e m : Z) :
  0 < m -> u64 m -> 0 <= b < m -> u64 e -> 1 < m \/ 1 <= e ->
  modpow b e m = Ok (b ^ e mod m).
Proof.
  intros Hm0 Hm Hb He Hcase.
  assert (Hm' : 0 < m < two64) by (unfold u64 in Hm; lia).
  assert (Hb' : u64 b) by (unfold u64 in *; lia).
  rewrite modpow_correct by assumption.
  destruct (e =? 0) eqn:E0; [| reflexivity].
  apply Z.eqb_eq in E0. subst e.
  destruct Hcase as [H1 | H1]; [| lia].
  rewrite Z.pow_0_r, Z.mod_1_l by lia. reflexivity.
Qed.

(** C5.  For a composite 64-bit [n > 1], whenever [pollard n] returns,
    its result divides [n] and lies strictly between 1 and [n]. *)
Theorem pollard_nontrivial_divisor (fuel : nat) (n d : Z) :
  u64 n -> 1 < n -> ~ Z.prime n -> pollard fuel n = Ok d ->
  (d | n) /\ 1 < d < n.
Proof.
  intros _ Hn Hcomp H.
  apply (pollard_divisor fuel); [| exact H].
  destruct (Z.eq_dec n 2) as [-> | Hn2]; [| lia].
  exfalso. apply Hcomp. exact Z.prime_2.
Qed.

Lemma not_prime_4 : ~ Z.prime 4.
Proof.
  intros [_ H]. apply (H 2); [lia | exists 2; reflexivity].
Qed.

Lemma pollard_nontrivial_divisor_witness : (2 | 4) /\ 1 < 2 < 4.
Proof.
  apply (pollard_nontrivial_divisor 11 4 2).
  - split; [lia | reflexivity].
  - lia.
  - exact not_prime_4.
  - vm_compute. reflexivity.
Defined.

(** C6.  For every [n] that reaches the witness loop of [miller_rabin]
    and every witness [a] of the fixed set with [a mod n = 0], the body
    of the loop lets [a] pass, so the verdict is the one of the remaining
    witnesses. *)
Theorem mr_witness_multiple_passes (n a : Z) (ws : list Z) :
  u64 n -> mr_small n = false -> In a A -> a mod n = 0 ->
  let s := __builtin_ctzll (sub64 n 1) in
  let d := Z.shiftr n s in
  mr_witness n s d a = Ok true /\
  mr_for n s d (a :: ws) = mr_for n s d ws.
Proof.
  intros Hn Hsmall _ Ha s d.
  pose proof (mr_small_false n Hsmall) as H5.
  assert (Hn' : 0 < n < two64) by (unfold u64 in Hn; lia).
  assert (Hd : u64 d).
  { apply shiftr_u64; [exact Hn |].
    unfold s. rewrite sub64_1 by exact Hn'.
    apply ctzll_bound. lia. }
  pose proof (mr_witness_multiple n s d a Hn' Hd Ha) as Hpass.
  split; [exact Hpass |].
  cbn [mr_for]. rewrite Hpass. reflexivity.
Qed.

Lemma mr_witness_multiple_passes_witness :
  mr_witness 13 (__builtin_ctzll (sub64 13 1)) (Z.shiftr 13 (__builtin_ctzll (sub64 13 1))) 325
  = Ok true /\
  mr_for 13 (__builtin_ctzll (sub64 13 1)) (Z.shiftr 13 (__builtin_ctzll (sub64 13 1))) [325; 2]
  = mr_for 13 (__builtin_ctzll (sub64 13 1)) (Z.shiftr 13 (__builtin_ctzll (sub64 13 1))) [2].
Proof.
  apply (mr_witness_multiple_passes 13 325 [2]).
  - split; [lia | reflexivity].
  - reflexivity.
  - right. left. reflexivity.
  - reflexivity.
Defined.

(** C7.  For every 64-bit [n >= 1], the calls of [factor] never nest
    more than 63 deep below a call [factor n], in runs that return and in
    runs that do not: every call that [factor c] makes is on a proper
    divisor of [c] that is at least 2, so a call [k] deep below
    [factor n] has an argument of at most [n / 2^k].  The calls of a run
    that returns are among these, and its call tree has depth at most
    63. *)
Theorem factor_depth_bounded (n : Z) :
  u64 n -> 1 <= n ->
  (forall k c, nested k n c ->
     (k <= 63)%nat /\ (c | n) /\ 1 <= c /\ c * 2 ^ Z.of_nat k <= n /\
     (forall c', factor_call c c' -> (c' | c) /\ 2 <= c' < c)) /\
  (forall fuel t, factor_calls fuel n = Ok t ->
     (depth t <= 63)%nat /\ proper_calls t /\
     (forall k s, at_depth k t s -> nested k n (arg s))).
Proof.
  intros Hu Hn. split.
  - intros k c Hk.
    destruct (nested_bound k n c Hk Hn) as [Hdiv [Hc Hpow]].
    split.
    + apply (pow2_depth_bound k n); [| unfold u64 in Hu; lia].
      assert (0 < 2 ^ Z.of_nat k) by (apply Z.pow_pos_nonneg; lia). nia.
    + repeat (split; [assumption |]).
      intros c' Hc'. apply factor_call_proper; assumption.
  - intros fuel t Ht.
    destruct (factor_calls_sound fuel n t Hn Ht) as [_ [Hp Hd]].
    split; [apply (pow2_depth_bound _ n); [exact Hd | unfold u64 in Hu; lia] |].
    split; [exact Hp |].
    intros k s Hs. apply (factor_calls_nested fuel n t); assumption.
Qed.

Lemma factor_depth_bounded_witness :
  nested 2 2299 19 /\
  (forall k c, nested k 2299 c ->
     (k <= 63)%nat /\ (c | 2299) /\ 1 <= c /\ c * 2 ^ Z.of_nat k <= 2299 /\
     (forall c', factor_call c c' -> (c' | c) /\ 2 <= c' < c)) /\
  (forall fuel t, factor_calls fuel 2299 = Ok t ->
     (depth t <= 63)%nat /\ proper_calls t /\
     (forall k s, at_depth k t s -> nested k 2299 (arg s))).
Proof.
  split; [exact nested_2299 |].
  apply (factor_depth_bounded 2299).
  - split; [lia | reflexivity].
  - lia.
Defined.

(** C9.  For every 64-bit modulus [m > 0] and all 64-bit [a], [b], with
    no assumption that they are below [m]: [modmul a b m] lies in
    [0, m), and so does [modpow b e m] for every 64-bit exponent
    [e >= 1]. *)
Theorem modmul_modpow_range (a b m : Z) :
  0 < m -> u64 m -> u64 a -> u64 b ->
  (exists r, modmul a b m = Ok r /\ 0 <= r < m) /\
  (forall e, 1 <= e -> u64 e -> exists r, modpow b e m = Ok r /\ 0 <= r < m).
Proof.
  intros Hm0 Hm Ha Hb.
  assert (Hm' : 0 < m < two64) by (unfold u64 in Hm; lia).
  split.
  - exists ((a * b) mod m). split.
    + apply modmul_exact; [assumption | assumption | lia].
    + apply Z.mod_pos_bound. exact Hm0.
  - intros e He1 He. exists (b ^ e mod m). split.
    + rewrite modpow_correct by assumption.
      destruct (e =? 0) eqn:E0; [apply Z.eqb_eq in E0; lia | reflexivity].
    + apply Z.mod_pos_bound. exact Hm0.
Qed.

Lemma modmul_modpow_range_witness :
  (exists r, modmul 18446744073709551615 18446744073709551615 10 = Ok r
             /\ 0 <= r < 10) /\
  (forall e, 1 <= e -> u64 e ->
             exists r, modpow 18446744073709551615 e 10 = Ok r /\ 0 <= r < 10).
Proof.
  apply (modmul_modpow_range 18446744073709551615 18446744073709551615 10).
  - lia.
  - split; [lia | reflexivity].
  - split; [lia | reflexivity].
  - split; [lia | reflexivity].
Defined.

(** C10.  [factor 0] produces no value: [miller_rabin 0] is false, so
    [pollard 0] runs, and its first iteration calls [modmul] with
    modulus 0.  With any fuel that lets the run reach that call the
    outcome is the division error, and no amount of fuel yields a factor
    sequence. *)
Theorem factor_zero_fails (fuel : nat) :
  miller_rabin 0 = Ok false /\
  modmul 2 2 0 = DivByZero /\
  pollard (S fuel) 0 = DivByZero /\
  factor (S (S fuel)) 0 = DivByZero /\
  (forall l, factor fuel 0 <> Ok l).
Proof.
  repeat split.
  intros l. destruct fuel as [| [| fuel]]; discriminate.
Qed.

(** * Further properties of the code *)

(** ** [modmul], [modpow], [miller_rabin], [pollard], [factor] *)

(** X1.  [modmul] and [modpow] are exact on the whole 64-bit range:
    operands need not be reduced, and the modulus may be any non-zero
    64-bit value, also above 7.2 * 10^18. *)
Theorem modmul_modpow_full_range (a b e m : Z) :
  u64 a -> u64 b -> u64 e -> u64 m -> 0 < m ->
  modmul a b m = Ok ((a * b) mod m) /\
  (1 <= e -> modpow b e m = Ok (b ^ e mod m)).
Proof.
  intros Ha Hb He Hm Hm0.
  split; [apply modmul_exact; [exact Ha | exact Hb | lia] |].
  intros He1.
  rewrite modpow_correct; [| unfold u64 in Hm; lia | exact Hb | exact He].
  destruct (Z.eqb_spec e 0); [lia | reflexivity].
Qed.

Lemma modmul_modpow_full_range_witness :
  modmul 18446744073709551615 18446744073709551614 18446744073709551613
  = Ok ((18446744073709551615 * 18446744073709551614) mod 18446744073709551613) /\
  (1 <= 3 ->
   modpow 18446744073709551614 3 18446744073709551613
   = Ok (18446744073709551614 ^ 3 mod 18446744073709551613)).
Proof.
  apply (modmul_modpow_full_range
           18446744073709551615 18446744073709551614 3 18446744073709551613);
    try (split; [lia | reflexivity]); lia.
Defined.

(** X2.  [miller_rabin] accepts every prime of the 64-bit range: it has
    no false negative. *)
Theorem miller_rabin_accepts_primes (n : Z) :
  u64 n -> Z.prime n -> miller_rabin n = Ok true.
Proof.
  intros Hu Hp. apply miller_rabin_prime; assumption.
Qed.

Lemma miller_rabin_accepts_primes_witness : miller_rabin 2999 = Ok true.
Proof.
  apply (miller_rabin_accepts_primes 2999).
  - split; [lia | reflexivity].
  - apply trial_division_prime. vm_compute. reflexivity.
Defined.

(** X3.  [miller_rabin] gives a verdict on every 64-bit input, 0
    included: it never divides by zero and its loops end within their
    bounds. *)
Theorem miller_rabin_gives_verdict (n : Z) :
  u64 n -> exists b, miller_rabin n = Ok b.
Proof.
  intros Hu. apply miller_rabin_total. exact Hu.
Qed.

Lemma miller_rabin_gives_verdict_witness :
  exists b, miller_rabin 18446744073709551615 = Ok b.
Proof.
  apply (miller_rabin_gives_verdict 18446744073709551615).
  split; [lia | reflexivity].
Defined.

(** X4.  On inputs below 2 and on multiples of 2 or 3 the first line of
    [miller_rabin] decides: the answer is true exactly for 2 and 3. *)
Theorem miller_rabin_guard (n : Z) :
  u64 n -> n < 2 \/ n mod 2 = 0 \/ n mod 3 = 0 ->
  miller_rabin n = Ok ((n =? 2) || (n =? 3)).
Proof.
  intros Hu Hcase. unfold u64 in Hu. unfold miller_rabin.
  rewrite (mr_small_true n) by (try exact Hcase; lia).
  rewrite lor_1_is_3 by lia. reflexivity.
Qed.

Lemma miller_rabin_guard_witness :
  miller_rabin 18446744073709551615 = Ok ((18446744073709551615 =? 2) || (18446744073709551615 =? 3)).
Proof.
  apply (miller_rabin_guard 18446744073709551615).
  - split; [lia | reflexivity].
  - right. right. reflexivity.
Defined.

(** X5.  Below 3000 the verdict of [miller_rabin] is exactly primality
    (checked against trial division). *)
Theorem miller_rabin_exact_below_3000 (n : Z) :
  0 <= n < 3000 -> (miller_rabin n = Ok true <-> Z.prime n).
Proof.
  intros Hn. apply miller_rabin_exact_small. exact Hn.
Qed.

Lemma miller_rabin_exact_below_3000_witness :
  miller_rabin 561 = Ok true <-> Z.prime 561.
Proof.
  apply (miller_rabin_exact_below_3000 561). lia.
Defined.

(** X6.  On a prime other than 2 [pollard] never returns and never
    faults: whatever the number of rounds granted, the loop is still
    running. *)
Theorem pollard_runs_forever_on_primes (fuel : nat) (n : Z) :
  Z.prime n -> 2 < n -> pollard fuel n = OutOfFuel.
Proof.
  intros Hp Hn. unfold pollard.
  destruct (pollard_loop_no_div fuel n 0 0 30 2 1 ltac:(lia)) as [H | [d H]];
    [exact H | exfalso].
  apply pollard_loop_divisor in H; [| exact Hn | lia].
  destruct H as [Hdiv Hd]. destruct Hp as [_ Hnd].
  apply (Hnd d); [lia | exact Hdiv].
Qed.

Lemma pollard_runs_forever_on_primes_witness : pollard 500 13 = OutOfFuel.
Proof.
  apply (pollard_runs_forever_on_primes 500 13).
  - apply trial_division_prime. vm_compute. reflexivity.
  - lia.
Defined.

(** X7.  [factor] of a 64-bit prime is the one-element sequence of that
    prime, without any call to [pollard]. *)
Theorem factor_of_prime (fuel : nat) (n : Z) :
  u64 n -> Z.prime n -> factor (S fuel) n = Ok [n].
Proof.
  intros Hu Hp. rewrite factor_S.
  pose proof (Z.prime_ge_2 n Hp) as H2.
  destruct (Z.eqb_spec n 1); [lia |].
  rewrite (miller_rabin_prime n Hu Hp). reflexivity.
Qed.

Lemma factor_of_prime_witness : factor 1 2999 = Ok [2999].
Proof.
  apply (factor_of_prime 0 2999).
  - split; [lia | reflexivity].
  - apply trial_division_prime. vm_compute. reflexivity.
Defined.

(** X8.  On every [n] from 1 to 2000 [factor] returns, and what it
    returns is the factorisation of [n] into primes. *)
Theorem factor_small_complete (n : Z) :
  1 <= n <= 2000 ->
  exists l, factor 100 n = Ok l /\ product l = n /\ Forall Z.prime l.
Proof.
  intros Hn.
  destruct (factor_returns_small n Hn) as [l Hl].
  destruct (factor_sound 100 n l ltac:(lia) Hl) as [Hprod [Hall _]].
  exists l. split; [exact Hl |]. split; [exact Hprod |].
  assert (Hge : Forall (fun x => 2 <= x) l).
  { eapply Forall_impl; [| exact Hall].
    intros x Hx. apply miller_rabin_true_ge_2. exact Hx. }
  rewrite Forall_forall in *. intros x Hx.
  apply miller_rabin_exact_small; [| apply Hall; exact Hx].
  pose proof (product_In_le l x ltac:(apply Forall_forall; exact Hge) Hx).
  specialize (Hge x Hx). cbn beta in Hge. lia.
Qed.

Lemma factor_small_complete_witness :
  exists l, factor 100 1681 = Ok l /\ product l = 1681 /\ Forall Z.prime l.
Proof.
  apply (factor_small_complete 1681). lia.
Defined.

(** ** [sieve], [spf_sieve] and [pf_precomp] *)

(** X9.  For [1 <= N <= 3037000499] (beyond which [i * i] can overflow)
    [sieve N] returns with [is_prime] of size [N + 1], and
    [is_prime[k]] is true exactly for the primes [k <= N]. *)
Theorem sieve_marks_primes (N : Z) (g : globals) :
  1 <= N <= 3037000499 ->
  exists g',
    sieve N g = Done g' /\
    Z.of_nat (length (is_prime g')) = N + 1 /\
    (forall k, 0 <= k <= N -> (bit (is_prime g') k = true <-> Z.prime k)).
Proof.
  intros HN.
  destruct (sieve_correct N g HN) as [v [Hrun [Hlen Hbits]]].
  eexists. split; [exact Hrun |]. split; [exact Hlen | exact Hbits].
Qed.

Lemma sieve_marks_primes_witness :
  exists g',
    sieve 30 {| primes := [4]; spf := []; is_prime := [true] |} = Done g' /\
    Z.of_nat (length (is_prime g')) = 30 + 1 /\
    (forall k, 0 <= k <= 30 -> (bit (is_prime g') k = true <-> Z.prime k)).
Proof.
  apply (sieve_marks_primes 30). lia.
Defined.

(** X10.  For the same [N], after [sieve N] the vector [primes] holds
    exactly the primes up to [N], in increasing order, whatever it held
    before; [spf] is left as it was. *)
Theorem sieve_lists_primes (N : Z) (g : globals) :
  1 <= N <= 3037000499 ->
  exists g',
    sieve N g = Done g' /\
    spf g' = spf g /\
    StronglySorted Z.lt (primes g') /\
    (forall p, In p (primes g') <-> Z.prime p /\ p <= N).
Proof.
  intros HN.
  destruct (sieve_correct N g HN) as [v [Hrun _]].
  eexists. split; [exact Hrun |]. cbn [primes spf].
  split; [reflexivity |].
  split; [apply primes_upto_sorted | apply primes_upto_In].
Qed.

Lemma sieve_lists_primes_witness :
  exists g',
    sieve 30 {| primes := [4]; spf := [7]; is_prime := [true] |} = Done g' /\
    spf g' = spf {| primes := [4]; spf := [7]; is_prime := [true] |} /\
    StronglySorted Z.lt (primes g') /\
    (forall p, In p (primes g') <-> Z.prime p /\ p <= 30).
Proof.
  apply (sieve_lists_primes 30). lia.
Defined.

(** X11.  [sieve N] has no defined result for [N < 1], [N = 0]
    included: [is_prime[1]] is written to a vector of at most one
    element (or the vector cannot be allocated). *)
Theorem sieve_below_1_faults (N : Z) (g : globals) :
  N < 1 -> sieve N g = Fault.
Proof.
  intros HN. apply sieve_small_fault. exact HN.
Qed.

Lemma sieve_below_1_faults_witness :
  sieve 0 {| primes := []; spf := []; is_prime := [] |} = Fault.
Proof.
  apply (sieve_below_1_faults 0). lia.
Defined.



(** X13.  For the same [N], after [spf_sieve N] the vector [primes]
    holds exactly the primes up to [N], in increasing order, whatever
    it held before. *)
Theorem spf_sieve_lists_primes (N : Z) (g : globals) :
  -1 <= N <= 3037000499 ->
  exists g',
    spf_sieve N g = Done g' /\
    StronglySorted Z.lt (primes g') /\
    (forall p, In p (primes g') <-> Z.prime p /\ p <= N).
Proof.
  intros HN.
  destruct (spf_sieve_correct N g HN) as [t [Hrun _]].
  eexists. split; [exact Hrun |]. cbn [primes].
  split; [apply primes_upto_sorted | apply primes_upto_In].
Qed.

Lemma spf_sieve_lists_primes_witness :
  exists g',
    spf_sieve 30 {| primes := [4]; spf := [7]; is_prime := [true] |} = Done g' /\
    StronglySorted Z.lt (primes g') /\
    (forall p, In p (primes g') <-> Z.prime p /\ p <= 30).
Proof.
  apply (spf_sieve_lists_primes 30). lia.
Defined.

(** X14.  After [spf_sieve N], [pf_precomp x] returns, for every
    [2 <= x <= N], the factorisation of [x]: increasing primes with
    positive exponents whose powers multiply to [x]. *)
Theorem pf_precomp_after_spf_sieve (N x : Z) (g : globals) :
  N <= 3037000499 -> 2 <= x <= N ->
  exists g' l,
    spf_sieve N g = Done g' /\
    pf_precomp x g' = Done l /\
    pf_product l = x /\ pf_canonical l.
Proof.
  intros HN Hx.
  destruct (spf_sieve_correct N g ltac:(lia)) as [t [Hrun [Hlen Htab]]].
  destruct ll_bounds as [_ Emax].
  destruct (pf_precomp_correct N x
              {| primes := primes_upto N; spf := t; is_prime := is_prime g |})
    as [l [Hl [Hprod Hcan]]]; [| lia | exact Hx |].
  - split; [exact Hlen |]. intros k Hk. cbn [spf]. rewrite Htab by lia.
    destruct (Z.leb_spec 2 k); [reflexivity | lia].
  - eexists. exists l. split; [exact Hrun |]. split; [exact Hl |].
    split; assumption.
Qed.

Lemma pf_precomp_after_spf_sieve_witness :
  exists g' l,
    spf_sieve 400 {| primes := []; spf := []; is_prime := [] |} = Done g' /\
    pf_precomp 360 g' = Done l /\
    pf_product l = 360 /\ pf_canonical l.
Proof.
  apply (pf_precomp_after_spf_sieve 400 360); lia.
Defined.

(** X15.  Outside [2, spf.size()) [pf_precomp] does no factoring: for
    [x] equal to 0 or 1 inside the table it returns the empty sequence,
    and for any other such [x] the read of [spf[x]] is out of range. *)
Theorem pf_precomp_outside (x : Z) (g : globals) :
  ~ (2 <= x < Z.of_nat (length (spf g))) ->
  pf_precomp x g =
  if (0 <=? x) && (x <? Z.of_nat (length (spf g))) then Done [] else Fault.
Proof.
  intros Hx.
  destruct (Z.leb_spec 0 x) as [H0 | H0];
    destruct (Z.ltb_spec x (Z.of_nat (length (spf g)))) as [Hl | Hl]; cbn [andb].
  - apply pf_precomp_small; lia.
  - apply pf_precomp_out_of_range. lia.
  - apply pf_precomp_out_of_range. lia.
  - apply pf_precomp_out_of_range. lia.
Qed.

Lemma pf_precomp_outside_witness :
  pf_precomp 5 {| primes := []; spf := [0; 0; 2]; is_prime := [] |} =
  if (0 <=? 5) && (5 <? Z.of_nat (length (spf {| primes := []; spf := [0; 0; 2]; is_prime := [] |})))
  then Done [] else Fault.
Proof.
  apply (pf_precomp_outside 5). cbn [spf length Z.of_nat]. lia.
Defined.

(** ** The Fenwick tree *)

Section FenwickTheorems.

Context {T : Type}.
Variable zero : T.
Variables add sub : T -> T -> T.
Hypothesis add_assoc : forall x y z, add x (add y z) = add (add x y) z.
Hypothesis add_comm : forall x y, add x y = add y x.
Hypothesis add_zero_l : forall x, add zero x = x.
Hypothesis sub_add_l : forall x y, sub (add x y) x = y.

(** X16.  Build a tree of [n < 2^30] zeros and call [upd] any number of
    times with indices in [1..n]: then [get k], for [0 <= k <= n],
    returns the total of the values whose index is at most [k]. *)
Theorem fenwick_get_totals (n k : Z) (us : list (Z * T)) :
  0 <= n < 2 ^ 30 -> Forall (fun u => 1 <= fst u <= n) us -> 0 <= k <= n ->
  exists f0 f,
    Fenwick.make zero n = Done f0 /\
    Fenwick.upd_all add f0 us = Done f /\
    Fenwick.get zero add f k = Done (Fenwick.total_between zero add 1 k us).
Proof.
  intros Hn Hus Hk.
  assert (H30 : 2 ^ 30 = 1073741824) by reflexivity.
  assert (H31 : 2 ^ 30 < 2 ^ 31) by reflexivity.
  destruct (make_spec zero add add_zero_l n ltac:(lia)) as [f0 [Hmake Hrep0]].
  destruct (upd_all_spec zero add add_assoc add_comm add_zero_l us f0 _ n Hrep0
              ltac:(lia) Hus) as [f [Hrun Hrep]].
  exists f0, f. split; [exact Hmake |]. split; [exact Hrun |].
  rewrite (get_spec zero add add_assoc add_comm add_zero_l f _ n k Hrep) by lia.
  f_equal.
  pose proof (sumf_bump_all zero add add_assoc add_comm add_zero_l us
                (fun _ => zero) 1 k) as Hsum.
  replace (1 - 1) with 0 in Hsum by lia.
  replace (k - 1 + 1) with k in Hsum by lia.
  rewrite Hsum, (sumf_zero zero add add_zero_l). reflexivity.
Qed.

(** X17.  In the same situation [get(l, r)], for [1 <= l <= r <= n],
    returns the total of the values whose index lies in [l..r]. *)
Theorem fenwick_get_range_totals (n l r : Z) (us : list (Z * T)) :
  0 <= n < 2 ^ 30 -> Forall (fun u => 1 <= fst u <= n) us ->
  1 <= l -> l <= r -> r <= n ->
  exists f0 f,
    Fenwick.make zero n = Done f0 /\
    Fenwick.upd_all add f0 us = Done f /\
    Fenwick.get_range zero add sub f l r
    = Done (Fenwick.total_between zero add l r us).
Proof.
  intros Hn Hus Hl Hlr Hr.
  assert (H30 : 2 ^ 30 = 1073741824) by reflexivity.
  assert (H31 : 2 ^ 30 < 2 ^ 31) by reflexivity.
  destruct (make_spec zero add add_zero_l n ltac:(lia)) as [f0 [Hmake Hrep0]].
  destruct (upd_all_spec zero add add_assoc add_comm add_zero_l us f0 _ n Hrep0
              ltac:(lia) Hus) as [f [Hrun Hrep]].
  exists f0, f. split; [exact Hmake |]. split; [exact Hrun |].
  rewrite (get_range_spec zero add sub add_assoc add_comm add_zero_l sub_add_l
             f _ n l r Hrep) by lia.
  f_equal.
  rewrite (sumf_bump_all zero add add_assoc add_comm add_zero_l).
  rewrite (sumf_zero zero add add_zero_l). reflexivity.
Qed.

(** X18.  The constructor from a vector of fewer than [2^30] elements
    gives a tree on which [get k] is the sum of the first [k] elements
    and [get(l, r)] the sum of the elements at the positions [l..r]
    (counted from 1). *)
Theorem fenwick_of_vector_sums (input : list T) :
  Z.of_nat (length input) < 2 ^ 30 ->
  exists f,
    Fenwick.of_vector zero add input = Done f /\
    (forall k, 0 <= k <= Z.of_nat (length input) ->
       Fenwick.get zero add f k = Done (Fenwick.segment_sum zero add input 1 k)) /\
    (forall l r, 1 <= l -> l <= r -> r <= Z.of_nat (length input) ->
       Fenwick.get_range zero add sub f l r
       = Done (Fenwick.segment_sum zero add input l r)).
Proof.
  intros Hn.
  assert (H31 : 2 ^ 30 < 2 ^ 31) by reflexivity.
  destruct (of_vector_spec zero add add_assoc add_comm add_zero_l input Hn)
    as [f [Hrun Hrep]].
  exists f. split; [exact Hrun |]. split.
  - intros k Hk.
    rewrite (get_spec zero add add_assoc add_comm add_zero_l f _ _ k Hrep) by lia.
    f_equal.
    rewrite <- (sumf_segment zero add input 1 k) by lia.
    f_equal; lia.
  - intros l r Hl Hlr Hr.
    rewrite (get_range_spec zero add sub add_assoc add_comm add_zero_l sub_add_l
               f _ _ l r Hrep) by lia.
    f_equal. apply sumf_segment; lia.
Qed.

End FenwickTheorems.

Lemma fenwick_get_totals_witness :
  exists f0 f,
    Fenwick.make 0 10 = Done f0 /\
    Fenwick.upd_all Z.add f0 [(3, 5); (7, 2); (3, -1); (10, 4)] = Done f /\
    Fenwick.get 0 Z.add f 7
    = Done (Fenwick.total_between 0 Z.add 1 7 [(3, 5); (7, 2); (3, -1); (10, 4)]).
Proof.
  apply (fenwick_get_totals 0 Z.add).
  - intros; lia.
  - intros; lia.
  - intros; lia.
  - split; [lia | reflexivity].
  - repeat constructor; cbn; lia.
  - lia.
Defined.

Lemma fenwick_get_range_totals_witness :
  exists f0 f,
    Fenwick.make 0 10 = Done f0 /\
    Fenwick.upd_all Z.add f0 [(3, 5); (7, 2); (3, -1); (10, 4)] = Done f /\
    Fenwick.get_range 0 Z.add Z.sub f 4 10
    = Done (Fenwick.total_between 0 Z.add 4 10 [(3, 5); (7, 2); (3, -1); (10, 4)]).
Proof.
  apply (fenwick_get_range_totals 0 Z.add Z.sub).
  - intros; lia.
  - intros; lia.
  - intros; lia.
  - intros; lia.
  - split; [lia | reflexivity].
  - repeat constructor; cbn; lia.
  - lia.
  - lia.
  - lia.
Defined.

Lemma fenwick_of_vector_sums_witness :
  exists f,
    Fenwick.of_vector 0 Z.add [4; -1; 7; 2; 9] = Done f /\
    (forall k, 0 <= k <= Z.of_nat (length [4; -1; 7; 2; 9]) ->
       Fenwick.get 0 Z.add f k
       = Done (Fenwick.segment_sum 0 Z.add [4; -1; 7; 2; 9] 1 k)) /\
    (forall l r, 1 <= l -> l <= r -> r <= Z.of_nat (length [4; -1; 7; 2; 9]) ->
       Fenwick.get_range 0 Z.add Z.sub f l r
       = Done (Fenwick.segment_sum 0 Z.add [4; -1; 7; 2; 9] l r)).
Proof.
  apply (fenwick_of_vector_sums 0 Z.add Z.sub).
  - intros; lia.
  - intros; lia.
  - intros; lia.
  - intros; lia.
  - reflexivity.
Defined.

(** X19.  [upd] at index 0 never ends on a tree with at least one slot:
    [0 & -0] is 0, so the loop stays at index 0, adding [val] to
    [data[0]] in every round. *)
Theorem fenwick_upd_zero_never_ends {T : Type} (add : T -> T -> T)
        (fuel : nat) (d : list T) (len : Z) (val : T) :
  0 < len -> d <> [] -> Fenwick.upd_loop add fuel d len 0 val = Unfinished.
Proof.
  intros Hlen. revert d.
  induction fuel as [| fuel IH]; intros d Hd.
  - simpl. destruct (Z.ltb_spec 0 len); [reflexivity | lia].
  - cbn [Fenwick.upd_loop]. destruct (Z.ltb_spec 0 len); [| lia].
    destruct d as [| x d]; [contradiction |].
    cbn. apply IH. discriminate.
Qed.

Lemma fenwick_upd_zero_never_ends_witness :
  Fenwick.upd_loop Z.add 1000 [0; 0; 0] 3 0 1 = Unfinished.
Proof.
  apply (fenwick_upd_zero_never_ends Z.add 1000 [0; 0; 0] 3 1).
  - lia.
  - discriminate.
Defined.

(** X20.  At the bounds: [upd] at an index of [len] or more changes
    nothing, while [get] at a positive index past the end of [data] is
    an out-of-range read; [upd] at a negative index is an out-of-range
    access, while [get] at an index of 0 or less returns zero. *)
Theorem fenwick_bounds {T : Type} (zero : T) (add : T -> T -> T)
        (f : Fenwick.t) (idx : Z) (val : T) :
  (Fenwick.len f <= idx -> Fenwick.upd add f idx val = Done f) /\
  (Z.of_nat (length (Fenwick.data f)) <= idx -> 0 < idx ->
   Fenwick.get zero add f idx = Fault) /\
  (idx < 0 -> idx < Fenwick.len f -> Fenwick.upd add f idx val = Fault) /\
  (idx <= 0 -> Fenwick.get zero add f idx = Done zero).
Proof.
  destruct f as [d n]. unfold Fenwick.upd, Fenwick.get. cbn [Fenwick.data Fenwick.len].
  change 32%nat with (S 31).
  cbn [Fenwick.upd_loop Fenwick.get_loop].
  repeat split.
  - intros H. destruct (Z.ltb_spec idx n); [lia | reflexivity].
  - intros H Hpos. destruct (Z.ltb_spec 0 idx); [| lia].
    rewrite vget_Fault by lia. reflexivity.
  - intros H Hn. destruct (Z.ltb_spec idx n); [| lia].
    rewrite vget_Fault by lia. reflexivity.
  - intros H. destruct (Z.ltb_spec 0 idx); [lia | reflexivity].
Qed.

(** ** [range] *)

(** X21.  Let [root] be the value [range] gets from [sqrt(R)].  If
    [1 <= L <= R], [1 <= root <= 3037000499], [R < (root + 1)^2] and
    [R + 3037000499] fits [ll], then [range(L, R)] returns with
    [is_prime[k - L]] true exactly for the primes [k] of [L..R], and
    with [primes] holding exactly these primes in increasing order. *)
Theorem range_lists_primes (sqrt_ll : Z -> Z) (L R : Z) (g : globals) :
  1 <= L <= R ->
  1 <= sqrt_ll R <= 3037000499 -> R < (sqrt_ll R + 1) * (sqrt_ll R + 1) ->
  R + 3037000499 <= ll_max ->
  exists g',
    range sqrt_ll L R g = Done g' /\
    Z.of_nat (length (is_prime g')) = R - L + 1 /\
    (forall k, L <= k <= R -> (bit (is_prime g') (k - L) = true <-> Z.prime k)) /\
    StronglySorted Z.lt (primes g') /\
    (forall p, In p (primes g') <-> L <= p <= R /\ Z.prime p).
Proof.
  intros HLR Hroot Hsq Hmax.
  destruct ll_bounds as [Emin Emax].
  destruct (range_run sqrt_ll L R g Hroot) as [v [Hrun [Hlen Hbits]]]; try lia.
  assert (Hprime : forall k, L <= k <= R -> (bit v (k - L) = true <-> Z.prime k)).
  { intros k Hk. rewrite (Hbits k Hk).
    destruct (Z.leb_spec L 0); [lia |].
    split.
    - intros [Hone Hnone].
      assert (Hk2 : 2 <= k).
      { destruct (Z.eq_dec L 1) as [E | NE]; [specialize (Hone E) |]; lia. }
      destruct (trial_division k) eqn:Etd; [apply trial_division_prime; exact Etd |].
      exfalso.
      assert (Hnp : ~ Z.prime k).
      { intros Hp. apply trial_division_prime in Hp. congruence. }
      destruct (not_prime_divisor k Hk2 Hnp) as [m [Hm Hmk]].
      destruct (small_divisor m k Hm Hmk) as [d [Hd2 [Hdd Hdk]]].
      destruct (lpf_spec d Hd2) as [Hpr [Hpd _]].
      apply (Hnone (lpf d)).
      + apply lpf_prime. exact Hd2.
      + nia.
      + split; [apply (Z.divide_trans _ d); assumption |]. nia.
    - intros Hp. pose proof (Z.prime_ge_2 k Hp) as Hk2.
      split; [lia |].
      intros p Hpp _ [Hpk Hle].
      apply (prime_divisor_eq k p Hp) in Hpk; [| apply Z.prime_ge_2; exact Hpp].
      subst p. nia. }
  eexists. split; [exact Hrun |]. cbn [is_prime primes].
  split; [exact Hlen |]. split; [exact Hprime |].
  split; [apply filter_sorted, zseq_sorted |].
  intros p. rewrite filter_In, zseq_In. split.
  - intros [Hr Hb]. assert (Hp : L <= p <= R) by lia.
    split; [exact Hp | apply (Hprime p Hp); exact Hb].
  - intros [Hp Hpr]. split; [lia | apply (Hprime p Hp); exact Hpr].
Qed.

Lemma range_lists_primes_witness :
  exists g',
    range Z.sqrt 90 130 {| primes := [4]; spf := [7]; is_prime := [] |} = Done g' /\
    Z.of_nat (length (is_prime g')) = 130 - 90 + 1 /\
    (forall k, 90 <= k <= 130 -> (bit (is_prime g') (k - 90) = true <-> Z.prime k)) /\
    StronglySorted Z.lt (primes g') /\
    (forall p, In p (primes g') <-> 90 <= p <= 130 /\ Z.prime p).
Proof.
  apply (range_lists_primes Z.sqrt 90 130).
  - lia.
  - vm_compute. split; discriminate.
  - vm_compute. reflexivity.
  - vm_compute. discriminate.
Defined.

(** X22.  Only [L == 1] is guarded: with [L <= 0], every [k <= 1] of
    [L..R], that is 0, 1 and the negative numbers, is left marked and
    ends up in [primes]. *)
Theorem range_lists_nonprimes_from_0 (sqrt_ll : Z -> Z) (L R k : Z) (g : globals) :
  ll_min <= L <= 0 -> L <= R -> R - L + 1 <= ll_max ->
  1 <= sqrt_ll R <= 3037000499 -> R + 3037000499 <= ll_max ->
  L <= k <= R -> k <= 1 ->
  exists g', range sqrt_ll L R g = Done g' /\ In k (primes g').
Proof.
  intros HL HLR Hsize Hroot Hmax Hk Hk1.
  destruct (range_run sqrt_ll L R g Hroot) as [v [Hrun [Hlen Hbits]]]; try lia.
  eexists. split; [exact Hrun |]. cbn [primes].
  apply filter_In. split; [apply zseq_In; lia |].
  apply (Hbits k Hk). split; [lia |].
  destruct (Z.leb_spec L 0); [| lia].
  intros p Hp _ [_ Hle]. apply Z.prime_ge_2 in Hp.
  rewrite Z.max_id in Hle. nia.
Qed.

Lemma range_lists_nonprimes_from_0_witness :
  exists g',
    range Z.sqrt 0 30 {| primes := []; spf := []; is_prime := [] |} = Done g' /\
    In 1 (primes g').
Proof.
  apply (range_lists_nonprimes_from_0 Z.sqrt 0 30 1).
  - vm_compute. split; discriminate.
  - lia.
  - vm_compute. discriminate.
  - vm_compute. split; discriminate.
  - vm_compute. discriminate.
  - lia.
  - lia.
Defined.

(** X23.  If the value taken from [sqrt(R)] is below 1, as for
    [R = 0], [range] has no defined result: it calls [sieve] with it. *)
Theorem range_small_root_faults (sqrt_ll : Z -> Z) (L R : Z) (g : globals) :
  sqrt_ll R < 1 -> range sqrt_ll L R g = Fault.
Proof.
  intros Hroot. unfold range. cbv zeta.
  rewrite sieve_small_fault by exact Hroot. reflexivity.
Qed.

Lemma range_small_root_faults_witness :
  range Z.sqrt 0 0 {| primes := []; spf := []; is_prime := [] |} = Fault.
Proof.
  apply (range_small_root_faults Z.sqrt 0 0). reflexivity.
Defined.

(** ** [src/math/sieve.cc] *)

(** X24.  For [-1 <= N < 2^31], [sieve N] of [src/math/sieve.cc]
    returns with [spf] of size [N + 1]: [spf[0]] and [spf[1]] are -1
    and, for [2 <= k <= N], [spf[k]] is the least prime factor of [k];
    [primes] holds exactly the primes up to [N], in increasing order,
    whatever it held before. *)
Theorem sieve_cc_least_prime_factor (N : Z) (g : SieveCc.globals) :
  -1 <= N < 2 ^ 31 ->
  exists g',
    SieveCc.sieve N g = Done g' /\
    Z.of_nat (length (SieveCc.spf g')) = N + 1 /\
    (forall k, 0 <= k <= 1 -> k <= N -> entry (SieveCc.spf g') k = -1) /\
    (forall k, 2 <= k <= N ->
       Z.prime (entry (SieveCc.spf g') k) /\ (entry (SieveCc.spf g') k | k) /\
       (forall q, Z.prime q -> (q | k) -> entry (SieveCc.spf g') k <= q)) /\
    StronglySorted Z.lt (SieveCc.primes g') /\
    (forall p, In p (SieveCc.primes g') <-> Z.prime p /\ p <= N).
Proof.
  intros HN.
  destruct (sieve_cc_correct N g HN) as [t [Hrun [Hlen Htab]]].
  eexists. split; [exact Hrun |]. cbn [SieveCc.spf SieveCc.primes].
  split; [exact Hlen |]. split; [| split; [| split]].
  - intros k Hk HkN. rewrite Htab by lia.
    destruct (Z.leb_spec 2 k); [lia | reflexivity].
  - intros k Hk. rewrite Htab by lia.
    destruct (Z.leb_spec 2 k); [| lia].
    destruct (lpf_spec k ltac:(lia)) as [_ [Hdiv Hmin]].
    split; [apply lpf_prime; lia |]. split; [exact Hdiv |].
    intros q Hq Hqk. apply Hmin; [apply Z.prime_ge_2; exact Hq | exact Hqk].
  - apply primes_upto_sorted.
  - apply primes_upto_In.
Qed.

Lemma sieve_cc_least_prime_factor_witness :
  exists g',
    SieveCc.sieve 30 {| SieveCc.primes := [4]; SieveCc.spf := [7] |} = Done g' /\
    Z.of_nat (length (SieveCc.spf g')) = 30 + 1 /\
    (forall k, 0 <= k <= 1 -> k <= 30 -> entry (SieveCc.spf g') k = -1) /\
    (forall k, 2 <= k <= 30 ->
       Z.prime (entry (SieveCc.spf g') k) /\ (entry (SieveCc.spf g') k | k) /\
       (forall q, Z.prime q -> (q | k) -> entry (SieveCc.spf g') k <= q)) /\
    StronglySorted Z.lt (SieveCc.primes g') /\
    (forall p, In p (SieveCc.primes g') <-> Z.prime p /\ p <= 30).
Proof.
  apply (sieve_cc_least_prime_factor 30).
  vm_compute. split; [discriminate | reflexivity].
Defined.

(** X25.  [sieve N] of [src/math/sieve.cc] has no defined result for
    [N < -1]: the size [N + 1] it asks for is negative. *)
Theorem sieve_cc_below_minus_1_faults (N : Z) (g : SieveCc.globals) :
  N < -1 -> SieveCc.sieve N g = Fault.
Proof.
  intros HN. unfold SieveCc.sieve, ll.
  destruct ((ll_min <=? N + 1) && (N + 1 <=? ll_max)); [| reflexivity].
  cbn [and_then]. unfold vnew.
  destruct (Z.ltb_spec (N + 1) 0); [reflexivity | lia].
Qed.

Lemma sieve_cc_below_minus_1_faults_witness :
  SieveCc.sieve (-2) {| SieveCc.primes := []; SieveCc.spf := [] |} = Fault.
Proof.
  apply (sieve_cc_below_minus_1_faults (-2)). reflexivity.
Defined.

(** X26.  After [sieve N] with [N < 2^31], [get_pfs x] returns, for
    every [2 <= x <= N], the factorisation of [x]: increasing primes
    with positive exponents whose powers multiply to [x]. *)
Theorem get_pfs_after_sieve (N x : Z) (g : SieveCc.globals) :
  N < 2 ^ 31 -> 2 <= x <= N ->
  exists g' l,
    SieveCc.sieve N g = Done g' /\
    SieveCc.get_pfs x g' = Done l /\
    pf_product l = x /\ pf_canonical l.
Proof.
  intros HN Hx.
  destruct (sieve_cc_correct N g ltac:(lia)) as [t [Hrun [Hlen Htab]]].
  destruct (get_pfs_correct N x
              {| SieveCc.primes := primes_upto N; SieveCc.spf := t |})
    as [l [Hl [Hprod Hcan]]]; [| exact HN | exact Hx |].
  - split; [exact Hlen |]. intros k Hk. cbn [SieveCc.spf].
    rewrite Htab by lia. destruct (Z.leb_spec 2 k); [reflexivity | lia].
  - eexists. exists l. split; [exact Hrun |]. split; [exact Hl |].
    split; assumption.
Qed.

Lemma get_pfs_after_sieve_witness :
  exists g' l,
    SieveCc.sieve 400 {| SieveCc.primes := []; SieveCc.spf := [] |} = Done g' /\
    SieveCc.get_pfs 360 g' = Done l /\
    pf_product l = 360 /\ pf_canonical l.
Proof.
  apply (get_pfs_after_sieve 400 360).
  - reflexivity.
  - lia.
Defined.

(** X27.  Outside [2, spf.size()) [get_pfs] does no factoring: for
    [x] equal to 0 or 1 inside the table it returns the empty sequence,
    and for any other such [x] the read of [spf[x]] is out of range. *)
Theorem get_pfs_outside (x : Z) (g : SieveCc.globals) :
  ~ (2 <= x < Z.of_nat (length (SieveCc.spf g))) ->
  SieveCc.get_pfs x g =
  if (0 <=? x) && (x <? Z.of_nat (length (SieveCc.spf g))) then Done [] else Fault.
Proof.
  intros Hx. unfold SieveCc.get_pfs.
  destruct (Z.leb_spec 0 x) as [H0 | H0];
    destruct (Z.ltb_spec x (Z.of_nat (length (SieveCc.spf g)))) as [Hl | Hl];
    cbn [andb]; try (rewrite vget_Fault by lia; reflexivity).
  rewrite (vget_Done (SieveCc.spf g) x 0) by lia. cbn [and_then].
  cbn [pf_loop]. destruct (Z.ltb_spec 1 x); [lia | reflexivity].
Qed.

Lemma get_pfs_outside_witness :
  SieveCc.get_pfs 1 {| SieveCc.primes := [2]; SieveCc.spf := [-1; -1; 2] |} =
  if (0 <=? 1) &&
     (1 <? Z.of_nat (length (SieveCc.spf
                               {| SieveCc.primes := [2]; SieveCc.spf := [-1; -1; 2] |})))
  then Done [] else Fault.
Proof.
  apply (get_pfs_outside 1). cbn [SieveCc.spf length Z.of_nat]. lia.
Defined.

(** ** [src/math/isieve.cc] *)

(** X28.  Called first, on empty vectors, with [1 <= N <= 2^31 - 2],
    [sieve N] of [src/math/isieve.cc] returns with [is_prime] and [spf]
    of size [N + 1]: [is_prime[k]] is true exactly for the primes [k],
    [spf[k]] is the least prime factor of [k] for [2 <= k <= N], and
    [primes] holds exactly the primes up to [N], in increasing order. *)
Theorem isieve_first_call (N : Z) :
  1 <= N < 2 ^ 31 - 1 ->
  exists g',
    ISieveCc.sieve N ISieveCc.fresh = Done g' /\
    Z.of_nat (length (spf g')) = N + 1 /\
    Z.of_nat (length (is_prime g')) = N + 1 /\
    (forall k, 0 <= k <= N -> (bit (is_prime g') k = true <-> Z.prime k)) /\
    (forall k, 2 <= k <= N ->
       Z.prime (entry (spf g') k) /\ (entry (spf g') k | k) /\
       (forall q, Z.prime q -> (q | k) -> entry (spf g') k <= q)) /\
    StronglySorted Z.lt (primes g') /\
    (forall p, In p (primes g') <-> Z.prime p /\ p <= N).
Proof.
  intros HN.
  destruct (isieve_correct N HN) as [t [v [Hrun [Hlen [Hlv [Htab Hbits]]]]]].
  eexists. split; [exact Hrun |]. cbn [spf is_prime primes].
  split; [exact Hlen |]. split; [lia |].
  split; [| split; [| split]].
  - intros k Hk. rewrite (Hbits k Hk).
    destruct (Z.leb_spec 2 k) as [Hk2 | Hk2]; cbn [andb].
    + rewrite Z.eqb_eq. apply lpf_self_prime. exact Hk2.
    + split; [discriminate |]. intros Hp. apply Z.prime_ge_2 in Hp. lia.
  - intros k Hk. rewrite Htab by lia.
    destruct (Z.leb_spec 2 k); [| lia].
    destruct (lpf_spec k ltac:(lia)) as [_ [Hdiv Hmin]].
    split; [apply lpf_prime; lia |]. split; [exact Hdiv |].
    intros q Hq Hqk. apply Hmin; [apply Z.prime_ge_2; exact Hq | exact Hqk].
  - apply primes_upto_sorted.
  - apply primes_upto_In.
Qed.

Lemma isieve_first_call_witness :
  exists g',
    ISieveCc.sieve 30 ISieveCc.fresh = Done g' /\
    Z.of_nat (length (spf g')) = 30 + 1 /\
    Z.of_nat (length (is_prime g')) = 30 + 1 /\
    (forall k, 0 <= k <= 30 -> (bit (is_prime g') k = true <-> Z.prime k)) /\
    (forall k, 2 <= k <= 30 ->
       Z.prime (entry (spf g') k) /\ (entry (spf g') k | k) /\
       (forall q, Z.prime q -> (q | k) -> entry (spf g') k <= q)) /\
    StronglySorted Z.lt (primes g') /\
    (forall p, In p (primes g') <-> Z.prime p /\ p <= 30).
Proof.
  apply (isieve_first_call 30).
  vm_compute. split; [discriminate | reflexivity].
Defined.

(** X29.  [sieve N] of [src/math/isieve.cc] has no defined result for
    [N < 1], where [is_prime[1]] is outside the vector, nor for
    [N = 2^31 - 1], where [N + 1] overflows [int]; in whatever state
    it is called. *)
Theorem isieve_bad_size_faults (N : Z) (g : globals) :
  N < 1 \/ N = 2 ^ 31 - 1 -> ISieveCc.sieve N g = Fault.
Proof.
  intros [HN | ->].
  - apply isieve_small_fault. exact HN.
  - apply isieve_int_max_fault.
Qed.

Lemma isieve_bad_size_faults_witness :
  ISieveCc.sieve 0 {| primes := []; spf := [0; 0; 2]; is_prime := [false; false; true] |}
  = Fault.
Proof.
  apply (isieve_bad_size_faults 0). left. lia.
Defined.

(** X30.  [sieve] of [src/math/isieve.cc] does not clear [primes]: for
    [1 <= N < 2^30], a second call [sieve N] after the first leaves
    [spf] and [is_prime] as they are and appends the primes up to [N]
    once more, so that [primes] lists each of them twice. *)
Theorem isieve_second_call_doubles_primes (N : Z) :
  1 <= N < 2 ^ 30 ->
  exists g1,
    ISieveCc.sieve N ISieveCc.fresh = Done g1 /\
    ISieveCc.sieve N g1
    = Done {| primes := primes g1 ++ primes g1;
              spf := spf g1; is_prime := is_prime g1 |}.
Proof.
  intros HN.
  assert (H30 : 2 ^ 30 = 1073741824) by reflexivity.
  assert (H31 : 2 ^ 31 = 2147483648) by reflexivity.
  destruct (isieve_correct N ltac:(lia)) as [t [v [Hrun [Hlen [Hlv [Htab Hbits]]]]]].
  eexists. split; [exact Hrun |]. cbn [spf is_prime primes].
  apply isieve_rerun; assumption.
Qed.

Lemma isieve_second_call_doubles_primes_witness :
  exists g1,
    ISieveCc.sieve 30 ISieveCc.fresh = Done g1 /\
    ISieveCc.sieve 30 g1
    = Done {| primes := primes g1 ++ primes g1;
              spf := spf g1; is_prime := is_prime g1 |}.
Proof.
  apply (isieve_second_call_doubles_primes 30).
  vm_compute. split; [discriminate | reflexivity].
Defined.
